(** * wikidot_to_html: a shallow embedding and its properties

    The embedding follows [bin/wikidot_to_html.py]: the regular
    expressions are data interpreted by a backtracking matcher with the
    priorities of Python's [re]; the inline parser works on a store of
    nodes, because the source shares and mutates [Node] objects; block
    rendering and the driver pass their state explicitly and raise
    through a result type.

    Characters are Unicode code points below 256 (Rocq's [ascii]). *)

From Stdlib Require Import String Ascii List Bool Arith NArith ZArith Lia.
From Stdlib Require DecimalString HexadecimalString.
Import ListNotations.
Open Scope string_scope.

(** ** Exceptions *)

Inductive result (A : Type) : Type :=
| Ok (a : A)
| Raise (e : string).
Arguments Ok {A} a.
Arguments Raise {A} e.

Definition bind {A B} (m : result A) (f : A -> result B) : result B :=
  match m with
  | Ok a => f a
  | Raise e => Raise e
  end.

Notation "x <- m ;; k" := (bind m (fun x => k))
  (at level 61, m at next level, right associativity).
Notation "' pat <- m ;; k" := (bind m (fun x => match x with pat => k end))
  (at level 61, pat pattern, m at next level, right associativity).

Definition is_ok {A} (m : result A) : bool :=
  match m with Ok _ => true | Raise _ => false end.

Definition IndexError : string := "IndexError".
Definition TypeError : string := "TypeError".
Definition RecursionError : string := "RecursionError".

(** ** Characters and strings *)

Module Str.

Definition code (c : ascii) : N := N_of_ascii c.

Definition between (lo hi c : ascii) : bool :=
  (code lo <=? code c)%N && (code c <=? code hi)%N.

(** [str.isspace] and the regex class [\s] on code points below 256. *)
Definition is_space (c : ascii) : bool :=
  let n := code c in
  ((9 <=? n) && (n <=? 13) || (28 <=? n) && (n <=? 32)
   || (n =? 133) || (n =? 160))%N.

Definition newline : ascii := "010"%char.

Definition is_empty (s : string) : bool :=
  match s with EmptyString => true | String _ _ => false end.

Definition startswith (p s : string) : bool := String.prefix p s.

Fixpoint rev_onto (s acc : string) : string :=
  match s with
  | EmptyString => acc
  | String c s' => rev_onto s' (String c acc)
  end.

Definition rev (s : string) : string := rev_onto s EmptyString.

Definition endswith (suf s : string) : bool :=
  String.prefix (rev suf) (rev s).

(** [s.rstrip()] *)
Fixpoint rstrip (s : string) : string :=
  match s with
  | EmptyString => EmptyString
  | String c s' =>
      let r := rstrip s' in
      if is_empty r && is_space c then EmptyString else String c r
  end.

(** [s.rstrip(ch)] for a one-character argument *)
Fixpoint rstrip_char (ch : ascii) (s : string) : string :=
  match s with
  | EmptyString => EmptyString
  | String c s' =>
      let r := rstrip_char ch s' in
      if is_empty r && Ascii.eqb c ch then EmptyString else String c r
  end.

(** [s.lstrip(ch)] for a one-character argument *)
Fixpoint lstrip_char (ch : ascii) (s : string) : string :=
  match s with
  | EmptyString => EmptyString
  | String c s' => if Ascii.eqb c ch then lstrip_char ch s' else s
  end.

(** [s[n:]] *)
Fixpoint drop (n : nat) (s : string) : string :=
  match n, s with
  | O, _ => s
  | S n', String _ s' => drop n' s'
  | S _, EmptyString => EmptyString
  end.

(** [s[:n]] *)
Fixpoint take (n : nat) (s : string) : string :=
  match n, s with
  | O, _ => EmptyString
  | S n', String c s' => String c (take n' s')
  | S _, EmptyString => EmptyString
  end.

(** [s.split('||')] *)
Fixpoint split_bars (s : string) : list string :=
  match s with
  | EmptyString => [EmptyString]
  | String "|" (String "|" rest) => EmptyString :: split_bars rest
  | String c rest =>
      match split_bars rest with
      | [] => [String c EmptyString]
      | h :: t => String c h :: t
      end
  end.

Definition lower_char (c : ascii) : ascii :=
  if between "A" "Z" c then ascii_of_N (code c + 32) else c.

(** [s.lower()], on the letters A to Z *)
Fixpoint lower (s : string) : string :=
  match s with
  | EmptyString => EmptyString
  | String c s' => String (lower_char c) (lower s')
  end.

(** [sep.join(l)] *)
Fixpoint join (sep : string) (l : list string) : string :=
  match l with
  | [] => EmptyString
  | [x] => x
  | x :: rest => x ++ sep ++ join sep rest
  end.

Definition of_nat (n : nat) : string :=
  DecimalString.NilZero.string_of_uint (Nat.to_uint n).

Definition of_Z (z : Z) : string :=
  DecimalString.NilZero.string_of_int (Z.to_int z).

(** [hex(n)] without its prefix *)
Definition hex_of_N (n : N) : string :=
  HexadecimalString.NilZero.string_of_uint (N.to_hex_uint n).

(** [html.escape(s, quote=True)]: the five replacements of the library,
    the ampersand first, amount to a map over the characters. *)
Definition escape_char (c : ascii) : string :=
  if Ascii.eqb c "&" then "&amp;"
  else if Ascii.eqb c "<" then "&lt;"
  else if Ascii.eqb c ">" then "&gt;"
  else if Ascii.eqb c "034" then "&quot;"
  else if Ascii.eqb c "'" then "&#x27;"
  else String c EmptyString.

Fixpoint html_escape (s : string) : string :=
  match s with
  | EmptyString => EmptyString
  | String c s' => escape_char c ++ html_escape s'
  end.

(** [RX_SPACE.sub('&#32;', s)] *)
Fixpoint sub_space (s : string) : string :=
  match s with
  | EmptyString => EmptyString
  | String c s' =>
      (if Ascii.eqb c " " then "&#32;" else String c EmptyString)
      ++ sub_space s'
  end.

(** [sorted(l)] on strings, by code point *)
Fixpoint leb (a b : string) : bool :=
  match a, b with
  | EmptyString, _ => true
  | String _ _, EmptyString => false
  | String x a', String y b' =>
      if (code x <? code y)%N then true
      else if (code y <? code x)%N then false
      else leb a' b'
  end.

Fixpoint insert_sorted (x : string) (l : list string) : list string :=
  match l with
  | [] => [x]
  | y :: l' => if leb x y then x :: l else y :: insert_sorted x l'
  end.

Definition sorted (l : list string) : list string :=
  fold_right insert_sorted [] l.

End Str.

(** ** Regular expressions

    The patterns of the program use literals, character classes,
    sequence, alternation, greedy and lazy bounded repetition, groups
    and the two anchors.  [rx] is a backtracking matcher in
    continuation-passing style: alternatives are tried left to right, a
    greedy repetition tries one more iteration before stopping and a
    lazy one the reverse, which is the order Python's [re] explores.
    Every repeated sub-pattern of the program consumes at least one
    character when it matches; an iteration that consumes nothing is
    not taken. *)

Module Re.
Local Open Scope nat_scope.

Inductive regex : Type :=
| Bol (multiline : bool)
| Eol (multiline : bool)
| Lit (s : string)
| Cls (p : ascii -> bool)
| Seq (r1 r2 : regex)
| Alt (r1 r2 : regex)
| Rep (greedy : bool) (lo : nat) (hi : option nat) (r : regex)
| Grp (name : string) (r : regex).

Definition caps : Type := list (string * string).

Definition cont : Type := option ascii -> string -> caps -> option caps.

Definition at_bol (multiline : bool) (prev : option ascii) : bool :=
  match prev with
  | None => true
  | Some c => multiline && Ascii.eqb c Str.newline
  end.

(** [$] matches at the end, and before a line feed that ends the string;
    with [re.M] before every line feed. *)
Definition at_eol (multiline : bool) (s : string) : bool :=
  match s with
  | EmptyString => true
  | String c EmptyString => Ascii.eqb c Str.newline
  | String c _ => multiline && Ascii.eqb c Str.newline
  end.

Fixpoint skip_lit (l : string) (prev : option ascii) (s : string)
  : option (option ascii * string) :=
  match l with
  | EmptyString => Some (prev, s)
  | String a l' =>
      match s with
      | String b s' => if Ascii.eqb a b then skip_lit l' (Some b) s' else None
      | EmptyString => None
      end
  end.

Definition below (hi : option nat) (i : nat) : bool :=
  match hi with
  | None => true
  | Some h => i <? h
  end.

Definition matcher : Type := option ascii -> string -> caps -> cont -> option caps.

Fixpoint rep_loop (body : matcher) (greedy : bool) (lo : nat) (hi : option nat)
    (k : cont) (fuel i : nat) (prev : option ascii) (s : string) (c : caps)
    {struct fuel} : option caps :=
  match fuel with
  | O => if lo <=? i then k prev s c else None
  | S fuel' =>
      let more (_ : unit) :=
        if below hi i then
          body prev s c
            (fun prev' s' c' =>
               if String.length s' <? String.length s
               then rep_loop body greedy lo hi k fuel' (S i) prev' s' c'
               else None)
        else None in
      let stop (_ : unit) := if lo <=? i then k prev s c else None in
      if greedy then
        match more tt with
        | Some r => Some r
        | None => stop tt
        end
      else
        match stop tt with
        | Some r => Some r
        | None => more tt
        end
  end.

Fixpoint rx (r : regex) (prev : option ascii) (s : string) (c : caps)
    (k : cont) {struct r} : option caps :=
  match r with
  | Bol m => if at_bol m prev then k prev s c else None
  | Eol m => if at_eol m s then k prev s c else None
  | Lit l =>
      match skip_lit l prev s with
      | Some (prev', s') => k prev' s' c
      | None => None
      end
  | Cls p =>
      match s with
      | String a s' => if p a then k (Some a) s' c else None
      | EmptyString => None
      end
  | Seq r1 r2 => rx r1 prev s c (fun prev' s' c' => rx r2 prev' s' c' k)
  | Alt r1 r2 =>
      match rx r1 prev s c k with
      | Some x => Some x
      | None => rx r2 prev s c k
      end
  | Rep g lo hi r1 =>
      rep_loop (rx r1) g lo hi k (S (String.length s)) 0 prev s c
  | Grp n r1 =>
      rx r1 prev s c
        (fun prev' s' c' =>
           k prev' s'
             ((n, Str.take (String.length s - String.length s') s) :: c'))
  end.

Fixpoint group_names (r : regex) : list string :=
  match r with
  | Bol _ | Eol _ | Lit _ | Cls _ => []
  | Seq r1 r2 | Alt r1 r2 => group_names r1 ++ group_names r2
  | Rep _ _ _ r1 => group_names r1
  | Grp n r1 => n :: group_names r1
  end.

(** A match object: the groups of the pattern, and the text of those
    that took part in the match. *)
Record rematch : Type := MkMatch {
  m_names : list string;
  m_caps : caps
}.

Definition accept : cont := fun _ _ c => Some c.

Definition mk (r : regex) (o : option caps) : option rematch :=
  match o with
  | Some c => Some (MkMatch (group_names r) c)
  | None => None
  end.

(** [rx.match(s)]: at the start of [s] only *)
Definition re_match (r : regex) (s : string) : option rematch :=
  mk r (rx r None s [] accept).

Fixpoint search_from (r : regex) (prev : option ascii) (s : string)
  : option caps :=
  match rx r prev s [] accept with
  | Some c => Some c
  | None =>
      match s with
      | EmptyString => None
      | String a s' => search_from r (Some a) s'
      end
  end.

(** [rx.search(s)]: at the first position where the pattern matches *)
Definition re_search (r : regex) (s : string) : option rematch :=
  mk r (search_from r None s).

Fixpoint lookup (n : string) (c : caps) : option string :=
  match c with
  | [] => None
  | (n', v) :: c' => if String.eqb n n' then Some v else lookup n c'
  end.

(** [md.group(name)]: [None] for a group that did not take part, an
    [IndexError] for a name the pattern does not have. *)
Definition group (m : rematch) (n : string) : result (option string) :=
  if existsb (String.eqb n) (m_names m)
  then Ok (lookup n (m_caps m))
  else Raise IndexError.

(** [md.group(name)] where the program uses the value as a string *)
Definition group_str (m : rematch) (n : string) : result string :=
  o <- group m n ;;
  match o with
  | Some v => Ok v
  | None => Raise TypeError
  end.

(** Building blocks *)
Fixpoint cat (rs : list regex) : regex :=
  match rs with
  | [] => Lit EmptyString
  | [r] => r
  | r :: rs' => Seq r (cat rs')
  end.

Definition star (r : regex) : regex := Rep true 0 None r.
Definition star_lazy (r : regex) : regex := Rep false 0 None r.
Definition plus (r : regex) : regex := Rep true 1 None r.
Definition opt (r : regex) : regex := Rep true 0 (Some 1) r.

Definition chr (a : ascii) : regex := Cls (Ascii.eqb a).
Definition one_of (l : string) : regex :=
  Cls (fun a => existsb (Ascii.eqb a) (list_ascii_of_string l)).
Definition none_of (p : ascii -> bool) : regex := Cls (fun a => negb (p a)).

Definition dot : regex := none_of (Ascii.eqb Str.newline).
Definition ws : regex := Cls Str.is_space.
Definition non_ws : regex := none_of Str.is_space.

Definition is_lower (a : ascii) : bool := Str.between "a" "z" a.
Definition is_upper (a : ascii) : bool := Str.between "A" "Z" a.
Definition is_digit (a : ascii) : bool := Str.between "0" "9" a.
Definition is_alpha (a : ascii) : bool := is_lower a || is_upper a.
Definition is_alnum (a : ascii) : bool := is_alpha a || is_digit a.
Definition among (l : string) (a : ascii) : bool :=
  existsb (Ascii.eqb a) (list_ascii_of_string l).

End Re.

(** ** The patterns of the program

    Each definition transcribes the Python pattern quoted above it.  The
    quotation is in the layout of re.VERBOSE: a blank outside a character
    class is not part of the pattern, a literal blank is escaped, and
    \x22 stands for the double quote.  A group without a name is named
    by its number. *)

Module Rx.
Import Re.

Definition dq : string := String "034" EmptyString.
Definition bol : regex := Bol false.
Definition eol : regex := Eol false.
Definition br : regex := opt (Grp "br" (Lit " _")).

(** Pattern: ^(?P<scheme>[a-z]+):(?P<rest>.* )$ *)
Definition RX_FULL_URL : regex :=
  cat [bol; Grp "scheme" (plus (Cls is_lower)); Lit ":";
       Grp "rest" (star dot); eol].

(** Pattern: ^(?P<greater_than_signs>>+)\s*(?P<content>.*?)(?P<br>\ _)?$ *)
Definition RX_BLOCKQUOTE : regex :=
  cat [bol; Grp "greater_than_signs" (plus (chr ">")); star ws;
       Grp "content" (star_lazy dot); br; eol].

(** Pattern: ^(?P<indent>\s* )(?P<raw_tag>\[\[code(\s+type=\x22(?P<type>.*?)\x22\s* )?\]\])(?P<content>.* )$ *)
Definition RX_CODE_START : regex :=
  cat [bol; Grp "indent" (star ws);
       Grp "raw_tag"
         (cat [Lit "[[code";
               opt (Grp "3" (cat [plus ws; Lit ("type=" ++ dq);
                                  Grp "type" (star_lazy dot); Lit dq;
                                  star ws]));
               Lit "]]"]);
       Grp "content" (star dot); eol].

(** Pattern: ^\[\[/code\]\]$ *)
Definition RX_CODE_END : regex := cat [bol; Lit "[[/code]]"; eol].

(** Pattern: ^(?P<content>.*?)$ *)
Definition RX_CODE_CONTENT : regex :=
  cat [bol; Grp "content" (star_lazy dot); eol].

(** Pattern: ^(?P<indent>\s* )(?P<raw_tag>\[\[math\]\])(?P<content>.* )$ *)
Definition RX_MATH_START : regex :=
  cat [bol; Grp "indent" (star ws); Grp "raw_tag" (Lit "[[math]]");
       Grp "content" (star dot); eol].

(** Pattern: ^\[\[/math\]\]$ *)
Definition RX_MATH_END : regex := cat [bol; Lit "[[/math]]"; eol].

(** Pattern: ^(?P<content>.*?)$ *)
Definition RX_MATH_CONTENT : regex :=
  cat [bol; Grp "content" (star_lazy dot); eol].

(** Pattern: ^(?P<indent>\s* )(?P<raw_tag>\[\[div(?P<attributes>.* )\]\])$ *)
Definition RX_DIV_START : regex :=
  cat [bol; Grp "indent" (star ws);
       Grp "raw_tag"
         (cat [Lit "[[div"; Grp "attributes" (star dot); Lit "]]"]);
       eol].

(** Pattern: ^\s*(?P<name>[a-z0-9-]+)=\x22(?P<value>.*?)\x22(?P<rest>.* )$ *)
Definition RX_DIV_ATTR : regex :=
  cat [bol; star ws;
       Grp "name"
         (plus (Cls (fun a => is_lower a || is_digit a || among "-" a)));
       Lit ("=" ++ dq); Grp "value" (star_lazy dot); Lit dq;
       Grp "rest" (star dot); eol].

(** Pattern: ^\[\[/div\]\]$ *)
Definition RX_DIV_END : regex := cat [bol; Lit "[[/div]]"; eol].

(** Pattern: ^(?P<indent>\s* )(?P<raw_tag>\* )\s+(?P<content>\S.*?)(?P<br>\ _)?$ *)
Definition RX_UL : regex :=
  cat [bol; Grp "indent" (star ws); Grp "raw_tag" (Lit "*"); plus ws;
       Grp "content" (Seq non_ws (star_lazy dot)); br; eol].

(** Pattern: ^(?P<indent>\s* )(?P<raw_tag>\#)\s+(?P<content>\S.*?)(?P<br>\ _)?$ *)
Definition RX_OL : regex :=
  cat [bol; Grp "indent" (star ws); Grp "raw_tag" (Lit "#"); plus ws;
       Grp "content" (Seq non_ws (star_lazy dot)); br; eol].

(** Pattern: ^(?P<indent>\s* )(?P<content>\|\|.*?)(?P<br>\ _)?$ *)
Definition RX_TABLE : regex :=
  cat [bol; Grp "indent" (star ws);
       Grp "content" (Seq (Lit "||") (star_lazy dot)); br; eol].

(** Pattern: ^(?P<indent>\s* )(?P<plus_signs>\+{1,6})\s+(?P<content>\S.*?)(?P<br>\ _)?$ *)
Definition RX_HN : regex :=
  cat [bol; Grp "indent" (star ws);
       Grp "plus_signs" (Rep true 1 (Some 6) (chr "+")); plus ws;
       Grp "content" (Seq non_ws (star_lazy dot)); br; eol].

(** Pattern: ^(?P<indent>\s* )----(?P<content>)(?P<br>\ _)?$ *)
Definition RX_HR : regex :=
  cat [bol; Grp "indent" (star ws); Lit "----";
       Grp "content" (Lit EmptyString); br; eol].

(** Pattern: ^\s*(?P<content>)(?P<br>\ _)?$ *)
Definition RX_EMPTY : regex :=
  cat [bol; star ws; Grp "content" (Lit EmptyString); br; eol].

(** Pattern: ^\s*(?P<content>.*?)(?P<br>\ _)?$ *)
Definition RX_P : regex :=
  cat [bol; star ws; Grp "content" (star_lazy dot); br; eol].

(** Pattern: (\s+) *)
Definition RX_WHITESPACE : regex := Grp "1" (plus ws).

(** Pattern: ^\[\[span\ ([^\]]+)\]\]$ *)
Definition RX_SPAN : regex :=
  cat [bol; Lit "[[span "; Grp "1" (plus (none_of (among "]")));
       Lit "]]"; eol].

(** Pattern: ^\[\[size\ ([^\]]+)\]\]$ *)
Definition RX_SIZE : regex :=
  cat [bol; Lit "[[size "; Grp "1" (plus (none_of (among "]")));
       Lit "]]"; eol].

(** Pattern: ^[a-fA-F0-9]{6}$ *)
Definition RX_RGB : regex :=
  cat [bol;
       Rep true 6 (Some 6)
         (Cls (fun a => Str.between "a" "f" a || Str.between "A" "F" a
                        || is_digit a));
       eol].

(** Pattern: ^\[\[\[(?P<href>[^|]* )(\|(?P<name>.+))?\]\]\]$ *)
Definition RX_PARSE_TRIPLE_BRACKET : regex :=
  cat [bol; Lit "[[["; Grp "href" (star (none_of (among "|")));
       opt (Grp "2" (Seq (Lit "|") (Grp "name" (plus dot))));
       Lit "]]]"; eol].

(** Pattern: ^\[\[#\s+(?P<anchor>.+)\]\]$ *)
Definition RX_PARSE_DOUBLE_BRACKET : regex :=
  cat [bol; Lit "[[#"; plus ws; Grp "anchor" (plus dot); Lit "]]"; eol].

(** Pattern: ^\[(?P<href>\S+)\s+(?P<name>.+)\]$ *)
Definition RX_PARSE_SINGLE_BRACKET : regex :=
  cat [bol; Lit "["; Grp "href" (plus non_ws); plus ws;
       Grp "name" (plus dot); Lit "]"; eol].

(** Pattern: (?P<token>^\[\[\[[^\]|]+(\|[^\]|]+)?\]\]\])(?P<text>.* )$ *)
Definition RX_TRIPLE_BRACKET : regex :=
  cat [Grp "token"
         (cat [bol; Lit "[[["; plus (none_of (among "]|"));
               opt (Grp "2" (Seq (Lit "|") (plus (none_of (among "]|")))));
               Lit "]]]"]);
       Grp "text" (star dot); eol].

(** Pattern: ^(?P<token>\[\[[^\]]+\]\])(?P<text>.* )$ *)
Definition RX_DOUBLE_BRACKET : regex :=
  cat [bol;
       Grp "token" (cat [Lit "[["; plus (none_of (among "]")); Lit "]]"]);
       Grp "text" (star dot); eol].

(** Pattern: ^(?P<token>\[(?P<head>[^\]\s]+)[^\]]*\])(?P<text>.* )$ *)
Definition RX_SINGLE_BRACKET : regex :=
  cat [bol;
       Grp "token"
         (cat [Lit "[";
               Grp "head"
                 (plus (none_of (fun a => among "]" a || Str.is_space a)));
               star (none_of (among "]")); Lit "]"]);
       Grp "text" (star dot); eol].

(** Pattern: @|<|> *)
Definition RX_ESCAPE_CHAR : regex := Alt (Lit "@") (Alt (Lit "<") (Lit ">")).

(** Pattern: ^(//|\*\*|\{\{|\}\}|--|__|,,|\^\^|\|\|) *)
Definition RX_DOUBLED_CHAR : regex :=
  Seq bol
    (Grp "1"
       (Alt (Lit "//") (Alt (Lit "**") (Alt (Lit "{{") (Alt (Lit "}}")
       (Alt (Lit "--") (Alt (Lit "__") (Alt (Lit ",,") (Alt (Lit "^^")
            (Lit "||")))))))))).

(** Pattern: ^(?P<token>##[a-zA-Z][a-zA-Z0-9 ]*\|)(?P<text>.* )$ *)
Definition RX_COLOR_HEAD : regex :=
  cat [bol;
       Grp "token"
         (cat [Lit "##"; Cls is_alpha;
               star (Cls (fun a => is_alnum a || among " " a)); Lit "|"]);
       Grp "text" (star dot); eol].

(** Pattern: ^(?P<token>\s+)(?P<text>.* )$ *)
Definition RX_LEAD_WHITESPACE : regex :=
  cat [bol; Grp "token" (plus ws); Grp "text" (star dot); eol].

(** Pattern: ^#[a-zA-Z0-9][a-zA-Z0-9-_]*$ *)
Definition RX_URL_FRAGMENT : regex :=
  cat [bol; Lit "#"; Cls is_alnum;
       star (Cls (fun a => is_alnum a || among "-_" a)); eol].

(** Pattern: ^(?P<token>https?://[a-zA-Z0-9-._~:/#&?=+,;]*[a-zA-Z0-9-_~/#&?=+])(?P<text>.* )$ *)
Definition RX_URL : regex :=
  cat [bol;
       Grp "token"
         (cat [Lit "http"; opt (Lit "s"); Lit "://";
               star (Cls (fun a => is_alnum a || among "-._~:/#&?=+,;" a));
               Cls (fun a => is_alnum a || among "-_~/#&?=+" a)]);
       Grp "text" (star dot); eol].

(** Pattern: ^\[\[(?P<alignment>=?)image\s+(?P<src>\S+)\s*(?P<attrs>.* )\]\]$ *)
Definition RX_IMAGE : regex :=
  cat [bol; Lit "[["; Grp "alignment" (opt (Lit "=")); Lit "image"; plus ws;
       Grp "src" (plus non_ws); star ws; Grp "attrs" (star dot);
       Lit "]]"; eol].

(** Pattern: ^\s*(?P<attr>[^ =]+)\s*=\s*\x22(?P<value>[^\x22]* )\x22\s*(?P<rest>.* )$ *)
Definition RX_IMAGE_ATTR : regex :=
  cat [bol; star ws; Grp "attr" (plus (none_of (among " ="))); star ws;
       Lit "="; star ws; Lit dq;
       Grp "value" (star (none_of (fun a => Ascii.eqb a "034")));
       Lit dq; star ws; Grp "rest" (star dot); eol].

(** Pattern: ^\|\|(?P<row>.* )\|\|$ *)
Definition RX_FULL_ROW : regex :=
  cat [bol; Lit "||"; Grp "row" (star dot); Lit "||"; eol].

(** Pattern: ^\|\|(?P<row>.* )$ *)
Definition RX_START_ROW : regex :=
  cat [bol; Lit "||"; Grp "row" (star dot); eol].

(** Pattern: ^(?P<row>.* )\|\|$ *)
Definition RX_END_ROW : regex :=
  cat [bol; Grp "row" (star dot); Lit "||"; eol].

(** Pattern: ^(?P<tag>~|<|=|>)\s+(?P<content>.* )$ *)
Definition RX_TAGGED_CELL : regex :=
  cat [bol;
       Grp "tag" (Alt (Lit "~") (Alt (Lit "<") (Alt (Lit "=") (Lit ">"))));
       plus ws; Grp "content" (star dot); eol].

(** Pattern: ^(<br\ />|\s)*$ with the flag re.M *)
Definition RX_EMPTY_PARAGRAPH : regex :=
  cat [Bol true; star (Grp "1" (Alt (Lit "<br />") ws)); Eol true].

(** Pattern: ^\s*$ *)
Definition RX_BLANK_LINE : regex := cat [bol; star ws; eol].

End Rx.

(** ** The inline lexer: [str_lex], [count_literal_escapes], [token_lex] *)

Module Lexer.
Import Re Rx.

Definition is_some {A} (o : option A) : bool :=
  match o with Some _ => true | None => false end.

(** [md.group(name)] for a group that takes part in every match of its
    pattern *)
Definition get (m : rematch) (n : string) : string :=
  match lookup n (m_caps m) with
  | Some v => v
  | None => EmptyString
  end.

(** The variables of the loop of [str_lex]. *)
Record lex : Type := MkLex {
  tokens : list string;
  prefix_and_text : string;
  prefix : string;
  text_i : nat;
  text : string
}.

(** [if prefix: tokens.append(prefix)] *)
Definition flush (st : lex) : list string :=
  if Str.is_empty (prefix st) then tokens st else tokens st ++ [prefix st].

(** A rule that appends [tok] and goes on with [rest], the pending
    prefix being appended first and emptied. *)
Definition emit_flushed (tok rest : string) (st : lex) : lex :=
  MkLex (flush st ++ [tok]) rest EmptyString 0 rest.

(** A rule that appends [tok] and goes on with [rest] and leaves the
    pending prefix as it is. *)
Definition emit (tok rest : string) (st : lex) : lex :=
  MkLex (tokens st ++ [tok]) rest (prefix st) 0 rest.

(** The rules under [if text.startswith('[')]; [None] when none of them
    ends the iteration. *)
Definition bracket_rules (st : lex) : option lex :=
  let t := text st in
  if Str.startswith "[!--" t then Some (emit "[!--" (Str.drop 4 t) st)
  else
    match re_search RX_TRIPLE_BRACKET t with
    | Some md => Some (emit_flushed (get md "token") (get md "text") st)
    | None =>
    match re_search RX_DOUBLE_BRACKET t with
    | Some md => Some (emit_flushed (get md "token") (get md "text") st)
    | None =>
    match re_search RX_SINGLE_BRACKET t with
    | Some md =>
        let head := get md "head" in
        if is_some (re_search RX_URL head)
           || is_some (re_search RX_URL_FRAGMENT head)
        then Some (emit_flushed (get md "token") (get md "text") st)
        else None
    | None => None
    end end end.

(** One iteration of the [while text:] loop. *)
Definition lex_step (st : lex) : lex :=
  let t := text st in
  match (if Str.startswith "[" t then bracket_rules st else None) with
  | Some st' => st'
  | None =>
  if Str.startswith "##" t then
    match re_search RX_COLOR_HEAD t with
    | Some md =>
        MkLex (flush st ++ [get md "token"]) (get md "text") EmptyString 0
              (get md "text")
    | None =>
        MkLex (flush st ++ [Str.take 2 t]) (Str.drop 2 t) EmptyString 0
              (Str.drop 2 t)
    end
  else
  match re_search RX_LEAD_WHITESPACE t with
  | Some md => emit_flushed (get md "token") (get md "text") st
  | None =>
  if Str.startswith "--]" t then emit "--]" (Str.drop 3 t) st
  else if is_some (re_search RX_ESCAPE_CHAR t)
  then emit (Str.take 1 t) (Str.drop 1 t) st
  else if is_some (re_search RX_DOUBLED_CHAR t)
  then emit_flushed (Str.take 2 t) (Str.drop 2 t) st
  else
  match (if Str.startswith "http" t then re_search RX_URL t else None) with
  | Some md => emit (get md "token") (get md "text") st
  | None =>
      let i := S (text_i st) in
      MkLex (tokens st) (prefix_and_text st)
            (Str.take i (prefix_and_text st)) i
            (Str.drop i (prefix_and_text st))
  end end end.

Fixpoint lex_loop (fuel : nat) (st : lex) : lex :=
  match fuel with
  | O => st
  | S fuel' =>
      if Str.is_empty (text st) then st else lex_loop fuel' (lex_step st)
  end.

(** Every iteration shortens [text], so the length of the input bounds
    the number of iterations. *)
Definition str_lex (text : string) : list string :=
  flush (lex_loop (String.length text)
                  (MkLex [] text EmptyString 0 text)).

(** Tokens: strings and the four sentinel objects. *)
Inductive token : Type :=
| TStr (s : string)
| LITERAL_START_TOKEN
| LITERAL_END_TOKEN
| HTML_ENTITY_LITERAL_START_TOKEN
| HTML_ENTITY_LITERAL_END_TOKEN.

Definition count_literal_escapes (str_tokens : list string) : Z :=
  snd (fold_left
         (fun (acc : string * Z) (s : string) =>
            let (prev_s, literal_cnt) := acc in
            if String.eqb (prev_s ++ s) "@@"
            then (EmptyString, (literal_cnt + 1)%Z)
            else (s, literal_cnt))
         str_tokens (EmptyString, 0%Z)).

(** [l[i] = x] for an index within the list *)
Fixpoint set_nth {A} (i : nat) (x : A) (l : list A) : list A :=
  match l, i with
  | [], _ => []
  | _ :: l', O => x :: l'
  | y :: l', S i' => y :: set_nth i' x l'
  end.

(** The variables of the loop of [token_lex]. *)
Record grp : Type := MkGrp {
  last_idx : Z;
  last_html_entity_idx : Z;
  prev_s : string;
  out : list token;
  remaining_literal_cnt : Z
}.

Definition len {A} (l : list A) : Z := Z.of_nat (List.length l).

Definition group_step (g : grp) (s : string) : grp :=
  let ps := prev_s g ++ s in
  if String.eqb ps "@@" && (-1 <? last_idx g)%Z then
    MkGrp (-1) (last_html_entity_idx g) EmptyString
          (set_nth (Z.to_nat (last_idx g)) LITERAL_START_TOKEN
                   (out g ++ [LITERAL_END_TOKEN]))
          (remaining_literal_cnt g - 1)
  else if String.eqb ps "@@" && (1 <? remaining_literal_cnt g)%Z then
    MkGrp (len (out g ++ [TStr "@@"]) - 1) (last_html_entity_idx g)
          EmptyString (out g ++ [TStr "@@"]) (remaining_literal_cnt g - 1)
  else if String.eqb ps "@<" then
    MkGrp (last_idx g)
          (if (last_html_entity_idx g =? -1)%Z
           then len (out g ++ [TStr "@<"]) - 1
           else last_html_entity_idx g)
          EmptyString (out g ++ [TStr "@<"]) (remaining_literal_cnt g)
  else if String.eqb ps ">@" then
    if (-1 <? last_html_entity_idx g)%Z then
      MkGrp (last_idx g) (-1) EmptyString
            (set_nth (Z.to_nat (last_html_entity_idx g))
                     HTML_ENTITY_LITERAL_START_TOKEN (out g)
             ++ [HTML_ENTITY_LITERAL_END_TOKEN])
            (remaining_literal_cnt g)
    else
      MkGrp (last_idx g) (last_html_entity_idx g) "@"
            (out g ++ [TStr ">"]) (remaining_literal_cnt g)
  else if String.eqb s "@" || String.eqb s ">" then
    MkGrp (last_idx g) (last_html_entity_idx g) s
          (if Str.is_empty (prev_s g) then out g
           else out g ++ [TStr (prev_s g)])
          (remaining_literal_cnt g)
  else
    MkGrp (last_idx g) (last_html_entity_idx g) EmptyString
          ((if Str.is_empty (prev_s g) then out g
            else out g ++ [TStr (prev_s g)]) ++ [TStr s])
          (remaining_literal_cnt g).

Definition token_lex (text : string) : list token :=
  let str_tokens := str_lex text in
  out (fold_left group_step str_tokens
         (MkGrp (-1) (-1) EmptyString []
                (count_literal_escapes str_tokens))).

End Lexer.

(** ** Nodes, their rendering, and the inline parser

    [Node] objects are shared and mutated: a node is appended to its
    parent when it is opened and receives its children afterwards, and
    [restore_nodes] makes the closure of an old node point to a new one.
    Nodes therefore live in a store and are named by their index. *)

Module Inline.
Import Re Rx Lexer.

Definition dq : string := Rx.dq.

(** The parsed command line. *)
Record args : Type := MkArgs {
  image_prefix : string;
  link_prefix : string;
  link_suffix : string
}.

(** What a run takes from the interpreter: the address of an object,
    which [object.__repr__] prints, and the number of calls that the
    interpreter lets nest below the point where a block takes the string
    of a node, taken to be the same for every block.  A call beyond that
    number raises [RecursionError]; the program never changes the limit
    of the interpreter and never catches the exception. *)
Record runtime : Type := MkRuntime {
  address : token -> N;
  frames : nat
}.

Inductive cls : Type :=
| Node | Italic | Bold | FixedWidth | StrikeThru | Underline | Subscript
| Superscript | Span | Color | Size | Literal | HTMLEntityLiteral.

Definition cls_eqb (a b : cls) : bool :=
  match a, b with
  | Node, Node | Italic, Italic | Bold, Bold | FixedWidth, FixedWidth
  | StrikeThru, StrikeThru | Underline, Underline | Subscript, Subscript
  | Superscript, Superscript | Span, Span | Color, Color | Size, Size
  | Literal, Literal | HTMLEntityLiteral, HTMLEntityLiteral => true
  | _, _ => false
  end.

(** [isinstance(nd, c)] for a node of class [k]: every class derives
    from [Node], and from nothing else. *)
Definition isinstance (k c : cls) : bool :=
  cls_eqb c Node || cls_eqb k c.

(** The value of [Node.closure]: one of the two [ClosureNode] objects, or
    another node. *)
Inductive closure : Type :=
| OPEN_NODE
| CLOSED_NODE
| ClosureOf (nd : nat).

(** What a list of children holds. *)
Inductive child : Type :=
| Text (s : string)
| Obj (t : token)
| Sub (nd : nat)
| Link (open_tag content : string)
| Anchor (open_tag : string)
| Image (src : string) (attrs : list (string * string)) (alignment : string)
| LINE_BREAK.

Record node : Type := MkNode {
  n_cls : cls;
  raw_tag : string;
  open_tag : string;
  close_tag : string;
  children : list child;
  n_closure : closure
}.

Definition store : Type := list node.

(** [Node.__init__] *)
Definition new_node (k : cls) (raw open close : string) : node :=
  MkNode k raw open close [] OPEN_NODE.

Definition line_through : string :=
  "span style=" ++ dq ++ "text-decoration: line-through;" ++ dq.
Definition underlined : string :=
  "span style=" ++ dq ++ "text-decoration: underline;" ++ dq.
Definition pre_wrap : string :=
  "span style=" ++ dq ++ "white-space: pre-wrap;" ++ dq.

(** [k(wikidot)]: a constructor called with one argument.  The classes
    whose constructor wants a raw tag and a tag raise [TypeError]. *)
Definition construct (k : cls) : result node :=
  match k with
  | Node => Ok (new_node Node EmptyString EmptyString EmptyString)
  | Italic => Ok (new_node Italic "//" "em" "em")
  | Bold => Ok (new_node Bold "**" "strong" "strong")
  | FixedWidth => Ok (new_node FixedWidth "{{" "tt" "tt")
  | StrikeThru => Ok (new_node StrikeThru "--" line_through "span")
  | Underline => Ok (new_node Underline "__" underlined "span")
  | Subscript => Ok (new_node Subscript ",," "sub" "sub")
  | Superscript => Ok (new_node Superscript "^^" "sup" "sup")
  | Span | Color | Size | Literal | HTMLEntityLiteral => Raise TypeError
  end.

(** [Link.__init__]: the tag of a link to [href] *)
Definition link_tag (a : args) (href : string) : string :=
  let full_href :=
    if negb (is_some (re_search RX_FULL_URL href))
       && negb (Str.startswith "#" href)
    then Str.rstrip_char "/" (link_prefix a) ++ "/"
         ++ Str.lstrip_char "/" href ++ link_suffix a
    else href in
  "a href=" ++ dq ++ full_href ++ dq.

Definition mk_link (a : args) (href content : string) : child :=
  Link (link_tag a href) content.

Definition mk_anchor (name : string) : child :=
  Anchor ("a name=" ++ dq ++ name ++ dq).

Definition class_name (t : token) : string :=
  match t with
  | TStr _ => "str"
  | LITERAL_START_TOKEN => "LiteralStartToken"
  | LITERAL_END_TOKEN => "LiteralEndToken"
  | HTML_ENTITY_LITERAL_START_TOKEN => "HTMLEntityLiteralStartToken"
  | HTML_ENTITY_LITERAL_END_TOKEN => "HTMLEntityLiteralEndToken"
  end.

(** [str(t)]: the string itself, and for a sentinel the text of
    [object.__repr__]. *)
Definition token_str (rt : runtime) (t : token) : string :=
  match t with
  | TStr s => s
  | _ => "<__main__." ++ class_name t ++ " object at 0x"
         ++ Str.hex_of_N (address rt t) ++ ">"
  end.

Fixpoint assoc (k : string) (d : list (string * string)) : option string :=
  match d with
  | [] => None
  | (k', v) :: d' => if String.eqb k k' then Some v else assoc k d'
  end.

Definition ATTRS : list string :=
  ["title"; "width"; "height"; "style"; "class"; "size"].

(** [Image.__str__] *)
Definition image_str (a : args) (src : string)
    (attrs : list (string * string)) (alignment : string) : string :=
  let s := "<img src=" ++ dq ++ image_prefix a ++ src ++ dq in
  let s :=
    fold_left
      (fun s attr =>
         match assoc attr attrs with
         | Some value =>
             if Str.is_empty value then s
             else s ++ " " ++ attr ++ "=" ++ dq ++ value ++ dq
         | None => s
         end)
      ATTRS s in
  let value := match assoc "alt" attrs with Some v => v | None => src end in
  let s := s ++ " alt=" ++ dq ++ value ++ dq in
  let value :=
    match assoc "class" attrs with Some v => v | None => "image" end in
  let s := s ++ " class=" ++ dq ++ value ++ dq in
  let s := s ++ " />" in
  let s :=
    match assoc "link" attrs with
    | Some link =>
        if Str.is_empty link then s
        else "<a href=" ++ dq ++ link ++ dq ++ ">" ++ s ++ "</a>"
    | None => s
    end in
  if String.eqb alignment "="
  then "<div class=" ++ dq ++ "image-container aligncenter" ++ dq ++ ">"
       ++ s ++ "</div>"
  else s.

(** [self.children[0] == ' '] *)
Definition is_blank (c : child) : bool :=
  match c with
  | Text s => String.eqb s " "
  | _ => false
  end.

(** [c.closed()] with [fuel] frames left.  The call takes a frame;
    [ClosureNode.closed] returns its flag, and [Node.closed] calls the
    [closed] of the closure of the node. *)
Fixpoint closed (fuel : nat) (h : store) (c : closure) : result bool :=
  match fuel with
  | O => Raise RecursionError
  | S fuel' =>
      match c with
      | OPEN_NODE => Ok false
      | CLOSED_NODE => Ok true
      | ClosureOf nd =>
          match nth_error h nd with
          | Some n => closed fuel' h (n_closure n)
          | None => Ok false
          end
      end
  end.

(** A call of a method that returns [s] and calls nothing on its way:
    it takes a frame. *)
Definition call (fuel : nat) (s : string) : result string :=
  match fuel with
  | O => Raise RecursionError
  | S _ => Ok s
  end.

(** [str(child)] with [fuel] frames left, given the rendering of the
    nodes.  A string and a sentinel are printed by the interpreter
    itself; the [__str__] of the other objects takes a frame. *)
Definition child_str (rt : runtime) (a : args) (fuel : nat)
    (str_of : nat -> result string) (c : child) : result string :=
  match c with
  | Text s => Ok s
  | Obj t => Ok (token_str rt t)
  | Sub nd => str_of nd
  | Link open content => call fuel ("<" ++ open ++ ">" ++ content ++ "</a>")
  | Anchor open => call fuel ("<" ++ open ++ "></a>")
  | Image src attrs alignment => call fuel (image_str a src attrs alignment)
  | LINE_BREAK => call fuel ("<br />" ++ String Str.newline EmptyString)
  end.

(** [[str(child) for child in l]] *)
Fixpoint strs (str : child -> result string) (l : list child)
  : result (list string) :=
  match l with
  | [] => Ok []
  | c :: l' => s <- str c ;; ss <- strs str l' ;; Ok (s :: ss)
  end.

(** [''.join([str(child) for child in l])].  The comprehension is taken
    to run in the frame of [__str__], as it does since Python 3.12;
    where it has a frame of its own, a node with several children takes
    one frame more. *)
Definition join_children (str : child -> result string) (l : list child)
  : result string :=
  ss <- strs str l ;; Ok (String.concat EmptyString ss).

(** [Node.__str__]: the children are rendered before [self.closed()] is
    called. *)
Definition node_format (is_closed : result bool) (n : node)
    (str : child -> result string) : result string :=
  '(first, rest) <-
    match children n with
    | [] => Ok (EmptyString, EmptyString)
    | [c] =>
        if is_blank c then Ok (" ", EmptyString)
        else rest <- str c ;; Ok (EmptyString, rest)
    | c :: cs =>
        if is_blank c then rest <- join_children str cs ;; Ok (" ", rest)
        else rest <- join_children str (c :: cs) ;; Ok (EmptyString, rest)
    end ;;
  b <- is_closed ;;
  if b then
    if Str.is_empty rest then Ok first
    else Ok (first ++ "<" ++ open_tag n ++ ">" ++ rest
             ++ "</" ++ close_tag n ++ ">")
  else Ok (first ++ raw_tag n ++ rest).

(** [Span.__str__] *)
Definition span_format (n : node) (str : child -> result string)
  : result string :=
  rest <- join_children str (children n) ;;
  Ok ("<" ++ open_tag n ++ ">" ++ Str.rstrip rest ++ "</span>").

(** [Literal.__str__] and [HTMLEntityLiteral.__str__] *)
Definition literal_format (n : node) (str : child -> result string)
  : result string :=
  rest <- join_children str (children n) ;;
  Ok ("<" ++ open_tag n ++ ">" ++ Str.sub_space rest
      ++ "</" ++ close_tag n ++ ">").

(** [str(nd)] for the node [nd] of the store, with [fuel] frames left:
    the call of [__str__] takes a frame, and so does every call it
    makes.  Python raises [RecursionError] when no frame is left. *)
Fixpoint node_str (rt : runtime) (a : args) (fuel : nat) (h : store)
    (nd : nat) {struct fuel} : result string :=
  match fuel with
  | O => Raise RecursionError
  | S fuel' =>
      match nth_error h nd with
      | None => Ok EmptyString
      | Some n =>
          let str := child_str rt a fuel' (node_str rt a fuel' h) in
          match n_cls n with
          | Span => span_format n str
          | Literal | HTMLEntityLiteral => literal_format n str
          | _ => node_format (closed fuel' h (ClosureOf nd)) n str
          end
      end
  end.

(** [str(nd)] where a block asks for it *)
Definition render (rt : runtime) (a : args) (h : store) (nd : nat)
  : result string :=
  node_str rt a (frames rt) h nd.

End Inline.

(** ** [InlineParser] *)

Module Parser.
Import Re Rx Lexer Inline.

(** The attributes of an [InlineParser].  [nodes] is the stack of open
    nodes with its top first, and [h] holds the nodes the parser has
    created. *)
Record parser : Type := MkParser {
  italic : bool;
  bold : bool;
  escape_literal : bool;
  no_escape_literal : bool;
  fixed_width : bool;
  strike_thru : bool;
  underline : bool;
  subscript : bool;
  superscript : bool;
  comment : bool;
  span_depth : Z;
  color : bool;
  size : bool;
  top_node : nat;
  nodes : list nat;
  h : store;
  tokens : list token
}.

Definition set_italic v p := MkParser v (bold p) (escape_literal p) (no_escape_literal p) (fixed_width p) (strike_thru p) (underline p) (subscript p) (superscript p) (comment p) (span_depth p) (color p) (size p) (top_node p) (nodes p) (h p) (tokens p).
Definition set_bold v p := MkParser (italic p) v (escape_literal p) (no_escape_literal p) (fixed_width p) (strike_thru p) (underline p) (subscript p) (superscript p) (comment p) (span_depth p) (color p) (size p) (top_node p) (nodes p) (h p) (tokens p).
Definition set_escape_literal v p := MkParser (italic p) (bold p) v (no_escape_literal p) (fixed_width p) (strike_thru p) (underline p) (subscript p) (superscript p) (comment p) (span_depth p) (color p) (size p) (top_node p) (nodes p) (h p) (tokens p).
Definition set_no_escape_literal v p := MkParser (italic p) (bold p) (escape_literal p) v (fixed_width p) (strike_thru p) (underline p) (subscript p) (superscript p) (comment p) (span_depth p) (color p) (size p) (top_node p) (nodes p) (h p) (tokens p).
Definition set_fixed_width v p := MkParser (italic p) (bold p) (escape_literal p) (no_escape_literal p) v (strike_thru p) (underline p) (subscript p) (superscript p) (comment p) (span_depth p) (color p) (size p) (top_node p) (nodes p) (h p) (tokens p).
Definition set_strike_thru v p := MkParser (italic p) (bold p) (escape_literal p) (no_escape_literal p) (fixed_width p) v (underline p) (subscript p) (superscript p) (comment p) (span_depth p) (color p) (size p) (top_node p) (nodes p) (h p) (tokens p).
Definition set_underline v p := MkParser (italic p) (bold p) (escape_literal p) (no_escape_literal p) (fixed_width p) (strike_thru p) v (subscript p) (superscript p) (comment p) (span_depth p) (color p) (size p) (top_node p) (nodes p) (h p) (tokens p).
Definition set_subscript v p := MkParser (italic p) (bold p) (escape_literal p) (no_escape_literal p) (fixed_width p) (strike_thru p) (underline p) v (superscript p) (comment p) (span_depth p) (color p) (size p) (top_node p) (nodes p) (h p) (tokens p).
Definition set_superscript v p := MkParser (italic p) (bold p) (escape_literal p) (no_escape_literal p) (fixed_width p) (strike_thru p) (underline p) (subscript p) v (comment p) (span_depth p) (color p) (size p) (top_node p) (nodes p) (h p) (tokens p).
Definition set_comment v p := MkParser (italic p) (bold p) (escape_literal p) (no_escape_literal p) (fixed_width p) (strike_thru p) (underline p) (subscript p) (superscript p) v (span_depth p) (color p) (size p) (top_node p) (nodes p) (h p) (tokens p).
Definition set_span_depth v p := MkParser (italic p) (bold p) (escape_literal p) (no_escape_literal p) (fixed_width p) (strike_thru p) (underline p) (subscript p) (superscript p) (comment p) v (color p) (size p) (top_node p) (nodes p) (h p) (tokens p).
Definition set_color v p := MkParser (italic p) (bold p) (escape_literal p) (no_escape_literal p) (fixed_width p) (strike_thru p) (underline p) (subscript p) (superscript p) (comment p) (span_depth p) v (size p) (top_node p) (nodes p) (h p) (tokens p).
Definition set_size v p := MkParser (italic p) (bold p) (escape_literal p) (no_escape_literal p) (fixed_width p) (strike_thru p) (underline p) (subscript p) (superscript p) (comment p) (span_depth p) (color p) v (top_node p) (nodes p) (h p) (tokens p).
Definition set_top_node v p := MkParser (italic p) (bold p) (escape_literal p) (no_escape_literal p) (fixed_width p) (strike_thru p) (underline p) (subscript p) (superscript p) (comment p) (span_depth p) (color p) (size p) v (nodes p) (h p) (tokens p).
Definition set_nodes v p := MkParser (italic p) (bold p) (escape_literal p) (no_escape_literal p) (fixed_width p) (strike_thru p) (underline p) (subscript p) (superscript p) (comment p) (span_depth p) (color p) (size p) (top_node p) v (h p) (tokens p).
Definition set_h v p := MkParser (italic p) (bold p) (escape_literal p) (no_escape_literal p) (fixed_width p) (strike_thru p) (underline p) (subscript p) (superscript p) (comment p) (span_depth p) (color p) (size p) (top_node p) (nodes p) v (tokens p).
Definition set_tokens v p := MkParser (italic p) (bold p) (escape_literal p) (no_escape_literal p) (fixed_width p) (strike_thru p) (underline p) (subscript p) (superscript p) (comment p) (span_depth p) (color p) (size p) (top_node p) (nodes p) (h p) v.

(** [InlineParser.__init__]: the top node is the node 0 of a new store. *)
Definition init : parser :=
  MkParser false false false false false false false false false false 0
           false false 0 [0]
           [new_node Node EmptyString EmptyString EmptyString] [].

(** [InlineParser.set_flag] *)
Definition set_flag (k : cls) (value : bool) (p : parser) : result parser :=
  match k with
  | Italic => Ok (set_italic value p)
  | Bold => Ok (set_bold value p)
  | FixedWidth => Ok (set_fixed_width value p)
  | StrikeThru => Ok (set_strike_thru value p)
  | Underline => Ok (set_underline value p)
  | Subscript => Ok (set_subscript value p)
  | Superscript => Ok (set_superscript value p)
  | Literal => Ok (set_escape_literal value p)
  | HTMLEntityLiteral => Ok (set_no_escape_literal value p)
  | Span =>
      let d := (if value then span_depth p + 1 else span_depth p - 1)%Z in
      if (d <? 0)%Z then Raise "negative span depth"
      else Ok (set_span_depth d p)
  | Color => Ok (set_color value p)
  | Size => Ok (set_size value p)
  | Node => Ok p
  end.

Definition remove_flag (k : cls) (p : parser) : result parser :=
  set_flag k false p.

Definition add_flag (k : cls) (p : parser) : result parser :=
  set_flag k true p.

(** [type(nd)] *)
Definition type_of (p : parser) (nd : nat) : cls :=
  match nth_error (h p) nd with
  | Some n => n_cls n
  | None => Node
  end.

Definition update (nd : nat) (f : node -> node) (s : store) : store :=
  match nth_error s nd with
  | Some n => set_nth nd (f n) s
  | None => s
  end.

(** [nd.children.append(c)] *)
Definition append_child (c : child) (n : node) : node :=
  MkNode (n_cls n) (raw_tag n) (open_tag n) (close_tag n)
         (children n ++ [c]) (n_closure n).

(** [nd.set_closure(c)] *)
Definition set_closure (c : closure) (n : node) : node :=
  MkNode (n_cls n) (raw_tag n) (open_tag n) (close_tag n) (children n) c.

(** [InlineParser.add_text]; [self.nodes[-1]] raises on an empty stack. *)
Definition add_text (c : child) (p : parser) : result parser :=
  match nodes p with
  | [] => Raise IndexError
  | top :: _ => Ok (set_h (update top (append_child c) (h p)) p)
  end.

(** [InlineParser.add_node] for a node just created: it enters the
    store, the children of the top of the stack, and the stack. *)
Definition add_node (n : node) (p : parser) : result parser :=
  match nodes p with
  | [] => Raise IndexError
  | top :: _ =>
      let nd := List.length (h p) in
      let p := set_h (update top (append_child (Sub nd)) (h p ++ [n])%list) p in
      add_flag (n_cls n) (set_nodes (nd :: nodes p) p)
  end.

(** [InlineParser.remove_all_nodes]: the removed nodes in the order of
    their removal, the top of the stack first. *)
Fixpoint remove_all (stack : list nat) (p : parser) : result parser :=
  match stack with
  | [] => Ok p
  | nd :: rest =>
      p <- remove_flag (type_of p nd) (set_nodes rest p) ;;
      remove_all rest p
  end.

Definition remove_all_nodes (p : parser) : result (list nat * parser) :=
  let removed := nodes p in
  p <- remove_all removed p ;;
  Ok (removed, p).

(** [InlineParser.restore_nodes]: [removed_nodes.pop()] takes the node
    removed last, so the list is walked from its end. *)
Fixpoint restore_rev (removed_rev : list nat) (p : parser) : result parser :=
  match removed_rev with
  | [] => Ok p
  | old_nd :: rest =>
      new_n <- construct (type_of p old_nd) ;;
      let new_nd := List.length (h p) in
      let p := set_h (update old_nd (set_closure (ClosureOf new_nd)) (h p)) p in
      p <- add_node new_n p ;;
      restore_rev rest p
  end.

Definition restore_nodes (removed_nodes : list nat) (p : parser)
  : result parser :=
  restore_rev (List.rev removed_nodes) p.

(** [InlineParser.restore_all_nodes] *)
Definition restore_all_nodes (removed_nodes : list nat) (p : parser)
  : result parser :=
  match List.rev removed_nodes with
  | [] => Raise IndexError
  | bottom :: rest_rev =>
      top <- construct (type_of p bottom) ;;
      let nd := List.length (h p) in
      let p := set_nodes [nd] (set_top_node nd (set_h (h p ++ [top])%list p)) in
      restore_rev rest_rev p
  end.

(** [InlineParser.remove_nodes_to_class]: the removed nodes, the top of
    the stack first and the node of the class last. *)
Fixpoint remove_to (k : cls) (stack : list nat) (p : parser)
  : result (list nat * parser) :=
  match stack with
  | [] => Raise "not on stack"
  | nd :: rest =>
      p <- remove_flag (type_of p nd) (set_nodes rest p) ;;
      if isinstance (type_of p nd) k then Ok ([nd], p)
      else
        '(removed, p) <- remove_to k rest p ;;
        Ok (nd :: removed, p)
  end.

Definition remove_nodes_to_class (k : cls) (p : parser)
  : result (list nat * parser) :=
  remove_to k (nodes p) p.

(** [InlineParser.remove_node] *)
Definition remove_node (k : cls) (p : parser) : result (nat * parser) :=
  '(removed, p) <- remove_nodes_to_class k p ;;
  match List.rev removed with
  | [] => Raise IndexError
  | nd :: rest_rev =>
      p <- restore_rev rest_rev p ;;
      Ok (nd, p)
  end.

(** [nd = self.remove_node(k); nd.set_closure(CLOSED_NODE)] *)
Definition close_node (k : cls) (p : parser) : result parser :=
  '(nd, p) <- remove_node k p ;;
  Ok (set_h (update nd (set_closure CLOSED_NODE) (h p)) p).

(** [RX_WHITESPACE.match(t)]; a sentinel is not a string. *)
Definition whitespace (t : token) : result bool :=
  match t with
  | TStr s => Ok (is_some (re_match RX_WHITESPACE s))
  | _ => Raise TypeError
  end.

(** [i > 0 and not RX_WHITESPACE.match(tokens[i - 1])] *)
Definition after_text (i : nat) (p : parser) : result bool :=
  match i with
  | O => Ok false
  | S j =>
      match nth_error (tokens p) j with
      | Some t => w <- whitespace t ;; Ok (negb w)
      | None => Raise IndexError
      end
  end.

(** [i < len(tokens) - 1 and not RX_WHITESPACE.match(tokens[i + 1])] *)
Definition before_text (i : nat) (p : parser) : result bool :=
  match nth_error (tokens p) (S i) with
  | Some t => w <- whitespace t ;; Ok (negb w)
  | None => Ok false
  end.

(** [InlineParser.handle_token] *)
Definition handle_token (i : nat) (raw : string) (inside_tag : bool)
    (k : cls) (p : parser) : result parser :=
  if inside_tag then
    b <- after_text i p ;;
    if b then close_node k p else add_text (Text raw) p
  else
    b <- before_text i p ;;
    if b then n <- construct k ;; add_node n p
    else add_text (Text raw) p.

(** [InlineParser.parse_image_attrs]: the dictionary as a list, the
    latest binding first. *)
Fixpoint parse_image_attrs (fuel : nat) (attrs : string)
    (d : list (string * string)) : list (string * string) :=
  match fuel with
  | O => d
  | S fuel' =>
      match re_search RX_IMAGE_ATTR attrs with
      | Some md =>
          parse_image_attrs fuel' (get md "rest")
                            ((get md "attr", get md "value") :: d)
      | None => d
      end
  end.

(** [InlineParser.parse_image] *)
Definition parse_image (tok : string) (p : parser) : result parser :=
  match re_search RX_IMAGE tok with
  | Some md =>
      let attrs :=
        parse_image_attrs (S (String.length (get md "attrs")))
                          (get md "attrs") [] in
      add_text (Image (get md "src") attrs (get md "alignment")) p
  | None => add_text (Text tok) p
  end.

Definition is_str (t : token) : option string :=
  match t with TStr s => Some s | _ => None end.

Definition tok_eqb (t : token) (s : string) : bool :=
  match t with TStr s' => String.eqb s' s | _ => false end.

(** The branches of [parse] for a token that is a string, outside
    comments and literals. *)
Definition parse_str (a : args) (i : nat) (tok : string) (p : parser)
  : result parser :=
  if is_some (re_match RX_WHITESPACE tok) then add_text (Text " ") p
  else if Str.startswith "[[span" tok then
    match re_search RX_SPAN tok with
    | Some md =>
        add_node (new_node Span tok ("span " ++ get md "1") "span") p
    | None => add_text (Text tok) p
    end
  else if String.eqb tok "[[/span]]" then
    if (0 <? span_depth p)%Z then close_node Span p
    else add_text (Text tok) p
  else if Str.startswith "[[size" tok then
    match re_search RX_SIZE tok with
    | Some md =>
        add_node
          (new_node Size tok
             ("span style=" ++ dq ++ "font-size:" ++ get md "1" ++ ";" ++ dq)
             "span") p
    | None => add_text (Text tok) p
    end
  else if String.eqb tok "[[/size]]" then
    if size p then close_node Size p else add_text (Text tok) p
  else if Str.startswith "[[image" tok then parse_image tok p
  else if Str.startswith "[[=image" tok then parse_image tok p
  else if Str.startswith "[[[" tok then
    match re_search RX_PARSE_TRIPLE_BRACKET tok with
    | Some md =>
        let name :=
          match lookup "name" (m_caps md) with
          | Some n => if Str.is_empty n then get md "href" else n
          | None => get md "href"
          end in
        add_text (mk_link a (get md "href") name) p
    | None => add_text (Text tok) p
    end
  else if Str.startswith "[[" tok then
    match re_search RX_PARSE_DOUBLE_BRACKET tok with
    | Some md => add_text (mk_anchor (get md "anchor")) p
    | None => add_text (Text tok) p
    end
  else if Str.startswith "[" tok then
    match re_search RX_PARSE_SINGLE_BRACKET tok with
    | Some md => add_text (mk_link a (get md "href") (get md "name")) p
    | None => add_text (Text tok) p
    end
  else if String.eqb tok "##" then
    if color p then close_node Color p else add_text (Text tok) p
  else if Str.startswith "##" tok then
    if color p then Raise "FIXME: nested color"
    else if Str.endswith "|" tok then
      let c := Str.take (String.length tok - 3) (Str.drop 2 tok) in
      let tag :=
        if is_some (re_search RX_RGB c)
        then "span style=" ++ dq ++ "color: #" ++ Str.lower c ++ dq
        else "span style=" ++ dq ++ "color: " ++ c ++ dq in
      add_node (new_node Color tok tag "span") p
    else add_text (Text tok) p
  else if String.eqb tok "--" then
    handle_token i "--" (strike_thru p) StrikeThru p
  else if String.eqb tok "__" then
    handle_token i "__" (underline p) Underline p
  else if String.eqb tok "//" then
    handle_token i "//" (italic p) Italic p
  else if String.eqb tok "**" then
    handle_token i "**" (bold p) Bold p
  else if String.eqb tok ",," then
    handle_token i ",," (subscript p) Subscript p
  else if String.eqb tok "^^" then
    handle_token i "^^" (superscript p) Superscript p
  else if String.eqb tok "{{" then
    if negb (fixed_width p) then
      b <- before_text i p ;;
      if b then n <- construct FixedWidth ;; add_node n p
      else add_text (Text "{{") p
    else Ok p
  else if String.eqb tok "}}" then
    if fixed_width p then
      b <- after_text i p ;;
      if b then close_node FixedWidth p else add_text (Text "}}") p
    else Ok p
  else if Str.startswith "http" tok then
    if is_some (re_search RX_URL tok) then add_text (mk_link a tok tok) p
    else add_text (Text (Str.html_escape tok)) p
  else add_text (Text (Str.html_escape tok)) p.

(** One iteration of the loop of [InlineParser.parse]. *)
Definition parse_token (a : args) (i : nat) (t : token) (p : parser)
  : result parser :=
  if comment p then
    if tok_eqb t "--]" then Ok (set_comment false p) else Ok p
  else if tok_eqb t "[!--" then Ok (set_comment true p)
  else
  match t with
  | LITERAL_END_TOKEN =>
      if escape_literal p then
        '(_, p) <- remove_node Literal (set_escape_literal false p) ;; Ok p
      else if no_escape_literal p then add_text (Obj t) p
      else Raise "expected token to be a string"
  | LITERAL_START_TOKEN =>
      add_node (new_node Literal "@@" pre_wrap "span")
               (set_escape_literal true p)
  | HTML_ENTITY_LITERAL_END_TOKEN =>
      if no_escape_literal p then
        '(_, p) <- remove_node HTMLEntityLiteral
                     (set_no_escape_literal false p) ;;
        Ok p
      else add_text (Text (Str.html_escape ">@")) p
  | HTML_ENTITY_LITERAL_START_TOKEN =>
      if escape_literal p then Raise "AttributeError"
      else if no_escape_literal p then add_text (Obj t) p
      else
        add_node (new_node HTMLEntityLiteral "@@" pre_wrap "span")
                 (set_no_escape_literal true p)
  | TStr tok =>
      if escape_literal p then add_text (Text (Str.html_escape tok)) p
      else if no_escape_literal p then add_text (Text tok) p
      else parse_str a i tok p
  end.

Fixpoint parse_from (a : args) (i : nat) (ts : list token) (p : parser)
  : result parser :=
  match ts with
  | [] => Ok p
  | t :: ts' =>
      p <- parse_token a i t p ;;
      parse_from a (S i) ts' p
  end.

(** [InlineParser.parse] *)
Definition parse (a : args) (toks : list token) (p : parser)
  : result parser :=
  parse_from a 0 toks (set_tokens toks p).

(** [str(parser.top_node)] *)
Definition top_str (rt : runtime) (a : args) (p : parser)
  : result string :=
  render rt a (h p) (top_node p).

End Parser.

(** ** Blocks *)

Module Blocks.
Import Re Rx Lexer Inline Parser.

Definition nl : string := String Str.newline EmptyString.

Definition BLOCK_TYPE_CODE : string := "code".
Definition BLOCK_TYPE_MATH : string := "math".
Definition BLOCK_TYPE_P : string := "p".
Definition BLOCK_TYPE_UL : string := "ul".
Definition BLOCK_TYPE_OL : string := "ol".
Definition BLOCK_TYPE_TABLE : string := "table".
Definition BLOCK_TYPE_HR : string := "hr".
Definition BLOCK_TYPE_HN : string := "_hn".
Definition BLOCK_TYPE_EMPTY : string := "_empty".

Definition MULTILINE_BLOCK_TYPES : list string :=
  [BLOCK_TYPE_CODE; BLOCK_TYPE_MATH; BLOCK_TYPE_OL; BLOCK_TYPE_P;
   BLOCK_TYPE_TABLE; BLOCK_TYPE_UL].

Definition TOC_LITERAL : string := "[[toc]]".

(** A record of [TOC.headers]. *)
Record header : Type := MkHeader {
  hd_n : nat;
  hd_toc_number : nat;
  hd_text : string
}.

(** The attributes of the [Wikidot] object that change. *)
Record wikidot : Type := MkWikidot {
  w_args : args;
  w_toc : list header;
  next_toc_number : nat;
  next_eqn_number : nat
}.

(** The class of a block. *)
Inductive kind : Type :=
| Block | Header | HorizontalRule | Table | List | Empty | Code | Math
| Paragraph.

Record block : Type := MkBlock {
  b_kind : kind;
  block_type : string;
  lines : list string;
  linenos : list nat;
  matches : list rematch;
  tag : string;
  toc_number : nat;
  eqn_number : nat;
  input_nesting_level : nat;
  output_nesting_level : nat
}.

(** [Block.__init__] with a block type; [tag] is what [_tag] returns. *)
Definition new_block (k : kind) (ty : string) (line : string) (lineno : nat)
    (m : rematch) (tag : string) : block :=
  MkBlock k ty [line] [lineno] [m] tag 0 0 0 0.

(** [analyze_line]; [in_table] says that a block is open and is a
    table. *)
Definition analyze_line (line : string) (in_table : bool)
  : result (string * rematch) :=
  let rest :=
    match re_search RX_TABLE line with
    | Some md => Ok (BLOCK_TYPE_TABLE, md)
    | None =>
    match re_search RX_EMPTY line with
    | Some md => Ok (BLOCK_TYPE_EMPTY, md)
    | None =>
    match re_search RX_P line with
    | Some md => Ok (BLOCK_TYPE_P, md)
    | None => Raise "unparseable line"
    end end end in
  if negb in_table then
    match re_search RX_UL line with
    | Some md => Ok (BLOCK_TYPE_UL, md)
    | None =>
    match re_search RX_OL line with
    | Some md => Ok (BLOCK_TYPE_OL, md)
    | None =>
    match re_search RX_HN line with
    | Some md => Ok (BLOCK_TYPE_HN, md)
    | None =>
    match re_search RX_HR line with
    | Some md => Ok (BLOCK_TYPE_HR, md)
    | None => rest
    end end end end
  else rest.

(** [Block.add_line] with a block type *)
Definition add_line (b : block) (line : string) (lineno : nat)
    (ty : string) (m : rematch) (continued : bool) : result block :=
  if negb continued && negb (String.eqb ty BLOCK_TYPE_P)
     && negb (String.eqb ty BLOCK_TYPE_EMPTY)
     && negb (String.eqb ty (block_type b))
  then Raise "block type mismatch"
  else
    Ok (MkBlock (b_kind b) (block_type b) (lines b ++ [line])
                (linenos b ++ [lineno]) (matches b ++ [m]) (tag b)
                (toc_number b) (eqn_number b) (input_nesting_level b)
                (output_nesting_level b)).

(** [Block.multiline_type] *)
Definition multiline_type (b : block) : bool :=
  existsb (String.eqb (block_type b)) MULTILINE_BLOCK_TYPES.

(** [for match in matches: parser.parse(token_lex(match.group('content')))] *)
Fixpoint parse_matches (a : args) (ms : list rematch) (p : parser)
  : result parser :=
  match ms with
  | [] => Ok p
  | m :: ms' =>
      content <- group_str m "content" ;;
      p <- parse a (token_lex content) p ;;
      parse_matches a ms' p
  end.

(** [Block.content] *)
Definition content (rt : runtime) (a : args) (ms : list rematch)
  : result string :=
  p <- parse_matches a ms Parser.init ;;
  top_str rt a p.

(** [Block.write_content]: the top node is written after every line. *)
Fixpoint write_content (rt : runtime) (a : args) (ms : list rematch)
    (p : parser) : result (list string) :=
  match ms with
  | [] => Ok []
  | m :: ms' =>
      content <- group_str m "content" ;;
      p <- parse a (token_lex content) p ;;
      s <- top_str rt a p ;;
      rest <- write_content rt a ms' p ;;
      Ok (s :: rest)
  end.

(** [Block.close], with the tags of [Header] when the block is one *)
Definition close_block (rt : runtime) (a : args) (b : block)
  : result (list string) :=
  let open :=
    match b_kind b with
    | Header =>
        "<" ++ tag b ++ " id=" ++ dq ++ "toc" ++ Str.of_nat (toc_number b)
        ++ dq ++ "><span>"
    | _ => "<" ++ tag b ++ ">"
    end in
  let close :=
    match b_kind b with
    | Header => "</span></" ++ tag b ++ ">" ++ nl
    | _ => "</" ++ tag b ++ ">" ++ nl
    end in
  body <- write_content rt a (matches b) Parser.init ;;
  Ok (open :: body ++ [close])%list.

(** [Paragraph.get_content] *)
Fixpoint get_content (a : args) (ms : list rematch) (p : parser)
  : result parser :=
  match ms with
  | [] => Ok p
  | m :: ms' =>
      content <- group_str m "content" ;;
      p <- parse a (token_lex content) p ;;
      match ms' with
      | [] => Ok p
      | _ => p <- add_text LINE_BREAK p ;; get_content a ms' p
      end
  end.

(** [Paragraph.close] *)
Definition close_paragraph (rt : runtime) (a : args) (b : block)
  : result (list string) :=
  p <- get_content a (matches b) Parser.init ;;
  content <- top_str rt a p ;;
  let suppress_tags :=
    match nth_error (h p) (top_node p) with
    | Some n =>
        match children n with
        | [Image _ _ _] => true
        | _ => false
        end
    | None => false
    end in
  if negb (is_some (re_search RX_EMPTY_PARAGRAPH content)) then
    if negb suppress_tags
    then Ok ["<" ++ tag b ++ ">"; content; "</" ++ tag b ++ ">" ++ nl]
    else Ok [content; nl]
  else Ok [].

(** The loop over the lines of [Code.write_code_content] and of
    [Math.write_math_content]; [first] holds for the line of index 0. *)
Fixpoint write_lines (first : bool) (ms : list rematch)
  : result (list string) :=
  match ms with
  | [] => Ok []
  | m :: ms' =>
      content <- group_str m "content" ;;
      rest <- write_lines false ms' ;;
      if first && is_some (re_search RX_BLANK_LINE content) then Ok rest
      else
        Ok (Str.html_escape content
            :: (match ms' with [] => [] | _ => [nl] end) ++ rest)%list
  end.

(** [Code.write_code_content] and [Math.write_math_content], where
    [name] is [code] or [math] *)
Definition write_fenced_content (name : string) (b : block)
  : result (list string) :=
  let opening := "[[" ++ name ++ "]]" ++ nl in
  let closing := nl ++ "[[/" ++ name ++ "]]" in
  body <- write_lines true (matches b) ;;
  Ok (repeat opening (output_nesting_level b)
      ++ body ++ repeat closing (output_nesting_level b))%list.

(** [Code.close] *)
Definition close_code (b : block) : result (list string) :=
  let open :=
    ["<div class=" ++ dq ++ "code" ++ dq ++ ">" ++ nl; "<pre>" ++ nl;
     "<code>"] in
  let close := ["</code>" ++ nl; "</pre></div>" ++ nl] in
  body <- write_fenced_content "code" b ;;
  Ok (open ++ body ++ close)%list.

(** [Math.close] *)
Definition close_math (b : block) : result (list string) :=
  let open :=
    ["<span class=" ++ dq ++ "equation-number" ++ dq ++ ">("
     ++ Str.of_nat (eqn_number b) ++ ")</span>" ++ nl;
     "<div class=" ++ dq ++ "math-equation" ++ dq ++ " id=" ++ dq
     ++ "equation-" ++ Str.of_nat (eqn_number b) ++ dq ++ ">";
     "$$ \begin{align} "] in
  let close := [" \end{align} $$"; "</div>" ++ nl] in
  body <- write_fenced_content "math" b ;;
  Ok (open ++ body ++ close)%list.

End Blocks.

(** ** [Table] *)

Module Tables.
Import Re Rx Lexer Inline Parser Blocks.

(** The attributes of a [Table] that its rendering changes. *)
Record table : Type := MkTable {
  cell_type : string;
  colspan : nat;
  text_align : option string;
  cell_content : string;
  cell_parser : option parser
}.

(** [Table.__init__] *)
Definition new_table : table := MkTable "td" 1 None EmptyString None.

Definition set_colspan (n : nat) (t : table) : table :=
  MkTable (cell_type t) n (text_align t) (cell_content t) (cell_parser t).

Definition set_parser (p : option parser) (t : table) : table :=
  MkTable (cell_type t) (colspan t) (text_align t) (cell_content t) p.

(** [Table.start_cell] *)
Definition start_cell (t : table) : table := set_parser (Some Parser.init) t.

(** A method of the parser of the cell; there is none before the first
    call of [start_cell]. *)
Definition with_parser (f : parser -> result parser) (t : table)
  : result table :=
  match cell_parser t with
  | Some p => p <- f p ;; Ok (set_parser (Some p) t)
  | None => Raise "AttributeError"
  end.

(** [Table.add_cell_content] *)
Definition add_cell_content (a : args) (content : string) (t : table)
  : result table :=
  with_parser (parse a (token_lex content)) t.

(** [Table.add_line_break] *)
Definition add_line_break (t : table) : result table :=
  with_parser (add_text LINE_BREAK) t.

(** [Table.open_cell_tag] *)
Definition open_cell_tag (t : table) : string :=
  let span := "colspan=" ++ dq ++ Str.of_nat (colspan t) ++ dq in
  let style al := "style=" ++ dq ++ "text-align: " ++ al ++ ";" ++ dq in
  let components := [cell_type t] in
  let components :=
    if (1 <? colspan t)%nat then List.app components [span]
    else components in
  let components :=
    match text_align t with
    | Some al =>
        if Str.is_empty al then components
        else List.app components [style al]
    | None => components
    end in
  Str.join " " components.

(** [Table.end_cell]: the string it writes *)
Definition end_cell (rt : runtime) (a : args) (t : table) : result string :=
  match cell_parser t with
  | Some p =>
      s <- top_str rt a p ;;
      Ok ("<" ++ open_cell_tag t ++ ">" ++ s
          ++ "</" ++ cell_type t ++ ">" ++ nl)
  | None => Raise "AttributeError"
  end.

(** [Table.analyze_cell] *)
Definition analyze_cell (cell : string) (t : table) : table :=
  let '(tag, content) :=
    match re_search RX_TAGGED_CELL cell with
    | Some md => (get md "tag", get md "content")
    | None => (EmptyString, cell)
    end in
  let ty := if String.eqb tag "~" then "th" else "td" in
  let al :=
    if String.eqb tag "<" then "left"
    else if String.eqb tag "=" then "center"
    else if String.eqb tag ">" then "right"
    else EmptyString in
  MkTable ty (colspan t) (Some al) content (cell_parser t).

(** [Table.print_middle_of_cell] *)
Definition print_middle_of_cell (a : args) (cell : string) (t : table)
  : result table :=
  t <- add_cell_content a cell t ;;
  add_line_break t.

(** [Table.print_start_of_cell] *)
Definition print_start_of_cell (a : args) (cell : string) (t : table)
  : result table :=
  let t := start_cell (analyze_cell cell t) in
  t <- add_cell_content a (cell_content t) t ;;
  t <- add_line_break t ;;
  Ok (set_colspan 1 t).

(** [Table.print_end_of_cell] *)
Definition print_end_of_cell (rt : runtime) (a : args) (cell : string)
    (t : table) : result (table * list string) :=
  t <- add_cell_content a cell t ;;
  w <- end_cell rt a t ;;
  Ok (t, [w]).

(** [Table.print_full_cell] *)
Definition print_full_cell (rt : runtime) (a : args) (cell : string)
    (t : table) : result (table * list string) :=
  let t := start_cell (analyze_cell cell t) in
  t <- add_cell_content a (cell_content t) t ;;
  w <- end_cell rt a t ;;
  Ok (set_colspan 1 t, [w]).

(** The loop [for cell in cells] of [Table.print_cells] *)
Fixpoint print_middle_cells (rt : runtime) (a : args) (cells : list string)
    (t : table) : result (table * list string) :=
  match cells with
  | [] => Ok (t, [])
  | cell :: rest =>
      if Str.is_empty cell then
        print_middle_cells rt a rest (set_colspan (colspan t + 1) t)
      else
        '(t, w) <- print_full_cell rt a cell t ;;
        '(t, ws) <- print_middle_cells rt a rest t ;;
        Ok (t, (w ++ ws)%list)
  end.

(** [Table.print_cells] *)
Definition print_cells (rt : runtime) (a : args) (first_cell : option string)
    (cells : list string) (last_cell lone_cell : option string) (t : table)
  : result (table * list string) :=
  let t := set_colspan 1 t in
  t <- match lone_cell with
       | Some c => print_middle_of_cell a c t
       | None => Ok t
       end ;;
  '(t, w1) <- match first_cell with
              | Some c => print_end_of_cell rt a c t
              | None => Ok (t, [])
              end ;;
  '(t, w2) <- print_middle_cells rt a cells t ;;
  t <- match last_cell with
       | Some c => print_start_of_cell a c t
       | None => Ok t
       end ;;
  Ok (t, (w1 ++ w2)%list).

(** [Table.row_to_cells] *)
Definition row_to_cells (row : string) : list string := Str.split_bars row.

(** [cells.pop()]: the list without its last element, and that element *)
Definition pop_last (l : list string) : option (list string * string) :=
  match List.rev l with
  | [] => None
  | x :: r => Some (List.rev r, x)
  end.

Definition tr_open : string := "<tr>" ++ nl.
Definition tr_close : string := "</tr>" ++ nl.

(** One iteration of the loop of [Table.close] *)
Definition close_row (rt : runtime) (a : args) (m : rematch)
    (st : table * bool) : result (table * bool * list string) :=
  let '(t, inside_cell) := st in
  let content :=
    match group m "content" with
    | Ok (Some c) => c
    | _ => EmptyString
    end in
  match re_search RX_FULL_ROW content with
  | Some md =>
      if inside_cell then Raise "unterminated cell"
      else
        let cells := row_to_cells (get md "row") in
        '(t, w) <- print_cells rt a None cells None None t ;;
        Ok (t, false, tr_open :: w ++ [tr_close])%list
  | None =>
  match re_search RX_START_ROW content with
  | Some md =>
      if inside_cell then Raise "unterminated cell"
      else
        match pop_last (row_to_cells (get md "row")) with
        | Some (cells, last_cell) =>
            '(t, w) <- print_cells rt a None cells (Some last_cell) None t ;;
            Ok (t, true, tr_open :: w)
        | None => Raise IndexError
        end
  | None =>
  match re_search RX_END_ROW content with
  | Some md =>
      if negb inside_cell then Raise "not inside cell"
      else
        match row_to_cells (get md "row") with
        | first_cell :: cells =>
            '(t, w) <- print_cells rt a (Some first_cell) cells None None t ;;
            Ok (t, false, w ++ [tr_close])%list
        | [] => Raise IndexError
        end
  | None =>
      match row_to_cells content with
      | [lone_cell] =>
          '(t, w) <- print_cells rt a None [] None (Some lone_cell) t ;;
          Ok (t, true, w)
      | first_cell :: cells =>
          match pop_last cells with
          | Some (cells, last_cell) =>
              '(t, w) <- print_cells rt a (Some first_cell) cells
                           (Some last_cell) None t ;;
              Ok (t, true, w)
          | None => Raise IndexError
          end
      | [] => Raise IndexError
      end
  end end end.

Fixpoint close_rows (rt : runtime) (a : args) (ms : list rematch)
    (st : table * bool) : result (list string) :=
  match ms with
  | [] => Ok []
  | m :: ms' =>
      '(t, inside_cell, w) <- close_row rt a m st ;;
      ws <- close_rows rt a ms' (t, inside_cell) ;;
      Ok (w ++ ws)%list
  end.

(** [Table.close] *)
Definition close_table (rt : runtime) (a : args) (b : block)
  : result (list string) :=
  let open := "<table class=" ++ dq ++ "wiki-content-table" ++ dq ++ ">" ++ nl in
  let close := "</table>" ++ nl in
  rows <- close_rows rt a (matches b) (new_table, false) ;;
  Ok (open :: rows ++ [close])%list.

End Tables.

(** ** [List] *)

Module Lists.
Import Re Rx Lexer Inline Parser Blocks.

(** [List.raw_tag_to_tag] *)
Definition raw_tag_to_tag (raw : string) : result string :=
  if String.eqb raw "*" then Ok BLOCK_TYPE_UL
  else if String.eqb raw "#" then Ok BLOCK_TYPE_OL
  else Raise "unrecognized raw tag".

(** The first loop of [List.close]: the items [(node, tag, indent)].
    [triple] is the tag and the indent of the item under way. *)
Fixpoint items (a : args) (ms : list rematch) (p : parser)
    (triple : option (string * Z)) (acc : list (nat * string * Z))
  : result (list (nat * string * Z) * parser) :=
  match ms with
  | [] => Ok (acc, p)
  | m :: ms' =>
      triple <-
        match triple with
        | Some t => Ok t
        | None =>
            raw <- group_str m "raw_tag" ;;
            tag <- raw_tag_to_tag raw ;;
            indent <- group_str m "indent" ;;
            Ok (tag, Z.of_nat (String.length indent))
        end ;;
      content <- group_str m "content" ;;
      p <- parse a (token_lex content) p ;;
      br <- group m "br" ;;
      match br with
      | Some (String _ _) =>
          p <- add_text LINE_BREAK p ;;
          items a ms' p (Some triple) acc
      | _ =>
          let item := (top_node p, fst triple, snd triple) in
          '(removed_nodes, p) <- remove_all_nodes p ;;
          p <- restore_all_nodes removed_nodes p ;;
          items a ms' p None (acc ++ [item])
      end
  end.

(** The attributes [opened_lists] and [inside_line], and the output. *)
Record lstate : Type := MkL {
  opened_lists : list string;
  inside_line : list (Z * bool);
  written : list string
}.

(** [self.inside_line.get(indent, False)] *)
Fixpoint inside (indent : Z) (d : list (Z * bool)) : bool :=
  match d with
  | [] => false
  | (k, v) :: d' => if (k =? indent)%Z then v else inside indent d'
  end.

Definition write (s : string) (l : lstate) : lstate :=
  MkL (opened_lists l) (inside_line l) (written l ++ [s]).

(** [List.close_line] *)
Definition close_line (indent : Z) (l : lstate) : lstate :=
  let l := write ("</li>" ++ nl) l in
  MkL (opened_lists l) ((indent, false) :: inside_line l) (written l).

(** [List.open_line] *)
Definition open_line (indent : Z) (l : lstate) : lstate :=
  let l := if inside indent (inside_line l) then close_line indent l else l in
  let l := write "<li>" l in
  MkL (opened_lists l) ((indent, true) :: inside_line l) (written l).

(** [List.open_list]; the stack [opened_lists] has its top first. *)
Definition open_list (tag : string) (indent : Z) (l : lstate) : lstate :=
  let l :=
    if inside (indent - 1) (inside_line l) then write nl l
    else if (0 <? indent)%Z then write nl (open_line (indent - 1) l)
    else l in
  let l := write ("<" ++ tag ++ ">" ++ nl) l in
  MkL (tag :: opened_lists l) (inside_line l) (written l).

(** [List.close_list] *)
Definition close_list (indent : Z) (l : lstate) : result lstate :=
  let l := if inside indent (inside_line l) then close_line indent l else l in
  match opened_lists l with
  | [] => Raise IndexError
  | tag :: rest =>
      Ok (write ("</" ++ tag ++ ">" ++ nl)
                (MkL rest (inside_line l) (written l)))
  end.

(** [range(lo, hi)] *)
Definition range (lo hi : Z) : list Z :=
  map (fun k => (lo + Z.of_nat k)%Z) (seq 0 (Z.to_nat (hi - lo))).

(** [for i in range(lo, hi): self.close_list(output_stream, i + 1)] *)
Fixpoint close_lists (idx : list Z) (l : lstate) : result lstate :=
  match idx with
  | [] => Ok l
  | i :: idx' => l <- close_list (i + 1) l ;; close_lists idx' l
  end.

(** [for i in range(lo, hi): self.open_list(output_stream, tag, i + 1)] *)
Definition open_lists (tag : string) (idx : list Z) (l : lstate) : lstate :=
  fold_left (fun l i => open_list tag (i + 1) l) idx l.

(** The second loop of [List.close] *)
Fixpoint write_items (str : nat -> result string)
    (its : list (nat * string * Z)) (last_indent : Z) (l : lstate)
  : result (Z * lstate) :=
  match its with
  | [] => Ok (last_indent, l)
  | (node, tag, indent) :: its' =>
      l <- close_lists (range indent last_indent) l ;;
      let l := open_lists tag (range last_indent indent) l in
      let l := open_line indent l in
      s <- str node ;;
      let l := write s l in
      write_items str its' indent l
  end.

(** [List.close] *)
Definition close_list_block (rt : runtime) (a : args) (b : block)
  : result (list string) :=
  '(node_tag_indent, p) <- items a (matches b) Parser.init None [] ;;
  '(last_indent, l) <-
     write_items (render rt a (h p)) node_tag_indent (-1) (MkL [] [] []) ;;
  l <- close_lists (range (-1) last_indent) l ;;
  Ok (written l).

End Lists.

(** ** [Div], [TOC], [BlockParser] and [Wikidot] *)

Module Driver.
Import Re Rx Lexer Inline Parser Blocks.

(** The component that writes to the output stream. *)
Inductive writer : Type := ByTracker | ByBlock | ByDiv | ByToc.

(** A dictionary of strings, in the order of insertion. *)
Fixpoint dict_set (k v : string) (d : list (string * string))
  : list (string * string) :=
  match d with
  | [] => [(k, v)]
  | (k', v') :: d' =>
      if String.eqb k k' then (k, v) :: d' else (k', v') :: dict_set k v d'
  end.

(** [Div.parse_attributes]; every attribute shortens [rest]. *)
Fixpoint parse_attributes (fuel : nat) (rest : string)
    (d : list (string * string)) : list (string * string) :=
  match fuel with
  | O => d
  | S fuel' =>
      if Str.is_empty rest then d
      else
        match re_search RX_DIV_ATTR rest with
        | Some md =>
            let name := get md "name" in
            let value := get md "value" in
            parse_attributes fuel' (get md "rest")
              (dict_set name
                 (if String.eqb name "id" then "u-" ++ value else value) d)
        | None => d
        end
  end.

Definition attr_str (d : list (string * string)) (k : string) : string :=
  k ++ "=" ++ dq
  ++ (match assoc k d with Some v => v | None => EmptyString end) ++ dq.

(** [Div.attributes_to_str] *)
Definition attributes_to_str (d : list (string * string)) : string :=
  let known :=
    filter (fun k => is_some (assoc k d)) ["id"; "class"; "style"] in
  let data :=
    filter (Str.startswith "data-") (Str.sorted (map fst d)) in
  Str.join " " (map (attr_str d) (known ++ data)).

(** [Div.__init__]: the attributes, and the string it writes *)
Definition new_div (m : rematch) : list (string * string) * string :=
  let rest := get m "attributes" in
  let d := parse_attributes (S (String.length rest)) rest [] in
  let attrs := attributes_to_str d in
  (d, if Str.is_empty attrs then "<div>" ++ nl
      else "<div " ++ attrs ++ ">" ++ nl).

(** [TOC.close] *)
Definition close_toc (headers : list header) : list string :=
  let entry (hd : header) :=
    ["<div style=" ++ dq ++ "margin-left: " ++ Str.of_nat (hd_n hd + 1)
     ++ "em;" ++ dq ++ ">" ++ nl;
     "<a href=" ++ dq ++ "#toc" ++ Str.of_nat (hd_toc_number hd) ++ dq ++ ">"
     ++ hd_text hd ++ "</a>" ++ nl;
     "</div>" ++ nl] in
  let head :=
    ["<div id=" ++ dq ++ "toc" ++ dq ++ ">" ++ nl;
     "<div class=" ++ dq ++ "title" ++ dq ++ ">Table of Contents</div>" ++ nl;
     "<div id=" ++ dq ++ "toc-list" ++ dq ++ ">" ++ nl] in
  let foot := ["</div>" ++ nl; "</div>" ++ nl] in
  List.app head (List.app (flat_map entry headers) foot).

(** The attributes of a [BlockParser], its [Wikidot] object, and what
    the pass has written to its output stream. *)
Record state : Type := MkState {
  wiki : wikidot;
  current_block : option block;
  bq_level : nat;
  continued_line : bool;
  divs : list (list (string * string));
  toc : option (list header);
  written : list (writer * string)
}.

Definition set_wiki v s := MkState v (current_block s) (bq_level s) (continued_line s) (divs s) (toc s) (written s).
Definition set_current_block v s := MkState (wiki s) v (bq_level s) (continued_line s) (divs s) (toc s) (written s).
Definition set_bq_level v s := MkState (wiki s) (current_block s) v (continued_line s) (divs s) (toc s) (written s).
Definition set_continued_line v s := MkState (wiki s) (current_block s) (bq_level s) v (divs s) (toc s) (written s).
Definition set_divs v s := MkState (wiki s) (current_block s) (bq_level s) (continued_line s) v (toc s) (written s).
Definition set_toc v s := MkState (wiki s) (current_block s) (bq_level s) (continued_line s) (divs s) v (written s).
Definition set_written v s := MkState (wiki s) (current_block s) (bq_level s) (continued_line s) (divs s) (toc s) v.

(** [output_stream.write(s)] for every [s] of [ss], by the component [w] *)
Definition emit (w : writer) (ss : list string) (s : state) : state :=
  set_written (written s ++ map (pair w) ss) s.

(** [block.close(output_stream)]: the strings it writes *)
Definition close (rt : runtime) (a : args) (b : block)
  : result (list string) :=
  match b_kind b with
  | Block | Header => close_block rt a b
  | HorizontalRule => Ok ["<hr />" ++ nl]
  | Table => Tables.close_table rt a b
  | List => Lists.close_list_block rt a b
  | Empty => Ok []
  | Code => close_code b
  | Math => close_math b
  | Paragraph => close_paragraph rt a b
  end.

(** [BlockParser.close_current_block] *)
Definition close_current_block (rt : runtime) (s : state) : result state :=
  match current_block s with
  | Some b =>
      ws <- close rt (w_args (wiki s)) b ;;
      Ok (set_current_block None (emit ByBlock ws s))
  | None => Ok (set_current_block None s)
  end.

(** [Header.__init__] *)
Definition new_header (rt : runtime) (line : string) (lineno : nat)
    (m : rematch) (w : wikidot) : result (block * wikidot) :=
  plus_signs <- group_str m "plus_signs" ;;
  let n := String.length plus_signs in
  let b :=
    MkBlock Header BLOCK_TYPE_HN [line] [lineno] [m] ("h" ++ Str.of_nat n)
            (next_toc_number w) 0 0 0 in
  text <- content rt (w_args w) [m] ;;
  Ok (b, MkWikidot (w_args w)
                   (w_toc w ++ [MkHeader n (next_toc_number w) text])
                   (next_toc_number w + 1) (next_eqn_number w)).

(** [Math.__init__] *)
Definition new_math (line : string) (lineno : nat) (m : rematch)
    (w : wikidot) : block * wikidot :=
  (MkBlock Math BLOCK_TYPE_MATH [line] [lineno] [m] BLOCK_TYPE_MATH 0
           (next_eqn_number w) 0 0,
   MkWikidot (w_args w) (w_toc w) (next_toc_number w)
             (next_eqn_number w + 1)).

(** [List.__init__] *)
Definition new_list (line : string) (lineno : nat) (m : rematch)
  : result block :=
  raw <- group_str m "raw_tag" ;;
  ty <- Lists.raw_tag_to_tag raw ;;
  Ok (new_block List ty line lineno m ty).

(** [BlockParser.block_factory] *)
Definition block_factory (rt : runtime) (line : string) (lineno : nat)
    (ty : string) (m : rematch) (w : wikidot) : result (block * wikidot) :=
  if String.eqb ty BLOCK_TYPE_UL || String.eqb ty BLOCK_TYPE_OL then
    b <- new_list line lineno m ;; Ok (b, w)
  else if String.eqb ty BLOCK_TYPE_EMPTY then
    Ok (new_block Empty ty line lineno m ty, w)
  else if String.eqb ty BLOCK_TYPE_HR then
    Ok (new_block HorizontalRule ty line lineno m ty, w)
  else if String.eqb ty BLOCK_TYPE_CODE then
    Ok (new_block Code ty line lineno m ty, w)
  else if String.eqb ty BLOCK_TYPE_MATH then
    Ok (new_math line lineno m w)
  else if String.eqb ty BLOCK_TYPE_P then
    Ok (new_block Paragraph ty line lineno m ty, w)
  else if String.eqb ty BLOCK_TYPE_HN then
    new_header rt line lineno m w
  else if String.eqb ty BLOCK_TYPE_TABLE then
    Ok (new_block Table ty line lineno m ty, w)
  else Ok (new_block Block ty line lineno m ty, w).

(** [isinstance(self.current_block, Code)] *)
Definition is_code (o : option block) : bool :=
  match o with
  | Some b => match b_kind b with Code => true | _ => false end
  | None => false
  end.

(** [isinstance(self.current_block, Math)] *)
Definition is_math (o : option block) : bool :=
  match o with
  | Some b => match b_kind b with Math => true | _ => false end
  | None => false
  end.

(** [current_block and current_block.block_type == BLOCK_TYPE_TABLE] *)
Definition in_table (o : option block) : bool :=
  match o with
  | Some b => String.eqb (block_type b) BLOCK_TYPE_TABLE
  | None => false
  end.

Definition bq_open : string := "<blockquote>" ++ nl.
Definition bq_close : string := "</blockquote>" ++ nl.

(** [BlockParser.adjust_blockquote_level]: the line it returns, and the
    state *)
Definition adjust_blockquote_level (rt : runtime) (line : string)
    (s : state) : result (string * state) :=
  if is_code (current_block s) then Ok (line, s)
  else
    let '(new_bq_level, line) :=
      match re_search RX_BLOCKQUOTE line with
      | Some md =>
          (String.length (get md "greater_than_signs"), get md "content")
      | None => (0, line)
      end in
    s <- (if negb (new_bq_level =? bq_level s)%nat
          then close_current_block rt s else Ok s) ;;
    let s :=
      if (bq_level s <? new_bq_level)%nat
      then emit ByTracker (repeat bq_open (new_bq_level - bq_level s)) s
      else if (new_bq_level <? bq_level s)%nat
      then emit ByTracker (repeat bq_close (bq_level s - new_bq_level)) s
      else s in
    Ok (line, set_bq_level new_bq_level s).

(** [BlockParser.check_for_div] *)
Definition check_for_div (rt : runtime) (line : string) (s : state)
  : result (bool * state) :=
  match re_search RX_DIV_START line with
  | Some md =>
      s <- close_current_block rt s ;;
      let '(d, w) := new_div md in
      Ok (true, set_divs (divs s ++ [d]) (emit ByDiv [w] s))
  | None =>
      match re_search RX_DIV_END line with
      | Some md =>
          s <- close_current_block rt s ;;
          match List.rev (divs s) with
          | [] => Ok (true, s)
          | _ :: rest =>
              Ok (true,
                  emit ByDiv ["</div>" ++ nl] (set_divs (List.rev rest) s))
          end
      | None => Ok (false, s)
      end
  end.

(** The nesting levels of the open block *)
Definition set_levels (i o : nat) (b : block) : block :=
  MkBlock (b_kind b) (block_type b) (lines b) (linenos b) (matches b)
          (tag b) (toc_number b) (eqn_number b) i o.

(** The part of [block_type_and_match] for an open [Code] or [Math]
    block [b], whose patterns are [start], [stop] and [inner] *)
Definition fenced (rt : runtime) (ty : string) (start stop inner : regex)
    (line : string) (b : block) (s : state)
  : result (option (string * rematch) * state) :=
  if is_some (re_search start line) then
    Ok (None,
        set_current_block
          (Some (set_levels (input_nesting_level b + 1)
                            (output_nesting_level b + 1) b)) s)
  else if is_some (re_search stop line) then
    if (input_nesting_level b =? 0)%nat then
      s <- close_current_block rt s ;; Ok (None, s)
    else
      Ok (None,
          set_current_block
            (Some (set_levels (input_nesting_level b - 1)
                              (output_nesting_level b) b)) s)
  else
    match re_search inner line with
    | Some md => Ok (Some (ty, md), s)
    | None => Raise "unparseable line"
    end.

(** What [block_type_and_match] does when the open block is neither a
    [Code] nor a [Math] *)
Definition plain (rt : runtime) (line : string) (s : state)
  : result (option (string * rematch) * state) :=
  let analyze (s : state) :=
    r <- analyze_line line (in_table (current_block s)) ;;
    Ok (Some r, s) in
  if (bq_level s =? 0)%nat then
    match re_search RX_CODE_START line with
    | Some md =>
        s <- close_current_block rt s ;; Ok (Some (BLOCK_TYPE_CODE, md), s)
    | None =>
        match re_search RX_MATH_START line with
        | Some md =>
            s <- close_current_block rt s ;; Ok (Some (BLOCK_TYPE_MATH, md), s)
        | None => analyze s
        end
    end
  else analyze s.

(** [BlockParser.block_type_and_match]; [None] stands for the pair
    [None, None]. *)
Definition block_type_and_match (rt : runtime) (line : string) (s : state)
  : result (option (string * rematch) * state) :=
  match current_block s with
  | Some b =>
      match b_kind b with
      | Code =>
          fenced rt BLOCK_TYPE_CODE RX_CODE_START RX_CODE_END RX_CODE_CONTENT
                 line b s
      | Math =>
          fenced rt BLOCK_TYPE_MATH RX_MATH_START RX_MATH_END RX_MATH_CONTENT
                 line b s
      | _ => plain rt line s
      end
  | None => plain rt line s
  end.

(** What an iteration of the loop of [_process_lines] comes to: a
    [continue], or the end of the body. *)
Inductive outcome : Type :=
| SkippedToc
| SkippedDiv
| SkippedFence
| SkippedEmpty
| Done.

(** The body of the loop of [_process_lines] for the line [raw] of
    number [lineno] *)
Definition process_line (rt : runtime) (lineno : nat) (raw : string)
    (s : state) : result (outcome * state) :=
  let line := Str.rstrip raw in
  '(line, s) <- adjust_blockquote_level rt line s ;;
  match (if String.eqb line TOC_LITERAL then toc s else None) with
  | Some headers => Ok (SkippedToc, emit ByToc (close_toc headers) s)
  | None =>
  '(is_div, s) <- check_for_div rt line s ;;
  if is_div then Ok (SkippedDiv, s)
  else
  '(tm, s) <- block_type_and_match rt line s ;;
  match tm with
  | None => Ok (SkippedFence, s)
  | Some (ty, m) =>
  if String.eqb ty BLOCK_TYPE_EMPTY && (0 <? bq_level s)%nat
  then Ok (SkippedEmpty, s)
  else
  s <-
    match current_block s with
    | None =>
        '(b, w) <- block_factory rt line lineno ty m (wiki s) ;;
        Ok (set_current_block (Some b) (set_wiki w s))
    | Some cb =>
        if continued_line s then
          b <- add_line cb line lineno ty m true ;;
          Ok (set_current_block (Some b) s)
        else if String.eqb ty (block_type cb) && multiline_type cb then
          b <- add_line cb line lineno ty m false ;;
          Ok (set_current_block (Some b) s)
        else
          s <- close_current_block rt s ;;
          '(b, w) <- block_factory rt line lineno ty m (wiki s) ;;
          Ok (set_current_block (Some b) (set_wiki w s))
    end ;;
  Ok (Done, set_continued_line (Str.endswith " _" line) s)
  end end.

(** The loop of [_process_lines] *)
Fixpoint process_from (rt : runtime) (lineno : nat) (input : list string)
    (s : state) : result state :=
  match input with
  | [] => Ok s
  | raw :: rest =>
      '(_, s) <- process_line rt lineno raw s ;;
      process_from rt (S lineno) rest s
  end.

(** [BlockParser._process_lines] on an output stream that is empty at
    first *)
Definition _process_lines (rt : runtime) (input : list string) (s : state)
  : result state :=
  s <- process_from rt 1 input (set_written [] s) ;;
  s <- close_current_block rt s ;;
  '(_, s) <- adjust_blockquote_level rt EmptyString s ;;
  Ok s.

(** [BlockParser.process_lines]: what the first pass writes is lost. *)
Definition process_lines (rt : runtime) (input : list string) (s : state)
  : result state :=
  s <- _process_lines rt input s ;;
  let w := wiki s in
  let s :=
    set_toc (Some (w_toc w))
      (set_wiki (MkWikidot (w_args w) [] 0 1) s) in
  _process_lines rt input s.

(** [Wikidot.__init__] and [BlockParser.__init__] *)
Definition init (a : args) : state :=
  MkState (MkWikidot a [] 0 1) None 0 false [] None [].

(** [input_stream.readlines()]: the lines of a text, each with the line
    feed that ends it *)
Fixpoint readlines_from (cur : string) (text : string) : list string :=
  match text with
  | EmptyString => if Str.is_empty cur then [] else [Str.rev cur]
  | String c rest =>
      if Ascii.eqb c Str.newline
      then Str.rev (String c cur) :: readlines_from EmptyString rest
      else readlines_from (String c cur) rest
  end.

Definition readlines (text : string) : list string :=
  readlines_from EmptyString text.

(** [Wikidot(args).to_html(input_stream, output_stream)]: what the
    output stream holds at the end *)
Definition to_html (rt : runtime) (a : args) (text : string)
  : result string :=
  s <- process_lines rt (readlines text) (init a) ;;
  Ok (String.concat EmptyString (map snd (written s))).

End Driver.

(** ** Notions used in the statements *)

Module Props.
Import Re Rx Lexer Inline Parser Blocks Driver.

(** The string holds no line feed. *)
Fixpoint no_newline (s : string) : bool :=
  match s with
  | EmptyString => true
  | String c s' => negb (Ascii.eqb Str.newline c) && no_newline s'
  end.

(** The captured strings hold no line feed. *)
Definition caps_ok (c : caps) : Prop :=
  forall n v, lookup n c = Some v -> no_newline v = true.

(** A continuation of the matcher that keeps [caps_ok] on subjects
    without a line feed. *)
Definition cont_ok (k : cont) : Prop :=
  forall prev s c res,
    no_newline s = true -> caps_ok c -> k prev s c = Some res -> caps_ok res.

(** A run with every object at address 0, and one without prefixes. *)
Definition rt0 : runtime := MkRuntime (fun _ => 0%N) 1000.
Definition no_args : args := MkArgs EmptyString EmptyString EmptyString.

(** The lines of a document, as [readlines] gives them. *)
Definition doc (l : list string) : list string := map (fun s => s ++ nl) l.

(** A string of [k] quote markers. *)
Fixpoint quotes (k : nat) : string :=
  match k with
  | O => EmptyString
  | S k' => String ">" (quotes k')
  end.

(** The number of times the blockquote tracker wrote [tag]. *)
Definition tracked (tag : string) (out : list (writer * string)) : nat :=
  List.length
    (filter (fun e => match fst e with
                      | ByTracker => String.eqb (snd e) tag
                      | _ => false
                      end) out).

(** The line [adjust_blockquote_level] passes on: the content after the
    quote markers, or the line itself inside a code block and when it
    has no quote marker. *)
Definition quote_stripped (cb : option block) (line : string) : string :=
  if is_code cb then line
  else
    match re_search RX_BLOCKQUOTE line with
    | Some md => get md "content"
    | None => line
    end.

(** Fenced blocks are open at blockquote level 0 only. *)
Definition fenced_at_top (s : state) : Prop :=
  is_code (current_block s) || is_math (current_block s) = true ->
  bq_level s = 0.

(** The tracker has written as many more opening tags than closing tags
    as the level says. *)
Definition balanced (s : state) : Prop :=
  tracked bq_open (written s) = tracked bq_close (written s) + bq_level s.

(** What the steps other than the tracker leave as it is: the
    continuation flag, the level, the table of contents, the writes of
    the tracker; and the open block is closed or keeps its class. *)
Record frame (s s1 : state) : Prop := MkFrame {
  fr_continued : continued_line s1 = continued_line s;
  fr_level : bq_level s1 = bq_level s;
  fr_toc : toc s1 = toc s;
  fr_tracked : forall t, tracked t (written s1) = tracked t (written s);
  fr_block : current_block s1 = None
             \/ option_map b_kind (current_block s1)
                = option_map b_kind (current_block s)
}.

(** *** The cells of a table row, after the specification *)







(** *** The lines of a fenced block *)

(** [match.group('content')] for the lines of a block *)
Fixpoint contents (ms : list rematch) : result (list string) :=
  match ms with
  | [] => Ok []
  | m :: ms' =>
      c <- group_str m "content" ;;
      cs <- contents ms' ;;
      Ok (c :: cs)
  end.

(** The lines that are rendered: all but the first when it is blank. *)
Definition kept (cs : list string) : list string :=
  match cs with
  | c :: rest => if is_some (re_search RX_BLANK_LINE c) then rest else cs
  | [] => []
  end.

(** *** Nodes rendered by [Node.__str__] *)

Definition plain_node (k : cls) : bool :=
  match k with
  | Span | Literal | HTMLEntityLiteral => false
  | _ => true
  end.

(** Two runs that differ in the addresses of their objects *)
Definition rt1 : runtime := MkRuntime (fun _ => 140737488355328%N) 1000.
Definition rt2 : runtime := MkRuntime (fun _ => 140737488355344%N) 1000.

(** *** Patterns that consume before they capture *)

(** The pattern takes at least one character whenever it matches. *)
Fixpoint consumes (r : regex) : bool :=
  match r with
  | Bol _ | Eol _ => false
  | Lit l => negb (Str.is_empty l)
  | Cls _ => true
  | Seq r1 r2 => consumes r1 || consumes r2
  | Alt r1 r2 => consumes r1 && consumes r2
  | Rep _ lo _ r1 => (0 <? lo)%nat && consumes r1
  | Grp _ r1 => consumes r1
  end.

(** Every group named [g] of the pattern starts after a character has
    been taken; [before] says one has been taken before the pattern. *)
Fixpoint guarded (g : string) (before : bool) (r : regex) : bool :=
  match r with
  | Bol _ | Eol _ | Lit _ | Cls _ => true
  | Seq r1 r2 => guarded g before r1 && guarded g (before || consumes r1) r2
  | Alt r1 r2 => guarded g before r1 && guarded g before r2
  | Rep _ _ _ r1 => guarded g before r1
  | Grp n r1 => (if String.eqb n g then before else true) && guarded g before r1
  end.

(** The group [g], when captured, is shorter than [n]. *)
Definition short (g : string) (n : nat) (c : caps) : Prop :=
  forall v, lookup g c = Some v -> (String.length v < n)%nat.

(** The condition under which a continuation keeps [short]: it is
    entered on a subject no longer than [n], and shorter when a
    character has been taken. *)
Definition keeps (g : string) (n : nat) (taken : bool) (k : cont) : Prop :=
  forall prev s c res,
    (String.length s <= n)%nat ->
    (taken = true -> (String.length s < n)%nat) ->
    short g n c -> k prev s c = Some res -> short g n res.

(** The invariant of the loop of [str_lex] *)
Definition lex_inv (st : lex) : Prop :=
  text st = Str.drop (text_i st) (prefix_and_text st).

(** *** Sentinel tokens in the output of [token_lex] *)

(** The same token *)
Definition same (x y : token) : bool :=
  match x, y with
  | TStr a, TStr b => String.eqb a b
  | LITERAL_START_TOKEN, LITERAL_START_TOKEN => true
  | LITERAL_END_TOKEN, LITERAL_END_TOKEN => true
  | HTML_ENTITY_LITERAL_START_TOKEN, HTML_ENTITY_LITERAL_START_TOKEN => true
  | HTML_ENTITY_LITERAL_END_TOKEN, HTML_ENTITY_LITERAL_END_TOKEN => true
  | _, _ => false
  end.

Definition b2n (b : bool) : nat := if b then 1 else 0.

(** How often the token [x] occurs in [l] *)
Definition occ (x : token) (l : list token) : nat :=
  List.length (filter (same x) l).

(** The tokens [s] and [e] alternate in [l], an [s] first and an [e]
    last: up to any position there are as many [s] as [e], or one
    more, and in the whole list as many. *)
Definition paired (s e : token) (l : list token) : Prop :=
  (forall n, (occ e (firstn n l) <= occ s (firstn n l)
              <= S (occ e (firstn n l)))%nat)
  /\ occ s l = occ e l.

(** The index [i] is -1, or it is the place of a marker [m] after which
    neither [s] nor [e] is left unmatched. *)
Definition open_at (s e : token) (m : string) (i : Z) (l : list token)
    : Prop :=
  i = (-1)%Z
  \/ ((0 <= i)%Z
      /\ nth_error l (Z.to_nat i) = Some (TStr m)
      /\ forall n, (Z.to_nat i <= n)%nat ->
                   occ s (firstn n l) = occ e (firstn n l)).

(** What the loop of [token_lex] keeps true of one kind of sentinel *)
Definition kind_inv (s e : token) (m : string) (i : Z) (l : list token)
    : Prop :=
  paired s e l /\ open_at s e m i l.

(** What the loop of [token_lex] keeps true *)
Definition grp_inv (g : grp) : Prop :=
  kind_inv LITERAL_START_TOKEN LITERAL_END_TOKEN "@@" (last_idx g) (out g)
  /\ kind_inv HTML_ENTITY_LITERAL_START_TOKEN HTML_ENTITY_LITERAL_END_TOKEN
              "@<" (last_html_entity_idx g) (out g).

(** *** The lists and list items that [List.close] has open *)

(** The items of the levels 0 to [t] are open, and no other. *)
Definition lines_open_upto (t : Z) (l : Lists.lstate) : Prop :=
  forall k, Lists.inside k (Lists.inside_line l)
            = ((0 <=? k)%Z && (k <=? t)%Z).

(** After an item of level [last]: the lists of the levels 0 to [last]
    are open, each inside an open item. *)
Definition lists_open_upto (last : Z) (l : Lists.lstate) : Prop :=
  List.length (Lists.opened_lists l) = Z.to_nat (last + 1)
  /\ lines_open_upto last l.

(** The matches of the lines of a bulleted list *)
Definition ul_matches (ls : list string) : list rematch :=
  flat_map (fun l => match re_search Rx.RX_UL l with
                     | Some m => [m]
                     | None => []
                     end) ls.

(** *** Headers and divs in a pass *)

(** The headers collected bear the numbers 0, 1, 2, ... in their order,
    and the next number is their count. *)
Definition numbered (w : wikidot) : Prop :=
  map hd_toc_number (w_toc w) = seq 0 (next_toc_number w).

(** The opening tags of divs written *)
Definition div_opened (out : list (writer * string)) : nat :=
  List.length
    (filter (fun e => match fst e with
                      | ByDiv => negb (String.eqb (snd e) ("</div>" ++ nl))
                      | _ => false
                      end) out).

(** The closing tags of divs written *)
Definition div_closed (out : list (writer * string)) : nat :=
  List.length
    (filter (fun e => match fst e with
                      | ByDiv => String.eqb (snd e) ("</div>" ++ nl)
                      | _ => false
                      end) out).

(** The open divs account for the tags written, [k] divs being open
    when the output was empty. *)
Definition divs_accounted (k : nat) (s : state) : Prop :=
  (div_opened (written s) + k
   = div_closed (written s) + List.length (divs s))%nat.

(** *** What a pattern matches, and what its groups capture *)

(** [n] strings of [L] in a row *)
Fixpoint pow (L : string -> Prop) (n : nat) (w : string) : Prop :=
  match n with
  | O => w = EmptyString
  | S n' => exists w1 w2, w = w1 ++ w2 /\ L w1 /\ pow L n' w2
  end.

Definition within (hi : option nat) (n : nat) : Prop :=
  match hi with
  | Some h => (n <= h)%nat
  | None => True
  end.

(** The strings that a pattern can take from the subject, whatever
    comes before and after them *)
Fixpoint den (r : regex) (w : string) : Prop :=
  match r with
  | Bol _ | Eol _ => w = EmptyString
  | Lit l => w = l
  | Cls p => exists a, w = String a EmptyString /\ p a = true
  | Seq r1 r2 => exists w1 w2, w = w1 ++ w2 /\ den r1 w1 /\ den r2 w2
  | Alt r1 r2 => den r1 w \/ den r2 w
  | Rep _ lo hi r1 =>
      exists n, (lo <= n)%nat /\ within hi n /\ pow (den r1) n w
  | Grp _ r1 => den r1 w
  end.

(** Every group [g] of the pattern can only take strings of [Q]. *)
Fixpoint grp_ok (g : string) (Q : string -> Prop) (r : regex) : Prop :=
  match r with
  | Bol _ | Eol _ | Lit _ | Cls _ => True
  | Seq r1 r2 | Alt r1 r2 => grp_ok g Q r1 /\ grp_ok g Q r2
  | Rep _ _ _ r1 => grp_ok g Q r1
  | Grp n r1 => grp_ok g Q r1 /\ (n = g -> forall w, den r1 w -> Q w)
  end.

(** The group [g] takes part in every match of the pattern. *)
Fixpoint must (g : string) (r : regex) : bool :=
  match r with
  | Bol _ | Eol _ | Lit _ | Cls _ => false
  | Seq r1 r2 => must g r1 || must g r2
  | Alt r1 r2 => must g r1 && must g r2
  | Rep _ lo _ r1 => (0 <? lo)%nat && must g r1
  | Grp n r1 => String.eqb g n || must g r1
  end.

(** What the group [g] has captured is in [Q]. *)
Definition caps_sat (g : string) (Q : string -> Prop) (c : caps) : Prop :=
  forall v, lookup g c = Some v -> Q v.

(** The group [g] has captured. *)
Definition has (g : string) (c : caps) : Prop := lookup g c <> None.

(** The continuation [k] gives [res] after the pattern [r] has taken a
    string from the subject [s], the captures [c] having become some
    [c'] that keep the two properties. *)
Definition reaches (g : string) (Q : string -> Prop) (r : regex)
    (s : string) (c : caps) (k : cont) (res : caps) : Prop :=
  exists p' w s' c',
    s = w ++ s' /\ den r w /\ caps_sat g Q c'
    /\ (must g r = true \/ has g c -> has g c')
    /\ k p' s' c' = Some res.

(** The pattern whose match [analyze_line] returns with a block type *)
Definition pattern_of (ty : string) : option regex :=
  if String.eqb ty BLOCK_TYPE_UL then Some RX_UL
  else if String.eqb ty BLOCK_TYPE_OL then Some RX_OL
  else if String.eqb ty BLOCK_TYPE_HN then Some RX_HN
  else if String.eqb ty BLOCK_TYPE_HR then Some RX_HR
  else if String.eqb ty BLOCK_TYPE_TABLE then Some RX_TABLE
  else if String.eqb ty BLOCK_TYPE_EMPTY then Some RX_EMPTY
  else if String.eqb ty BLOCK_TYPE_P then Some RX_P
  else None.

(** *** The stack of the inline parser and its flags *)

(** The class of the node [nd] of a store *)
Definition cls_at (s : store) (nd : nat) : cls :=
  match nth_error s nd with
  | Some n => n_cls n
  | None => Node
  end.

(** The nodes of the class [Span] on a stack *)
Definition open_spans (s : store) (stack : list nat) : Z :=
  Z.of_nat
    (List.length (filter (fun nd => cls_eqb (cls_at s nd) Span) stack)).

(** A node of the class [k] is on the stack. *)
Definition on_stack (s : store) (stack : list nat) (k : cls) : Prop :=
  exists nd, In nd stack /\ cls_at s nd = k.

(** What tells the parser that a node of the class [k] is open: its
    flag, and for a span a depth above zero. *)
Definition flag_of (k : cls) (p : parser) : bool :=
  match k with
  | Node => false
  | Italic => italic p
  | Bold => bold p
  | FixedWidth => fixed_width p
  | StrikeThru => strike_thru p
  | Underline => underline p
  | Subscript => subscript p
  | Superscript => superscript p
  | Span => (0 <? span_depth p)%Z
  | Color => color p
  | Size => size p
  | Literal => escape_literal p
  | HTMLEntityLiteral => no_escape_literal p
  end.

(** The stack holds nodes of the store, and the depth counts its spans. *)
Definition stack_ok (s : store) (stack : list nat) (d : Z) : Prop :=
  Forall (fun nd => (nd < List.length s)%nat) stack
  /\ d = open_spans s stack.

(** A flag that is set, but for the class [but], has its node on the
    stack. *)
Definition flags_ok (but : option cls) (stack : list nat) (p : parser)
    : Prop :=
  forall k, Some k <> but -> flag_of k p = true -> on_stack (h p) stack k.

(** The state of a stack [stack] in the parser [p], the flag of the
    class [but] apart *)
Definition inv (but : option cls) (stack : list nat) (p : parser) : Prop :=
  stack_ok (h p) stack (span_depth p) /\ flags_ok but stack p.

Definition parser_ok (p : parser) : Prop := inv None (nodes p) p.

(** What the blocks do with a parser: they parse a line, add a line
    break, or, between the items of a list, take all nodes off the
    stack and put new ones back. *)
Inductive use : Type :=
| Parse (toks : list token)
| Break
| Renew.

Definition apply_use (a : args) (u : use) (p : parser) : result parser :=
  match u with
  | Parse toks => parse a toks p
  | Break => add_text LINE_BREAK p
  | Renew =>
      ' (removed, p) <- remove_all_nodes p ;;
      restore_all_nodes removed p
  end.

(** A new parser put to the uses [us], one after the other *)
Definition used (a : args) (us : list use) : result parser :=
  fold_left (fun r u => p <- r ;; apply_use a u p) us (Ok Parser.init).

(** The store [s'] holds the nodes of [s], with their classes. *)
Definition extends (s s' : store) : Prop :=
  (List.length s <= List.length s')%nat
  /\ forall nd, (nd < List.length s)%nat -> cls_at s' nd = cls_at s nd.

(** The computation gives a result of [P], or raises another exception
    than the two of the stack: the one for a negative depth of spans and
    the one for a class that is not on the stack. *)
Definition fine {A} (P : A -> Prop) (r : result A) : Prop :=
  match r with
  | Ok x => P x
  | Raise e => e <> "negative span depth" /\ e <> "not on stack"
  end.

(** *** The references between the nodes *)

(** The nodes that the node [n], which is the node [i], refers to as
    children or as its closure come after it, below [len]. *)
Definition node_forward (i len : nat) (n : node) : Prop :=
  (forall nd, In (Sub nd) (children n) -> (i < nd < len)%nat)
  /\ (forall nd, n_closure n = ClosureOf nd -> (i < nd < len)%nat).

Definition forward_upto (len : nat) (s : store) : Prop :=
  forall i n, nth_error s i = Some n -> node_forward i len n.

(** Every reference of the store goes to a node made later. *)
Definition forward (s : store) : Prop := forward_upto (List.length s) s.

(** A child that is no node *)
Definition not_sub (c : child) : Prop :=
  match c with
  | Sub _ => False
  | _ => True
  end.

(** A node as the constructors make it *)
Definition fresh (n : node) : Prop :=
  children n = [] /\ n_closure n = OPEN_NODE.

Definition both (p : parser) : Prop := parser_ok p /\ forward (h p).


(** *** The open nodes *)

(** The closure of the node [nd] of a store *)
Definition closure_at (s : store) (nd : nat) : closure :=
  match nth_error s nd with
  | Some n => n_closure n
  | None => OPEN_NODE
  end.

(** The nodes of the stack have the closure they were made with. *)
Definition stack_open (s : store) (stack : list nat) : Prop :=
  forall nd, In nd stack -> closure_at s nd = OPEN_NODE.

(** The node was opened and nothing has closed it: it is on the stack,
    or [restore_nodes] has given it for closure the node that took its
    place, of which the same holds. *)
Inductive left_open (s : store) (stack : list nat) : nat -> Prop :=
| open_on_stack (nd : nat) : In nd stack -> left_open s stack nd
| open_by_next (nd nd' : nat) (n : node) :
    nth_error s nd = Some n -> n_closure n = ClosureOf nd' ->
    left_open s stack nd' -> left_open s stack nd.

(** The nodes of the class [Color] on a stack *)
Definition open_colors (s : store) (stack : list nat) : nat :=
  List.length (filter (fun nd => cls_eqb (cls_at s nd) Color) stack).

(** The node [y] is a child of the node [x]. *)
Definition child_of (s : store) (x y : nat) : Prop :=
  exists n, nth_error s x = Some n /\ In (Sub y) (children n).

(** The node [y] is below the node [x]: it is a child of [x], or a
    child of a node below [x]. *)
Inductive under (s : store) (x : nat) : nat -> Prop :=
| under_child (y : nat) : child_of s x y -> under s x y
| under_more (y z : nat) : under s x y -> child_of s y z -> under s x z.

(** No colour span is below a colour span. *)
Definition unnested (s : store) : Prop :=
  forall x y, under s x y -> cls_at s x = Color -> cls_at s y <> Color.

(** The stack, its top first, is a path of the tree: a node of the
    stack is a child of the next node of the stack and of no other
    node, and the last one is a child of no node. *)
Fixpoint path (s : store) (stack : list nat) : Prop :=
  match stack with
  | [] => True
  | y :: rest =>
      (forall x, child_of s x y -> hd_error rest = Some x) /\ path s rest
  end.

(** The children are nodes of the store. *)
Definition kids_inside (s : store) : Prop :=
  forall x y, child_of s x y -> (y < List.length s)%nat.

Definition tree (s : store) (stack : list nat) : Prop :=
  kids_inside s /\ path s stack /\ unnested s.

(** No node is twice on the stack, the nodes of the stack are open,
    the flag for a colour span tells whether the stack holds one, so
    that it never holds two, and the stack is a path of a tree in which
    no colour span is below another. *)
Definition neat_on (stack : list nat) (p : parser) : Prop :=
  NoDup stack
  /\ stack_open (h p) stack
  /\ open_colors (h p) stack = (if color p then 1 else 0)%nat
  /\ tree (h p) stack.

Definition neat (p : parser) : Prop := both p /\ neat_on (nodes p) p.

End Props.

(** ** The paragraph rule matches every line *)

Module Classifier.
Import Re Rx Lexer Inline Parser Blocks Driver Props.
Local Open Scope nat_scope.

Lemma greedy_total (body : matcher) (hi : option nat) (k : cont)
    (fuel i : nat) (prev : option ascii) (s : string) (c : caps) :
  k prev s c <> None ->
  rep_loop body true 0 hi k fuel i prev s c <> None.
Proof.
  intros Hk. destruct fuel as [|fuel]; simpl.
  - exact Hk.
  - destruct (if below hi i then _ else None); [discriminate | exact Hk].
Qed.

Lemma lazy_dot_total (k : cont) :
  (forall prev c, k prev EmptyString c <> None) ->
  forall s, no_newline s = true ->
  forall fuel i prev c, String.length s <= fuel ->
  rep_loop (rx dot) false 0 None k fuel i prev s c <> None.
Proof.
  intros Hk s. induction s as [|a s IH]; intros Hs fuel i prev c Hfuel.
  - destruct fuel as [|fuel]; simpl.
    + apply Hk.
    + destruct (k prev EmptyString c) eqn:E; [discriminate|].
      exfalso. exact (Hk _ _ E).
  - destruct fuel as [|fuel]; [simpl in Hfuel; lia|].
    cbn [no_newline] in Hs. apply andb_prop in Hs. destruct Hs as [Ha Hs].
    cbn [rep_loop Nat.leb below].
    destruct (k prev (String a s) c); [discriminate|].
    cbn [rx dot none_of]. rewrite Ha.
    replace (String.length s <? String.length (String a s)) with true
      by (symmetry; apply Nat.ltb_lt; simpl; lia).
    apply IH; [exact Hs | simpl in Hfuel; lia].
Qed.

Lemma search_at_start (r : regex) (prev : option ascii) (s : string) :
  rx r prev s [] accept <> None -> search_from r prev s <> None.
Proof.
  intros H. destruct s; cbn [search_from];
    destruct (rx r prev _ [] accept); congruence.
Qed.

Lemma RX_P_matches (s : string) :
  no_newline s = true -> re_search RX_P s <> None.
Proof.
  intros Hs. unfold re_search, mk.
  assert (H : search_from RX_P None s <> None).
  { apply search_at_start.
    unfold RX_P. cbn [cat rx at_bol bol star].
    apply greedy_total.
    cbn [rx star_lazy].
    apply lazy_dot_total; [| exact Hs | lia].
    intros prev c. cbn. discriminate. }
  destruct (search_from RX_P None s); [discriminate | congruence].
Qed.

Lemma analyze_line_total_on (line : string) (in_table : bool) :
  no_newline line = true ->
  exists ty m, analyze_line line in_table = Ok (ty, m).
Proof.
  intros Hs. pose proof (RX_P_matches line Hs) as HP.
  unfold analyze_line.
  destruct in_table; cbn [negb];
    repeat match goal with
           | |- context [match re_search ?r line with _ => _ end] =>
               destruct (re_search r line)
           end;
    try (eexists; eexists; reflexivity).
  all: exfalso; apply HP; reflexivity.
Qed.

(** *** What the matcher captures on a line holds no line feed *)

Lemma take_no_newline (s : string) :
  no_newline s = true -> forall n, no_newline (Str.take n s) = true.
Proof.
  induction s as [|a s IH]; intros Hs n; destruct n; try reflexivity.
  cbn [no_newline Str.take] in *. apply andb_prop in Hs.
  destruct Hs as [-> Hs]. rewrite (IH Hs). reflexivity.
Qed.

Lemma skip_lit_no_newline (l : string) :
  forall prev s prev' s',
  skip_lit l prev s = Some (prev', s') ->
  no_newline s = true -> no_newline s' = true.
Proof.
  induction l as [|a l IH]; intros prev s prev' s'; cbn [skip_lit].
  - intros H. injection H as <- <-. auto.
  - destruct s as [|b s]; [discriminate|].
    destruct (Ascii.eqb a b); [|discriminate].
    intros H Hs. cbn [no_newline] in Hs. apply andb_prop in Hs.
    apply (IH _ _ _ _ H), Hs.
Qed.

Lemma caps_ok_cons (n v : string) (c : caps) :
  no_newline v = true -> caps_ok c -> caps_ok ((n, v) :: c).
Proof.
  intros Hv Hc n' v'. cbn [lookup].
  destruct (String.eqb n' n); [|apply Hc].
  intros H. injection H as <-. exact Hv.
Qed.

Lemma rep_loop_ok (body : matcher) :
  (forall k, cont_ok k -> cont_ok (fun p s c => body p s c k)) ->
  forall g lo hi k, cont_ok k ->
  forall fuel i, cont_ok (rep_loop body g lo hi k fuel i).
Proof.
  intros Hbody g lo hi k Hk fuel.
  induction fuel as [|fuel IH]; intros i prev s c res Hs Hc; cbn [rep_loop].
  - destruct (lo <=? i); [apply (Hk _ _ _ _ Hs Hc) | discriminate].
  - assert (Hmore : forall res,
      (if below hi i
       then body prev s c
              (fun prev' s' c' =>
                 if String.length s' <? String.length s
                 then rep_loop body g lo hi k fuel (S i) prev' s' c'
                 else None)
       else None) = Some res -> caps_ok res).
    { intros r. destruct (below hi i); [|discriminate].
      apply (Hbody _) with (prev := prev) (s := s) (c := c); try assumption.
      intros p' s' c' r' Hs' Hc'.
      destruct (String.length s' <? String.length s); [|discriminate].
      apply (IH (S i) _ _ _ _ Hs' Hc'). }
    assert (Hstop : forall res,
      (if lo <=? i then k prev s c else None) = Some res -> caps_ok res).
    { intros r. destruct (lo <=? i); [apply (Hk _ _ _ _ Hs Hc) | discriminate]. }
    destruct g.
    + destruct (if below hi i then _ else None) as [r|] eqn:E.
      * intros H. injection H as <-. apply (Hmore r eq_refl).
      * apply Hstop.
    + destruct (if lo <=? i then _ else None) as [r|] eqn:E.
      * intros H. injection H as <-. apply (Hstop r eq_refl).
      * apply Hmore.
Qed.

Lemma rx_ok (r : regex) :
  forall k, cont_ok k -> cont_ok (fun p s c => rx r p s c k).
Proof.
  induction r as [m|m|l|f|r1 IH1 r2 IH2|r1 IH1 r2 IH2|g lo hi r1 IH1|n r1 IH1];
    intros k Hk prev s c res Hs Hc; cbn [rx].
  - destruct (at_bol m prev); [apply (Hk _ _ _ _ Hs Hc) | discriminate].
  - destruct (at_eol m s); [apply (Hk _ _ _ _ Hs Hc) | discriminate].
  - destruct (skip_lit l prev s) as [[p' s']|] eqn:E; [|discriminate].
    apply (Hk _ _ _ _ (skip_lit_no_newline _ _ _ _ _ E Hs) Hc).
  - destruct s as [|a s]; [discriminate|].
    destruct (f a); [|discriminate].
    cbn [no_newline] in Hs. apply andb_prop in Hs.
    apply (Hk _ _ _ _ (proj2 Hs) Hc).
  - apply (IH1 _ (IH2 k Hk) _ _ _ _ Hs Hc).
  - destruct (rx r1 prev s c k) as [x|] eqn:E.
    + intros H. injection H as <-. apply (IH1 k Hk _ _ _ _ Hs Hc E).
    + apply (IH2 k Hk _ _ _ _ Hs Hc).
  - apply (rep_loop_ok (rx r1) IH1 g lo hi k Hk _ _ _ _ _ _ Hs Hc).
  - apply (IH1 (fun prev' s' c' =>
                  k prev' s'
                    ((n, Str.take (String.length s - String.length s') s) :: c')));
      try assumption.
    intros p' s' c' r' Hs' Hc'. apply (Hk _ _ _ _ Hs').
    apply caps_ok_cons; [apply take_no_newline, Hs | exact Hc'].
Qed.

Lemma search_ok (r : regex) (s : string) :
  forall prev c, no_newline s = true ->
  search_from r prev s = Some c -> caps_ok c.
Proof.
  assert (Ha : cont_ok accept).
  { intros p s0 c res _ Hc H. injection H as <-. exact Hc. }
  assert (H0 : caps_ok []) by (intros n v H; discriminate H).
  induction s as [|a s IH]; intros prev c Hs; cbn [search_from].
  - destruct (rx r prev EmptyString [] accept) as [x|] eqn:E; [|discriminate].
    intros H. injection H as <-. apply (rx_ok r accept Ha _ _ _ _ Hs H0 E).
  - destruct (rx r prev (String a s) [] accept) as [x|] eqn:E.
    + intros H. injection H as <-. apply (rx_ok r accept Ha _ _ _ _ Hs H0 E).
    + cbn [no_newline] in Hs. apply andb_prop in Hs. apply IH, Hs.
Qed.

Lemma get_no_newline (r : regex) (s : string) (md : rematch) (n : string) :
  no_newline s = true -> re_search r s = Some md ->
  no_newline (get md n) = true.
Proof.
  unfold re_search, mk, get. intros Hs.
  destruct (search_from r None s) as [c|] eqn:E; [|discriminate].
  intros H. injection H as <-. cbn [m_caps].
  destruct (lookup n c) as [v|] eqn:El; [|reflexivity].
  apply (search_ok r s None c Hs E n v El).
Qed.

Lemma quote_stripped_no_newline (cb : option block) (line : string) :
  no_newline line = true -> no_newline (quote_stripped cb line) = true.
Proof.
  intros Hs. unfold quote_stripped.
  destruct (is_code cb); [exact Hs|].
  destruct (re_search RX_BLOCKQUOTE line) as [md|] eqn:E; [|exact Hs].
  apply (get_no_newline _ _ _ _ Hs E).
Qed.

(** *** The lines of an input hold no line feed once stripped *)

Lemma rstrip_rev_onto (s : string) :
  forall acc, no_newline s = true ->
  no_newline (Str.rstrip acc) = true ->
  no_newline (Str.rstrip (Str.rev_onto s acc)) = true.
Proof.
  induction s as [|a s IH]; intros acc Hs Hacc; [exact Hacc|].
  cbn [Str.rev_onto no_newline] in *. apply andb_prop in Hs.
  destruct Hs as [Ha Hs]. apply IH; [exact Hs|].
  cbn [Str.rstrip].
  destruct (Str.is_empty (Str.rstrip acc) && Str.is_space a); [reflexivity|].
  cbn [no_newline]. rewrite Ha, Hacc. reflexivity.
Qed.

Lemma readlines_from_stripped (text : string) :
  forall cur, no_newline cur = true ->
  Forall (fun raw => no_newline (Str.rstrip raw) = true)
         (readlines_from cur text).
Proof.
  induction text as [|a text IH]; intros cur Hcur; cbn [readlines_from].
  - destruct (Str.is_empty cur); constructor; [|constructor].
    apply rstrip_rev_onto; [exact Hcur | reflexivity].
  - destruct (Ascii.eqb a Str.newline) eqn:E.
    + constructor; [|apply IH; reflexivity].
      apply Ascii.eqb_eq in E. subst a.
      unfold Str.rev. cbn [Str.rev_onto].
      apply rstrip_rev_onto; [exact Hcur | reflexivity].
    + apply IH. cbn [no_newline]. rewrite Hcur, Ascii.eqb_sym, E. reflexivity.
Qed.

(** C5. The paragraph pattern matches every string without a line feed,
    so on such a string [analyze_line] returns a block type and a match
    and never raises, whether or not a table is open; and the strings
    the driver classifies are of this kind: for every input text and
    every line [readlines] gives, right-stripped and without its quote
    markers, [analyze_line] returns. *)
Theorem analyze_line_total :
  (forall (line : string) (in_table : bool),
     no_newline line = true ->
     re_search RX_P line <> None
     /\ exists ty m, analyze_line line in_table = Ok (ty, m))
  /\ (forall (text raw : string) (cb : option block) (in_table : bool),
        In raw (readlines text) ->
        exists ty m,
          analyze_line (quote_stripped cb (Str.rstrip raw)) in_table
          = Ok (ty, m)).
Proof.
  split.
  - intros line t Hs. split; [apply RX_P_matches, Hs|].
    apply analyze_line_total_on, Hs.
  - intros text raw cb t Hin. apply analyze_line_total_on.
    apply quote_stripped_no_newline.
    pose proof (readlines_from_stripped text EmptyString eq_refl) as H.
    rewrite Forall_forall in H. apply (H raw Hin).
Qed.

Lemma analyze_line_total_witness :
  In ("> quoted _" ++ nl) (readlines ("first" ++ nl ++ "> quoted _" ++ nl))
  /\ exists ty m,
       analyze_line
         (quote_stripped None (Str.rstrip ("> quoted _" ++ nl))) false
       = Ok (ty, m).
Proof.
  assert (H : In ("> quoted _" ++ nl)
                 (readlines ("first" ++ nl ++ "> quoted _" ++ nl)))
    by (right; left; reflexivity).
  split; [exact H|].
  apply (proj2 analyze_line_total _ _ None false H).
Defined.

End Classifier.

(** ** The driver *)

Module DriverProps.
Import Re Rx Lexer Inline Parser Blocks Driver Props.
Local Open Scope nat_scope.

(** [close_current_block] writes what the block renders, as a block,
    leaves no block open and changes nothing else. *)
Lemma close_current_block_spec (rt : runtime) (s s1 : state) :
  close_current_block rt s = Ok s1 ->
  exists ws,
    match current_block s with
    | Some b => close rt (w_args (wiki s)) b = Ok ws
    | None => ws = []
    end
    /\ s1 = set_current_block None (emit ByBlock ws s).
Proof.
  unfold close_current_block. destruct (current_block s) as [b|] eqn:E.
  - destruct (close rt (w_args (wiki s)) b) as [ws|e]; cbn [bind]; [|discriminate].
    intros H. injection H as <-. exists ws. split; reflexivity.
  - intros H. injection H as <-. exists []. split; [reflexivity|].
    unfold emit. cbn [map]. rewrite app_nil_r. destruct s; reflexivity.
Qed.

(** C10. When no div is open, the end marker of a div does what closing
    the open block does and nothing more: the block is rendered, no
    closing tag of a div is written, the stack stays empty, and the line
    is consumed. It fails only when rendering the block fails. *)
Theorem div_end_on_empty_stack (rt : runtime) (s : state) :
  divs s = [] ->
  check_for_div rt "[[/div]]" s
  = (s1 <- close_current_block rt s ;; Ok (true, s1))
  /\ forall s1, close_current_block rt s = Ok s1 ->
       current_block s1 = None /\ divs s1 = []
       /\ exists ws,
            match current_block s with
            | Some b => close rt (w_args (wiki s)) b = Ok ws
            | None => ws = []
            end
            /\ written s1 = (written s ++ map (pair ByBlock) ws)%list.
Proof.
  intros Hd. split.
  - unfold check_for_div.
    replace (re_search RX_DIV_START "[[/div]]") with (@None rematch)
      by (vm_compute; reflexivity).
    replace (re_search RX_DIV_END "[[/div]]")
      with (Some (MkMatch [] [])) by (vm_compute; reflexivity).
    destruct (close_current_block rt s) as [s1|e] eqn:E; cbn [bind];
      [|reflexivity].
    destruct (close_current_block_spec rt s s1 E) as (ws & _ & ->).
    cbn. rewrite Hd. reflexivity.
  - intros s1 E. destruct (close_current_block_spec rt s s1 E) as (ws & Hws & ->).
    cbn. repeat split; [exact Hd|]. exists ws. split; [exact Hws | reflexivity].
Qed.

Lemma div_end_on_empty_stack_witness :
  check_for_div rt0 "[[/div]]" (init no_args)
  = (s1 <- close_current_block rt0 (init no_args) ;; Ok (true, s1)).
Proof.
  apply (div_end_on_empty_stack rt0 (init no_args)). reflexivity.
Defined.


Lemma search_hit (r : regex) (s : string) (c : caps) :
  rx r None s [] accept = Some c -> search_from r None s = Some c.
Proof. intros H. destruct s; cbn [search_from]; rewrite H; reflexivity. Qed.

Lemma greedy_quotes (K : cont) (c : caps) (r : caps) :
  (forall prev, K prev EmptyString c = Some r) ->
  forall k fuel i prev, k < fuel -> 1 <= i + k ->
  rep_loop (rx (chr ">")) true 1 None K fuel i prev (quotes k) c = Some r.
Proof.
  intros HK k. induction k as [|k IH]; intros fuel i prev Hf Hi;
    (destruct fuel as [|fuel]; [lia|]).
  - cbn [rep_loop quotes below rx chr].
    replace (1 <=? i) with true by (symmetry; apply Nat.leb_le; lia).
    apply HK.
  - cbn [rep_loop quotes below rx chr].
    replace (Ascii.eqb ">" ">") with true by reflexivity.
    replace (String.length (quotes k) <? String.length (String ">" (quotes k)))
      with true by (symmetry; apply Nat.ltb_lt; simpl; lia).
    rewrite IH by lia. reflexivity.
Qed.

Lemma take_all (s : string) : Str.take (String.length s - 0) s = s.
Proof.
  rewrite Nat.sub_0_r.
  induction s as [|a s IH]; simpl; [|rewrite IH]; reflexivity.
Qed.

Lemma length_quotes (k : nat) : String.length (quotes k) = k.
Proof. induction k; simpl; congruence. Qed.

(** On a line of quote markers the blockquote pattern captures the
    markers and an empty content. *)
Lemma bq_quotes (k : nat) :
  0 < k ->
  re_search RX_BLOCKQUOTE (quotes k)
  = Some (MkMatch (group_names RX_BLOCKQUOTE)
            [("content", EmptyString); ("greater_than_signs", quotes k)]).
Proof.
  intros Hk. unfold re_search.
  rewrite (search_hit _ _ [("content", EmptyString);
                           ("greater_than_signs", quotes k)]);
    [reflexivity|].
  unfold RX_BLOCKQUOTE. cbn [cat rx at_bol bol plus].
  apply greedy_quotes; [| rewrite length_quotes; lia | lia].
  intros prev. change (String.length EmptyString) with 0.
  rewrite take_all. reflexivity.
Qed.

Lemma set_bq_level_same (s : state) : set_bq_level (bq_level s) s = s.
Proof. destruct s; reflexivity. Qed.

Lemma adjust_same_level (rt : runtime) (s : state) :
  0 < bq_level s -> is_code (current_block s) = false ->
  adjust_blockquote_level rt (quotes (bq_level s)) s = Ok (EmptyString, s).
Proof.
  intros Hk Hc. unfold adjust_blockquote_level. rewrite Hc.
  rewrite bq_quotes by exact Hk.
  unfold get. cbn [m_caps lookup String.eqb Ascii.eqb Bool.eqb].
  rewrite length_quotes, Nat.eqb_refl. cbn [negb bind].
  rewrite Nat.ltb_irrefl, set_bq_level_same. reflexivity.
Qed.

Lemma check_for_div_empty_line (rt : runtime) (s : state) :
  check_for_div rt EmptyString s = Ok (false, s).
Proof. reflexivity. Qed.

Lemma plain_empty_line (rt : runtime) (s : state) :
  0 < bq_level s ->
  exists m, plain rt EmptyString s = Ok (Some (BLOCK_TYPE_EMPTY, m), s).
Proof.
  intros Hk. unfold plain.
  replace (bq_level s =? 0) with false
    by (symmetry; apply Nat.eqb_neq; lia).
  destruct (in_table (current_block s)); eexists; vm_compute; reflexivity.
Qed.

(** A line made of as many quote markers as the level is skipped, and
    the state is the same after it. *)
Lemma quotes_at_level_skipped (rt : runtime) (n : nat) (raw : string)
    (s : state) :
  fenced_at_top s ->
  0 < bq_level s ->
  Str.rstrip raw = quotes (bq_level s) ->
  process_line rt n raw s = Ok (SkippedEmpty, s).
Proof.
  intros Htop Hk Hraw.
  assert (Hcm : is_code (current_block s) = false
                /\ is_math (current_block s) = false).
  { unfold fenced_at_top in Htop.
    destruct (is_code (current_block s)), (is_math (current_block s));
      try (specialize (Htop eq_refl); lia). auto. }
  destruct Hcm as [Hc Hm].
  unfold process_line. rewrite Hraw.
  rewrite adjust_same_level by assumption. cbn [bind].
  change (String.eqb EmptyString TOC_LITERAL) with false. cbv iota.
  rewrite check_for_div_empty_line. cbn [bind].
  assert (Hp : block_type_and_match rt EmptyString s = plain rt EmptyString s).
  { unfold block_type_and_match, is_code, is_math in *.
    destruct (current_block s) as [b|]; [|reflexivity].
    destruct (b_kind b); try reflexivity; discriminate. }
  rewrite Hp. destruct (plain_empty_line rt s Hk) as [m ->]. cbn [bind].
  replace (0 <? bq_level s) with true by (symmetry; apply Nat.ltb_lt; lia).
  reflexivity.
Qed.

(** C9, amended. At a positive blockquote level, a line made of quote
    markers, and of white space after them, is never added to a block.
    When the markers are as many as the level, the state is the same
    after the line: no block is closed, the level is kept and nothing
    is written. When their number [k] differs from the level, the open
    block is closed first, and the line fails if that fails; then the
    tracker writes the opening tags from the level up to [k], or the
    closing tags from the level down to [k], and the level is [k]. The
    state is one where a fenced block is open at level 0 only, as every
    state the driver reaches is. *)
Theorem quote_only_line_skipped (rt : runtime) (n : nat) (raw : string)
    (k : nat) (s : state) :
  fenced_at_top s ->
  0 < bq_level s ->
  0 < k ->
  Str.rstrip raw = quotes k ->
  process_line rt n raw s
  = if k =? bq_level s then Ok (SkippedEmpty, s)
    else
      s1 <- close_current_block rt s ;;
      Ok (SkippedEmpty,
          set_bq_level k
            (if bq_level s <? k
             then emit ByTracker (repeat bq_open (k - bq_level s)) s1
             else emit ByTracker (repeat bq_close (bq_level s - k)) s1)).
Proof.
  intros Htop Hl Hk Hraw.
  destruct (k =? bq_level s) eqn:Ek.
  { apply Nat.eqb_eq in Ek. subst k.
    apply quotes_at_level_skipped; assumption. }
  apply Nat.eqb_neq in Ek.
  assert (Hc : is_code (current_block s) = false).
  { unfold fenced_at_top in Htop.
    destruct (is_code (current_block s)); [|reflexivity].
    specialize (Htop eq_refl). lia. }
  unfold process_line. rewrite Hraw.
  unfold adjust_blockquote_level. rewrite Hc.
  rewrite bq_quotes by exact Hk.
  unfold get. cbn [m_caps lookup String.eqb Ascii.eqb Bool.eqb].
  rewrite length_quotes.
  replace (k =? bq_level s) with false
    by (symmetry; apply Nat.eqb_neq; exact Ek).
  cbn [negb].
  destruct (close_current_block rt s) as [s1|e] eqn:Ec; cbn [bind];
    [|reflexivity].
  destruct (close_current_block_spec rt s s1 Ec) as (ws & _ & ->).
  set (s1 := set_current_block None (emit ByBlock ws s)).
  assert (Hl1 : bq_level s1 = bq_level s) by reflexivity.
  rewrite Hl1.
  set (s2 := set_bq_level k _).
  assert (Hs2 : s2 = set_bq_level k
                       (if bq_level s <? k
                        then emit ByTracker (repeat bq_open (k - bq_level s)) s1
                        else emit ByTracker
                               (repeat bq_close (bq_level s - k)) s1)).
  { unfold s2. destruct (bq_level s <? k) eqn:E1; [reflexivity|].
    apply Nat.ltb_ge in E1.
    replace (k <? bq_level s) with true
      by (symmetry; apply Nat.ltb_lt; lia).
    reflexivity. }
  assert (Hb2 : current_block s2 = None).
  { rewrite Hs2. destruct (bq_level s <? k); reflexivity. }
  assert (Hk2 : bq_level s2 = k).
  { rewrite Hs2. destruct (bq_level s <? k); reflexivity. }
  clearbody s2.
  change (String.eqb EmptyString TOC_LITERAL) with false. cbv iota.
  rewrite check_for_div_empty_line. cbn [bind].
  assert (Hp : block_type_and_match rt EmptyString s2
               = plain rt EmptyString s2).
  { unfold block_type_and_match. rewrite Hb2. reflexivity. }
  rewrite Hp.
  destruct (plain_empty_line rt s2) as [m ->]; [lia|]. cbn [bind].
  rewrite Hk2.
  replace (0 <? k) with true by (symmetry; apply Nat.ltb_lt; lia).
  change (String.eqb BLOCK_TYPE_EMPTY BLOCK_TYPE_EMPTY && true) with true.
  cbv iota. rewrite Hs2. reflexivity.
Qed.

Lemma quote_only_line_skipped_witness :
  let s := MkState (MkWikidot no_args [] 0 1) None 1 false [] None [] in
  process_line rt0 2 (">" ++ nl) s = Ok (SkippedEmpty, s)
  /\ process_line rt0 2 (">>>" ++ nl) s
     = Ok (SkippedEmpty,
           MkState (MkWikidot no_args [] 0 1) None 3 false [] None
             [(ByTracker, bq_open); (ByTracker, bq_open)]).
Proof.
  intros s. split.
  - apply (quote_only_line_skipped rt0 2 (">" ++ nl) 1 s);
      [intros H; discriminate H | cbn; lia | lia | reflexivity].
  - apply (quote_only_line_skipped rt0 2 (">>>" ++ nl) 3 s);
      [intros H; discriminate H | cbn; lia | lia | reflexivity].
Defined.

(** C9 as stated fails: after the line [> a], at level 1 with a
    paragraph open, the line [>>] holds quote markers only, and it
    closes the paragraph, raises the level and writes. *)
Lemma quote_only_line_not_skipped :
  exists s s1,
    process_from rt0 1 (doc ["> a"]) (init no_args) = Ok s
    /\ bq_level s = 1
    /\ (exists b, current_block s = Some b /\ b_kind b = Paragraph)
    /\ process_line rt0 2 (">>" ++ nl) s = Ok (SkippedEmpty, s1)
    /\ current_block s1 = None
    /\ bq_level s1 = 2
    /\ written s1
       = (written s ++ [(ByBlock, "<p>"); (ByBlock, "a");
                        (ByBlock, String.append "</p>" nl); (ByTracker, bq_open)])%list.
Proof.
  eexists. eexists.
  split; [vm_compute; reflexivity|].
  split; [reflexivity|].
  split; [eexists; split; reflexivity|].
  split; [vm_compute; reflexivity|].
  repeat split.
Qed.


(** *** What the steps of the driver leave unchanged *)

Lemma tracked_app (t : string) (l l' : list (writer * string)) :
  tracked t (l ++ l') = tracked t l + tracked t l'.
Proof. unfold tracked. rewrite filter_app, length_app. reflexivity. Qed.

Lemma tracked_other (t : string) (w : writer) (ws : list string) :
  w <> ByTracker -> tracked t (map (pair w) ws) = 0.
Proof.
  intros Hw. induction ws as [|x ws IH]; [reflexivity|].
  unfold tracked in *. cbn [map filter fst snd].
  destruct w; try exact IH. contradiction.
Qed.

Lemma tracked_repeat (t t' : string) (k : nat) :
  tracked t (map (pair ByTracker) (repeat t' k))
  = if String.eqb t' t then k else 0.
Proof.
  induction k as [|k IH]; [destruct (String.eqb t' t); reflexivity|].
  unfold tracked in *. cbn [repeat map filter fst snd].
  destruct (String.eqb t' t); cbn [List.length]; rewrite IH; reflexivity.
Qed.

Lemma frame_refl (s : state) : frame s s.
Proof. constructor; auto. Qed.

Lemma frame_trans (s s1 s2 : state) : frame s s1 -> frame s1 s2 -> frame s s2.
Proof.
  intros [A B C D E] [A' B' C' D' E'].
  constructor;
    [congruence | congruence | congruence | intros t; rewrite D'; apply D |].
  destruct E' as [E'|E']; [left; exact E'|].
  destruct E as [E|E]; [|right; congruence].
  rewrite E in E'. destruct (current_block s2); [discriminate|].
  left. reflexivity.
Qed.

Lemma frame_emit (w : writer) (ws : list string) (s : state) :
  w <> ByTracker -> frame s (emit w ws s).
Proof.
  intros Hw. constructor; try reflexivity; [|right; reflexivity].
  intros t. cbn [written set_current_block set_divs emit set_written].
  rewrite tracked_app, tracked_other by exact Hw. lia.
Qed.

Lemma frame_close (rt : runtime) (s s1 : state) :
  close_current_block rt s = Ok s1 -> frame s s1 /\ current_block s1 = None.
Proof.
  intros H. destruct (close_current_block_spec rt s s1 H) as (ws & _ & ->).
  split; [|reflexivity].
  constructor; try reflexivity; [|left; reflexivity].
  intros t. cbn [written set_current_block set_divs emit set_written].
  rewrite tracked_app, tracked_other by discriminate. lia.
Qed.

Lemma frame_check_for_div (rt : runtime) (line : string) (s s1 : state)
    (b : bool) :
  check_for_div rt line s = Ok (b, s1) -> frame s s1.
Proof.
  unfold check_for_div.
  destruct (re_search RX_DIV_START line) as [md|].
  - destruct (close_current_block rt s) as [s0|] eqn:E; cbn [bind]; [|discriminate].
    destruct (new_div md) as [d w]. intros H. injection H as <- <-.
    apply (frame_trans _ s0); [apply (frame_close rt), E|].
    constructor; try reflexivity; [|right; reflexivity].
    intros t. cbn [written set_current_block set_divs emit set_written].
    rewrite tracked_app, tracked_other by discriminate. lia.
  - destruct (re_search RX_DIV_END line) as [md|].
    + destruct (close_current_block rt s) as [s0|] eqn:E; cbn [bind]; [|discriminate].
      apply frame_close in E. destruct E as [E _].
      destruct (rev (divs s0)); intros H; injection H as <- <-; [exact E|].
      apply (frame_trans _ s0); [exact E|].
      constructor; try reflexivity; [|right; reflexivity].
      intros t. cbn [written set_current_block set_divs emit set_written].
    rewrite tracked_app, tracked_other by discriminate. lia.
    + intros H. injection H as <- <-. apply frame_refl.
Qed.

Lemma frame_set_levels (i o : nat) (b : block) (s : state) :
  current_block s = Some b ->
  frame s (set_current_block (Some (set_levels i o b)) s).
Proof.
  intros Hb. constructor; try reflexivity. right. rewrite Hb. reflexivity.
Qed.

Lemma frame_fenced (rt : runtime) (ty : string) (start stop inner : regex)
    (line : string) (b : block) (s s1 : state)
    (tm : option (string * rematch)) :
  current_block s = Some b ->
  fenced rt ty start stop inner line b s = Ok (tm, s1) ->
  frame s s1 /\ (forall ty' m, tm = Some (ty', m) -> ty' = ty /\ s1 = s).
Proof.
  intros Hb. unfold fenced.
  destruct (is_some (re_search start line)).
  { intros H. injection H as <- <-.
    split; [apply frame_set_levels, Hb | discriminate]. }
  destruct (is_some (re_search stop line)).
  { destruct (input_nesting_level b =? 0).
    - destruct (close_current_block rt s) as [s0|] eqn:E; cbn [bind]; [|discriminate].
      intros H. injection H as <- <-.
      split; [apply (frame_close rt), E | discriminate].
    - intros H. injection H as <- <-.
      split; [apply frame_set_levels, Hb | discriminate]. }
  destruct (re_search inner line); [|discriminate].
  intros H. injection H as <- <-.
  split; [apply frame_refl|]. intros ty' m H. injection H as <- <-. auto.
Qed.

Lemma analyze_line_types (line : string) (t : bool) (ty : string)
    (m : rematch) :
  analyze_line line t = Ok (ty, m) ->
  ty <> BLOCK_TYPE_CODE /\ ty <> BLOCK_TYPE_MATH.
Proof.
  unfold analyze_line.
  destruct t; cbn [negb];
    repeat match goal with
           | |- context [match re_search ?r line with _ => _ end] =>
               destruct (re_search r line)
           end;
    intros H; try discriminate; injection H as <- <-; split; discriminate.
Qed.

Lemma frame_plain (rt : runtime) (line : string) (s s1 : state)
    (tm : option (string * rematch)) :
  plain rt line s = Ok (tm, s1) ->
  frame s s1
  /\ (forall ty m, tm = Some (ty, m) ->
        ty = BLOCK_TYPE_CODE \/ ty = BLOCK_TYPE_MATH ->
        bq_level s1 = 0 /\ current_block s1 = None).
Proof.
  unfold plain.
  assert (Ha : forall s0,
    (r <- analyze_line line (in_table (current_block s0)) ;; Ok (Some r, s0))
    = Ok (tm, s1) ->
    s1 = s0 /\ forall ty m, tm = Some (ty, m) ->
      ty <> BLOCK_TYPE_CODE /\ ty <> BLOCK_TYPE_MATH).
  { intros s0.
    destruct (analyze_line line (in_table (current_block s0))) as [[ty m]|] eqn:E;
      cbn [bind]; [|discriminate].
    intros H. injection H as <- <-. split; [reflexivity|].
    intros ty' m' H. injection H as <- <-.
    apply (analyze_line_types _ _ _ _ E). }
  destruct (bq_level s =? 0) eqn:Hl.
  - apply Nat.eqb_eq in Hl.
    destruct (re_search RX_CODE_START line).
    { destruct (close_current_block rt s) as [s0|] eqn:E; cbn [bind]; [|discriminate].
      intros H. injection H as <- <-. apply frame_close in E. destruct E as [E E'].
      split; [exact E|]. intros _ _ _ _. split; [|exact E'].
      rewrite (fr_level _ _ E). exact Hl. }
    destruct (re_search RX_MATH_START line).
    { destruct (close_current_block rt s) as [s0|] eqn:E; cbn [bind]; [|discriminate].
      intros H. injection H as <- <-. apply frame_close in E. destruct E as [E E'].
      split; [exact E|]. intros _ _ _ _. split; [|exact E'].
      rewrite (fr_level _ _ E). exact Hl. }
    intros H. apply Ha in H. destruct H as [-> H].
    split; [apply frame_refl|].
    intros ty m Htm [Hty|Hty]; destruct (H ty m Htm); contradiction.
  - intros H. apply Ha in H. destruct H as [-> H].
    split; [apply frame_refl|].
    intros ty m Htm [Hty|Hty]; destruct (H ty m Htm); contradiction.
Qed.


Lemma frame_block_type_and_match (rt : runtime) (line : string)
    (s s1 : state) (tm : option (string * rematch)) :
  block_type_and_match rt line s = Ok (tm, s1) ->
  frame s s1
  /\ (forall ty m, tm = Some (ty, m) ->
        ty = BLOCK_TYPE_CODE \/ ty = BLOCK_TYPE_MATH ->
        fenced_at_top s -> bq_level s1 = 0).
Proof.
  unfold block_type_and_match, fenced_at_top.
  destruct (current_block s) as [b|] eqn:Hb.
  - destruct (b_kind b) eqn:Hk;
      try (intros H; apply frame_plain in H; destruct H as [F H];
           split; [exact F|]; intros ty m Htm Hty _;
           apply (H ty m Htm Hty)).
    + intros H. apply (frame_fenced _ _ _ _ _ _ _ _ _ _ Hb) in H.
      destruct H as [F H]. split; [exact F|].
      intros ty m Htm _ Htop. destruct (H ty m Htm) as [_ ->].
      apply Htop. unfold is_code. rewrite Hk. reflexivity.
    + intros H. apply (frame_fenced _ _ _ _ _ _ _ _ _ _ Hb) in H.
      destruct H as [F H]. split; [exact F|].
      intros ty m Htm _ Htop. destruct (H ty m Htm) as [_ ->].
      apply Htop. unfold is_code, is_math. rewrite Hk. reflexivity.
  - intros H; apply frame_plain in H; destruct H as [F H].
    split; [exact F|]. intros ty m Htm Hty _. apply (H ty m Htm Hty).
Qed.

Lemma frame_fenced_at_top (s s1 : state) :
  frame s s1 -> fenced_at_top s -> fenced_at_top s1.
Proof.
  intros [_ L _ _ B] H. unfold fenced_at_top in *. rewrite L.
  destruct B as [B|B].
  - rewrite B. cbn. discriminate.
  - intros H1. apply H. unfold is_code, is_math in *.
    destruct (current_block s1) as [b1|], (current_block s) as [b|];
      cbn in B; try discriminate.
    injection B as B. rewrite <- B. exact H1.
Qed.

Lemma frame_balanced (s s1 : state) :
  frame s s1 -> balanced s -> balanced s1.
Proof.
  intros [_ L _ T _] H. unfold balanced in *. rewrite !T, L. exact H.
Qed.

Lemma add_line_kind (cb b : block) (line : string) (n : nat) (ty : string)
    (m : rematch) (c : bool) :
  add_line cb line n ty m c = Ok b -> b_kind b = b_kind cb.
Proof.
  unfold add_line. destruct (_ && _); [discriminate|].
  intros H. injection H as <-. reflexivity.
Qed.

Lemma block_factory_kind (rt : runtime) (line : string) (n : nat)
    (ty : string) (m : rematch) (w w1 : wikidot) (b : block) :
  block_factory rt line n ty m w = Ok (b, w1) ->
  is_code (Some b) || is_math (Some b) = true ->
  ty = BLOCK_TYPE_CODE \/ ty = BLOCK_TYPE_MATH.
Proof.
  unfold block_factory, new_list, new_header, new_math, is_code, is_math.
  destruct (_ || _).
  { destruct (group_str m "raw_tag"); cbn [bind]; [|discriminate].
    destruct (Lists.raw_tag_to_tag _); cbn [bind]; [|discriminate].
    intros H. injection H as <- <-. discriminate. }
  destruct (String.eqb ty BLOCK_TYPE_EMPTY);
    [intros H; injection H as <- <-; discriminate|].
  destruct (String.eqb ty BLOCK_TYPE_HR);
    [intros H; injection H as <- <-; discriminate|].
  destruct (String.eqb ty BLOCK_TYPE_CODE) eqn:E;
    [intros _ _; left; apply String.eqb_eq, E|].
  destruct (String.eqb ty BLOCK_TYPE_MATH) eqn:E';
    [intros _ _; right; apply String.eqb_eq, E'|].
  destruct (String.eqb ty BLOCK_TYPE_P);
    [intros H; injection H as <- <-; discriminate|].
  destruct (String.eqb ty BLOCK_TYPE_HN).
  { destruct (group_str m "plus_signs"); cbn [bind]; [|discriminate].
    destruct (content rt (w_args w) [m]); cbn [bind]; [|discriminate].
    intros H. injection H as <- <-. discriminate. }
  destruct (String.eqb ty BLOCK_TYPE_TABLE);
    intros H; injection H as <- <-; discriminate.
Qed.

(** The blockquote tracker returns the stripped line, keeps the
    continuation flag and the table of contents, and keeps the two
    invariants. *)
Lemma adjust_spec (rt : runtime) (line l : string) (s s1 : state) :
  adjust_blockquote_level rt line s = Ok (l, s1) ->
  l = quote_stripped (current_block s) line
  /\ continued_line s1 = continued_line s
  /\ toc s1 = toc s
  /\ (balanced s -> balanced s1)
  /\ (fenced_at_top s -> fenced_at_top s1).
Proof.
  unfold adjust_blockquote_level, quote_stripped.
  destruct (is_code (current_block s)).
  { intros H. injection H as <- <-. auto. }
  set (p := match re_search RX_BLOCKQUOTE line with
            | Some md => (String.length (get md "greater_than_signs"),
                          get md "content")
            | None => (0, line)
            end).
  assert (Hl : snd p = match re_search RX_BLOCKQUOTE line with
                       | Some md => get md "content"
                       | None => line
                       end)
    by (unfold p; destruct (re_search RX_BLOCKQUOTE line); reflexivity).
  rewrite <- Hl. clearbody p. clear Hl. destruct p as [new l0]. cbn [snd].
  assert (H0 : forall s0, frame s s0 ->
            (new = bq_level s \/ current_block s0 = None) ->
            (new = bq_level s -> s0 = s) ->
            let s1 := set_bq_level new
              (if bq_level s0 <? new
               then emit ByTracker (repeat bq_open (new - bq_level s0)) s0
               else if new <? bq_level s0
               then emit ByTracker (repeat bq_close (bq_level s0 - new)) s0
               else s0) in
            continued_line s1 = continued_line s /\ toc s1 = toc s
            /\ (balanced s -> balanced s1)
            /\ (fenced_at_top s -> fenced_at_top s1)).
  { intros s0 [Fc Fl Ft Fw Fb] Hn Hsame.
    assert (Hcb : forall x, current_block (set_bq_level new x) = current_block x)
      by reflexivity.
    repeat split.
    - destruct (bq_level s0 <? new); [|destruct (new <? bq_level s0)];
        cbn; exact Fc.
    - destruct (bq_level s0 <? new); [|destruct (new <? bq_level s0)];
        cbn; exact Ft.
    - unfold balanced. intros Hb.
      destruct (Nat.ltb_spec (bq_level s0) new) as [E1|E1];
        [|destruct (Nat.ltb_spec new (bq_level s0)) as [E2|E2]];
        cbn [set_bq_level written bq_level emit set_written];
        rewrite ?tracked_app, ?tracked_repeat, !Fw;
        repeat match goal with
               | |- context [String.eqb ?a ?b] =>
                   let v := eval vm_compute in (String.eqb a b) in
                   change (String.eqb a b) with v
               end;
        cbv iota; lia.
    - unfold fenced_at_top. intros Htop.
      assert (Hc : current_block
                (if bq_level s0 <? new
                 then emit ByTracker (repeat bq_open (new - bq_level s0)) s0
                 else if new <? bq_level s0
                 then emit ByTracker (repeat bq_close (bq_level s0 - new)) s0
                 else s0) = current_block s0)
        by (destruct (bq_level s0 <? new); [|destruct (new <? bq_level s0)];
            reflexivity).
      rewrite Hcb, Hc. cbn [bq_level set_bq_level].
      destruct Hn as [Hn|Hn]; [|rewrite Hn; discriminate].
      rewrite (Hsame Hn). rewrite Hn. exact Htop. }
  destruct (negb (new =? bq_level s)) eqn:E.
  - destruct (close_current_block rt s) as [s0|] eqn:Ec; cbn [bind]; [|discriminate].
    apply frame_close in Ec. destruct Ec as [F Hnone].
    intros H. injection H as <- <-. split; [reflexivity|].
    apply (H0 s0 F); [right; exact Hnone|].
    intros Hn. rewrite Hn, Nat.eqb_refl in E. discriminate.
  - cbn [bind]. intros H. injection H as <- <-. split; [reflexivity|].
    apply negb_false_iff, Nat.eqb_eq in E.
    apply (H0 s (frame_refl s)); [left; exact E | reflexivity].
Qed.

(** What one line does to the continuation flag and to the invariants *)
Lemma process_line_spec (rt : runtime) (n : nat) (raw : string)
    (s s1 : state) (o : outcome) :
  process_line rt n raw s = Ok (o, s1) ->
  match o with
  | Done =>
      continued_line s1
      = Str.endswith " _" (quote_stripped (current_block s) (Str.rstrip raw))
  | _ => continued_line s1 = continued_line s
  end
  /\ toc s1 = toc s
  /\ (balanced s -> balanced s1)
  /\ (fenced_at_top s -> fenced_at_top s1).
Proof.
  unfold process_line.
  destruct (adjust_blockquote_level rt (Str.rstrip raw) s) as [[l sa]|] eqn:Ea;
    cbn [bind]; [|discriminate].
  apply adjust_spec in Ea. destruct Ea as (Hl & Hc & Ht & Hb & Hf).
  destruct (if String.eqb l TOC_LITERAL then toc sa else None) as [hs|].
  { intros H. injection H as <- <-.
    pose proof (frame_emit ByToc (close_toc hs) sa) as F.
    specialize (F ltac:(discriminate)).
    repeat split.
    - rewrite (fr_continued _ _ F). exact Hc.
    - rewrite (fr_toc _ _ F). exact Ht.
    - intros B. apply (frame_balanced _ _ F), Hb, B.
    - intros B. apply (frame_fenced_at_top _ _ F), Hf, B. }
  destruct (check_for_div rt l sa) as [[d sd]|] eqn:Ed; cbn [bind]; [|discriminate].
  apply frame_check_for_div in Ed.
  pose proof (frame_trans s sa sd) as Fsd.
  destruct d.
  { intros H. injection H as <- <-. repeat split.
    - rewrite (fr_continued _ _ Ed). exact Hc.
    - rewrite (fr_toc _ _ Ed). exact Ht.
    - intros B. apply (frame_balanced _ _ Ed), Hb, B.
    - intros B. apply (frame_fenced_at_top _ _ Ed), Hf, B. }
  destruct (block_type_and_match rt l sd) as [[tm sb]|] eqn:Eb; cbn [bind];
    [|discriminate].
  apply frame_block_type_and_match in Eb. destruct Eb as [Fb Hty].
  pose proof (frame_trans _ _ _ Ed Fb) as F.
  assert (Hskip : continued_line sb = continued_line s /\ toc sb = toc s
                  /\ (balanced s -> balanced sb)
                  /\ (fenced_at_top s -> fenced_at_top sb)).
  { repeat split.
    - rewrite (fr_continued _ _ F). exact Hc.
    - rewrite (fr_toc _ _ F). exact Ht.
    - intros B. apply (frame_balanced _ _ F), Hb, B.
    - intros B. apply (frame_fenced_at_top _ _ F), Hf, B. }
  destruct tm as [[ty m]|]; [|intros H; injection H as <- <-; exact Hskip].
  destruct (String.eqb ty BLOCK_TYPE_EMPTY && (0 <? bq_level sb));
    [intros H; injection H as <- <-; exact Hskip|].
  destruct Hskip as (_ & Htb & Hbb & Hfb).
  specialize (Hty ty m eq_refl).
  match goal with
  | |- bind ?e _ = _ -> _ =>
      assert (Hfinal : forall s3, e = Ok s3 ->
                toc s3 = toc sb
                /\ (balanced sb -> balanced s3)
                /\ (fenced_at_top s -> fenced_at_top s3));
      [|destruct e as [s3|]; cbn [bind]; [|discriminate];
        destruct (Hfinal s3 eq_refl) as (T3 & B3 & F3);
        intros H; injection H as <- <-;
        rewrite Hl; repeat split;
        [cbn; congruence | intros B; apply B3, Hbb, B | intros B; apply (F3 B)]]
  end.
  assert (Hnew : forall s0 b w,
            frame sb s0 ->
            block_factory rt l n ty m (wiki s0) = Ok (b, w) ->
            let s3 := set_current_block (Some b) (set_wiki w s0) in
            toc s3 = toc sb /\ (balanced sb -> balanced s3)
            /\ (fenced_at_top s -> fenced_at_top s3)).
  { intros s0 b w F0 Hbf. repeat split.
    - cbn. apply (fr_toc _ _ F0).
    - unfold balanced. cbn [written set_current_block set_wiki bq_level].
      rewrite !(fr_tracked _ _ F0), (fr_level _ _ F0). auto.
    - intros Htop. unfold fenced_at_top.
      cbn [current_block set_current_block bq_level set_wiki].
      intros Hk. apply (block_factory_kind _ _ _ _ _ _ _ _ Hbf) in Hk.
      rewrite (fr_level _ _ F0). apply Hty; [exact Hk|].
      apply Hf in Htop. apply (frame_fenced_at_top _ _ Ed), Htop. }
  assert (Hadd : forall cb b c,
            current_block sb = Some cb ->
            add_line cb l n ty m c = Ok b ->
            let s3 := set_current_block (Some b) sb in
            toc s3 = toc sb /\ (balanced sb -> balanced s3)
            /\ (fenced_at_top s -> fenced_at_top s3)).
  { intros cb b c Hcb Hadd. repeat split; [auto|].
    intros Htop. apply Hfb in Htop. unfold fenced_at_top in *.
    cbn [current_block set_current_block bq_level].
    rewrite Hcb in Htop. unfold is_code, is_math in *.
    rewrite (add_line_kind _ _ _ _ _ _ _ Hadd). exact Htop. }
  intros s3. destruct (current_block sb) as [cb|] eqn:Hcb.
  - destruct (continued_line sb).
    { destruct (add_line cb l n ty m true) as [b|] eqn:E; cbn [bind]; [|discriminate].
      intros H. injection H as <-. apply (Hadd cb b true eq_refl E). }
    destruct (String.eqb ty (block_type cb) && multiline_type cb).
    { destruct (add_line cb l n ty m false) as [b|] eqn:E; cbn [bind]; [|discriminate].
      intros H. injection H as <-. apply (Hadd cb b false eq_refl E). }
    destruct (close_current_block rt sb) as [s0|] eqn:Ec; cbn [bind]; [|discriminate].
    apply frame_close in Ec. destruct Ec as [F0 _].
    destruct (block_factory rt l n ty m (wiki s0)) as [[b w]|] eqn:E; cbn [bind];
      [|discriminate].
    intros H. injection H as <-. apply (Hnew s0 b w F0 E).
  - destruct (block_factory rt l n ty m (wiki sb)) as [[b w]|] eqn:E; cbn [bind];
      [|discriminate].
    intros H. injection H as <-. apply (Hnew sb b w (frame_refl sb) E).
Qed.


(** A line that reaches the end of the loop body sets the continuation
    flag to whether the line passed on by the blockquote tracker, which
    is the right-stripped line without its quote markers and without the
    continuation marker the quote pattern splits off, ends with a blank
    and an underscore. A line that is skipped (a table of contents, a
    div marker, a fence marker, a blank line in a blockquote) leaves the
    flag as it was. *)
Lemma continued_line_recomputed (rt : runtime) (n : nat) (raw : string)
    (s s1 : state) (o : outcome) :
  process_line rt n raw s = Ok (o, s1) ->
  match o with
  | Done =>
      continued_line s1
      = Str.endswith " _" (quote_stripped (current_block s) (Str.rstrip raw))
  | _ => continued_line s1 = continued_line s
  end.
Proof. intros H. apply (process_line_spec rt n raw s s1 o H). Qed.

(** C1. The continuation marker of a quoted line is lost. The raw line
    [> * a _] ends with a blank and an underscore; the quote pattern
    takes the marker into its group [br], which the tracker does not
    read, and the line passed on is the content [* a]. The flag is false
    after the quoted line and true after the same line without the
    quote marker. So the next line continues the item of the list
    outside a blockquote, with a line break, and starts a paragraph of
    its own inside one, where the marker has left no trace. *)
Theorem quoted_line_loses_continuation :
  Str.endswith " _" (Str.rstrip ("> * a _" ++ nl)) = true
  /\ (exists md,
        re_search RX_BLOCKQUOTE "> * a _" = Some md
        /\ get md "content" = "* a" /\ get md "br" = " _")
  /\ quote_stripped None (Str.rstrip ("> * a _" ++ nl)) = "* a"
  /\ (exists s1,
        process_line rt0 1 ("* a _" ++ nl) (init no_args) = Ok (Done, s1)
        /\ continued_line s1 = true)
  /\ (exists s1,
        process_line rt0 1 ("> * a _" ++ nl) (init no_args) = Ok (Done, s1)
        /\ continued_line s1 = false)
  /\ to_html rt0 no_args ("* a _" ++ nl ++ "b" ++ nl)
     = Ok ("<ul>" ++ nl ++ "<li>a<br />" ++ nl ++ "b</li>" ++ nl
           ++ "</ul>" ++ nl)
  /\ to_html rt0 no_args ("> * a _" ++ nl ++ "> b" ++ nl)
     = Ok ("<blockquote>" ++ nl ++ "<ul>" ++ nl ++ "<li>a</li>" ++ nl
           ++ "</ul>" ++ nl ++ "<p>b</p>" ++ nl ++ "</blockquote>" ++ nl).
Proof.
  split; [reflexivity|].
  split; [eexists; split; [vm_compute; reflexivity | split; reflexivity]|].
  split; [vm_compute; reflexivity|].
  split; [eexists; split; [vm_compute; reflexivity | reflexivity]|].
  split; [eexists; split; [vm_compute; reflexivity | reflexivity]|].
  split; vm_compute; reflexivity.
Qed.

(** *** The blockquote tags balance *)

Lemma process_from_spec (rt : runtime) (input : list string) :
  forall (n : nat) (s s1 : state),
  process_from rt n input s = Ok s1 ->
  toc s1 = toc s
  /\ (balanced s -> balanced s1)
  /\ (fenced_at_top s -> fenced_at_top s1).
Proof.
  induction input as [|raw input IH]; intros n s s1.
  - intros H. injection H as <-. auto.
  - cbn [process_from].
    destruct (process_line rt n raw s) as [[o s0]|] eqn:E; cbn [bind];
      [|discriminate].
    apply process_line_spec in E. destruct E as (_ & T & B & F).
    intros H. apply IH in H. destruct H as (T' & B' & F').
    repeat split; [congruence | auto | auto].
Qed.

(** Every state the loop reaches from the initial one has its fenced
    blocks at level 0. *)
Lemma reachable_fenced_at_top (rt : runtime) (a : args)
    (input : list string) (n : nat) (s : state) :
  process_from rt n input (init a) = Ok s -> fenced_at_top s.
Proof.
  intros H. apply process_from_spec in H. apply H.
  intros H0. discriminate H0.
Qed.

Lemma adjust_at_end (rt : runtime) (s s1 : state) (l : string) :
  current_block s = None ->
  adjust_blockquote_level rt EmptyString s = Ok (l, s1) ->
  bq_level s1 = 0.
Proof.
  intros Hb. unfold adjust_blockquote_level. rewrite Hb. cbn [is_code].
  replace (re_search RX_BLOCKQUOTE EmptyString) with (@None rematch)
    by reflexivity.
  destruct (negb (0 =? bq_level s)).
  - destruct (close_current_block rt s); cbn [bind]; [|discriminate].
    intros H. injection H as <- <-. reflexivity.
  - cbn [bind]. intros H. injection H as <- <-. reflexivity.
Qed.

(** A pass that starts at level 0 ends at level 0, with as many opening
    as closing tags written by the tracker. *)
Lemma pass_balanced (rt : runtime) (input : list string) (s s1 : state) :
  bq_level s = 0 ->
  _process_lines rt input s = Ok s1 ->
  bq_level s1 = 0
  /\ tracked bq_open (written s1) = tracked bq_close (written s1).
Proof.
  intros Hl. unfold _process_lines.
  destruct (process_from rt 1 input (set_written [] s)) as [sa|] eqn:Ea;
    cbn [bind]; [|discriminate].
  apply process_from_spec in Ea. destruct Ea as (_ & Ba & _).
  assert (B0 : balanced (set_written [] s))
    by (unfold balanced; cbn; rewrite Hl; reflexivity).
  apply Ba in B0.
  destruct (close_current_block rt sa) as [sb|] eqn:Eb; cbn [bind];
    [|discriminate].
  apply frame_close in Eb. destruct Eb as [Fb Hnone].
  apply (frame_balanced _ _ Fb) in B0.
  destruct (adjust_blockquote_level rt EmptyString sb) as [[l sc]|] eqn:Ec;
    cbn [bind]; [|discriminate].
  intros H. injection H as <-.
  pose proof (adjust_at_end rt sb sc l Hnone Ec) as H0.
  apply adjust_spec in Ec. destruct Ec as (_ & _ & _ & Bc & _).
  apply Bc in B0. unfold balanced in B0. rewrite H0 in B0.
  split; [exact H0 | lia].
Qed.

(** C3. When the two passes over a document end, the output holds as
    many opening blockquote tags written by the tracker as closing
    ones. *)
Theorem blockquote_tags_balanced (rt : runtime) (a : args)
    (input : list string) (s1 : state) :
  process_lines rt input (init a) = Ok s1 ->
  tracked bq_open (written s1) = tracked bq_close (written s1).
Proof.
  unfold process_lines.
  destruct (_process_lines rt input (init a)) as [sa|] eqn:Ea; cbn [bind];
    [|discriminate].
  apply pass_balanced in Ea; [|reflexivity]. destruct Ea as [La _].
  intros H. apply pass_balanced in H; [apply H | exact La].
Qed.

Lemma blockquote_tags_balanced_witness :
  exists s1,
    process_lines rt0 (doc ["> a"; ">> b"; "c"]) (init no_args) = Ok s1
    /\ tracked bq_open (written s1) = 2
    /\ tracked bq_open (written s1) = tracked bq_close (written s1).
Proof.
  eexists. split; [vm_compute; reflexivity|]. split; [reflexivity|].
  apply (blockquote_tags_balanced rt0 no_args (doc ["> a"; ">> b"; "c"])).
  vm_compute. reflexivity.
Defined.

End DriverProps.

(** ** Table rows *)

Module TableProps.
Import Re Rx Lexer Inline Parser Blocks Tables Props.
Local Open Scope nat_scope.

Lemma append_nil_r (s : string) : s ++ EmptyString = s.
Proof. induction s as [|a s IH]; simpl; [|rewrite IH]; reflexivity. Qed.









End TableProps.

(** ** Fenced blocks *)

Module FencedProps.
Import Re Rx Lexer Inline Parser Blocks Driver Props.
Local Open Scope nat_scope.

Lemma append_assoc (a b c : string) : (a ++ b) ++ c = a ++ b ++ c.
Proof. induction a as [|x a IH]; simpl; [|rewrite IH]; reflexivity. Qed.

Lemma concat_cons (x : string) (l : list string) :
  String.concat EmptyString (x :: l) = x ++ String.concat EmptyString l.
Proof.
  destruct l; cbn [String.concat]; [|reflexivity].
  symmetry. apply TableProps.append_nil_r.
Qed.

Lemma concat_app (l l' : list string) :
  String.concat EmptyString (l ++ l')
  = String.concat EmptyString l ++ String.concat EmptyString l'.
Proof.
  induction l as [|x l IH]; [reflexivity|].
  rewrite <- app_comm_cons, !concat_cons, IH, append_assoc. reflexivity.
Qed.

Lemma contents_nil (ms : list rematch) (cs : list string) :
  contents ms = Ok cs -> (ms = [] <-> cs = []).
Proof.
  destruct ms as [|m ms]; cbn [contents].
  - intros H. injection H as <-. tauto.
  - destruct (group_str m "content"); cbn [bind]; [|discriminate].
    destruct (contents ms); cbn [bind]; [|discriminate].
    intros H. injection H as <-. split; discriminate.
Qed.

(** The loop over the lines writes the kept lines, escaped, with a line
    feed between two of them. *)
Lemma write_lines_spec (ms : list rematch) :
  forall (cs : list string) (first : bool),
  contents ms = Ok cs ->
  exists ws,
    write_lines first ms = Ok ws
    /\ String.concat EmptyString ws
       = Str.join nl (map Str.html_escape (if first then kept cs else cs)).
Proof.
  induction ms as [|m ms IH]; intros cs first; cbn [contents write_lines].
  - intros H. injection H as <-. exists []. destruct first; split; reflexivity.
  - destruct (group_str m "content") as [c|]; cbn [bind]; [|discriminate].
    destruct (contents ms) as [cs'|] eqn:E; cbn [bind]; [|discriminate].
    intros H. injection H as <-.
    destruct (IH cs' false eq_refl) as (rest & -> & Hrest). cbn [bind].
    assert (Hfull :
      String.concat EmptyString
        (Str.html_escape c :: (match ms with [] => [] | _ => [nl] end) ++ rest)
      = Str.join nl (map Str.html_escape (c :: cs'))).
    { rewrite concat_cons, concat_app, Hrest. cbn [map Str.join].
      pose proof (contents_nil ms cs' E) as Hnil.
      destruct ms as [|m' ms'].
      - destruct cs'; [|destruct Hnil as [Hnil _]; discriminate (Hnil eq_refl)].
        cbn. apply TableProps.append_nil_r.
      - destruct cs' as [|c' cs']; [destruct Hnil as [_ Hnil]; discriminate (Hnil eq_refl)|].
        cbn [map]. rewrite concat_cons. reflexivity. }
    destruct first; cbn [andb kept].
    + destruct (is_some (re_search RX_BLANK_LINE c)).
      * exists rest. split; [reflexivity | exact Hrest].
      * eexists. split; [reflexivity | exact Hfull].
    + eexists. split; [reflexivity | exact Hfull].
Qed.

(** C4, amended. The content of a fenced block is made of its lines,
    escaped and separated by line feeds, without the first line when
    that line is blank; no other line is dropped, wherever it stands.
    Around them come the fence markers met inside the block. *)
Theorem fenced_content_spec (name : string) (b : block) (cs : list string) :
  contents (matches b) = Ok cs ->
  exists ws,
    write_fenced_content name b = Ok ws
    /\ String.concat EmptyString ws
       = String.concat EmptyString
           (repeat ("[[" ++ name ++ "]]" ++ nl) (output_nesting_level b))
         ++ Str.join nl (map Str.html_escape (kept cs))
         ++ String.concat EmptyString
              (repeat (nl ++ "[[/" ++ name ++ "]]") (output_nesting_level b)).
Proof.
  intros H. unfold write_fenced_content.
  destruct (write_lines_spec (matches b) cs true H) as (ws & -> & Hws).
  cbn [bind]. eexists. split; [reflexivity|].
  rewrite !concat_app, Hws. reflexivity.
Qed.

Lemma fenced_content_spec_witness :
  exists b ws,
    process_from rt0 1 (doc ["[[code]]"; "a < b"; "c"]) (init no_args)
    = Ok (MkState (MkWikidot no_args [] 0 1) (Some b) 0 false [] None [])
    /\ contents (matches b) = Ok [EmptyString; "a < b"; "c"]
    /\ write_fenced_content "code" b = Ok ws
    /\ String.concat EmptyString ws = "a &lt; b" ++ nl ++ "c".
Proof.
  eexists. eexists.
  split; [vm_compute; reflexivity|].
  split; [vm_compute; reflexivity|].
  match goal with
  | |- write_fenced_content ?n ?b = _ /\ _ =>
      destruct (fenced_content_spec n b [EmptyString; "a < b"; "c"])
        as (ws & H1 & H2); [vm_compute; reflexivity|]
  end.
  vm_compute in H1. injection H1 as <-.
  split; reflexivity.
Defined.

(** C4 as stated fails: in the block below the last line is blank and
    it is rendered, so the content ends with a line feed. *)
Lemma trailing_blank_line_kept :
  exists b,
    process_from rt0 1 (doc ["[[code]]"; "a"; "  "]) (init no_args)
    = Ok (MkState (MkWikidot no_args [] 0 1) (Some b) 0 false [] None [])
    /\ contents (matches b) = Ok [EmptyString; "a"; EmptyString]
    /\ write_fenced_content "code" b = Ok ["a"; nl; EmptyString]
    /\ to_html rt0 no_args
         ("[[code]]" ++ nl ++ "a" ++ nl ++ "  " ++ nl ++ "[[/code]]" ++ nl)
       = Ok ("<div class=" ++ dq ++ "code" ++ dq ++ ">" ++ nl ++ "<pre>" ++ nl
             ++ "<code>a" ++ nl ++ "</code>" ++ nl ++ "</pre></div>" ++ nl).
Proof.
  eexists. split; [vm_compute; reflexivity|].
  repeat split; vm_compute; reflexivity.
Qed.

End FencedProps.

(** ** Inline nodes *)

Module InlineProps.
Import Re Rx Lexer Inline Parser Blocks Driver Props.
Local Open Scope nat_scope.

(** *** The only exception of rendering *)

Lemma closed_error (fuel : nat) (h : store) :
  forall c e, closed fuel h c = Raise e -> e = RecursionError.
Proof.
  induction fuel as [|fuel IH]; intros c e; cbn [closed].
  - intros H. injection H as <-. reflexivity.
  - destruct c as [| |nd]; try discriminate.
    destruct (nth_error h nd) as [n|]; [apply IH | discriminate].
Qed.

Lemma call_error (fuel : nat) (s e : string) :
  call fuel s = Raise e -> e = RecursionError.
Proof.
  destruct fuel; cbn [call]; [|discriminate].
  intros H. injection H as <-. reflexivity.
Qed.

Lemma strs_error (str : child -> result string) (l : list child) :
  (forall c e, In c l -> str c = Raise e -> e = RecursionError) ->
  forall e, strs str l = Raise e -> e = RecursionError.
Proof.
  induction l as [|c l IH]; intros Hstr e; cbn [strs]; [discriminate|].
  destruct (str c) as [s|e1] eqn:E; cbn [bind].
  - destruct (strs str l) as [ss|e2] eqn:E2; cbn [bind]; [discriminate|].
    intros H. injection H as <-. apply IH; [|reflexivity].
    intros c0 e0 Hin. apply Hstr. right. exact Hin.
  - intros H. injection H as <-. apply (Hstr c e1); [left; reflexivity|].
    exact E.
Qed.

Lemma join_children_error (str : child -> result string) (l : list child) :
  (forall c e, In c l -> str c = Raise e -> e = RecursionError) ->
  forall e, join_children str l = Raise e -> e = RecursionError.
Proof.
  intros Hstr e. unfold join_children.
  destruct (strs str l) as [ss|e1] eqn:E; cbn [bind]; [discriminate|].
  intros H. injection H as <-. apply (strs_error str l Hstr _ E).
Qed.

Lemma node_format_error (is_closed : result bool) (n : node)
    (str : child -> result string) :
  (forall e, is_closed = Raise e -> e = RecursionError) ->
  (forall c e, str c = Raise e -> e = RecursionError) ->
  forall e, node_format is_closed n str = Raise e -> e = RecursionError.
Proof.
  intros Hc Hstr e. unfold node_format.
  assert (Hj : forall l e, join_children str l = Raise e
                           -> e = RecursionError).
  { intros l e0. apply join_children_error. intros c e1 _. apply Hstr. }
  destruct (match children n with
            | [] => Ok (EmptyString, EmptyString)
            | [c] => _
            | c :: (_ :: _) as cs => _
            end) as [[first rest]|e1] eqn:E; cbn [bind].
  - destruct is_closed as [b|e2]; cbn [bind].
    + destruct b; [destruct (Str.is_empty rest)|]; discriminate.
    + intros H. injection H as <-. apply Hc. reflexivity.
  - intros H. injection H as <-.
    destruct (children n) as [|c [|c' cs]]; [discriminate E| |].
    + destruct (is_blank c); [discriminate E|].
      destruct (str c) as [r|e2] eqn:E2; cbn [bind] in E; [discriminate E|].
      injection E as <-. apply (Hstr c), E2.
    + destruct (is_blank c).
      * destruct (join_children str (c' :: cs)) as [r|e2] eqn:E2;
          cbn [bind] in E; [discriminate E|].
        injection E as <-. apply (Hj _ _ E2).
      * destruct (join_children str (c :: c' :: cs)) as [r|e2] eqn:E2;
          cbn [bind] in E; [discriminate E|].
        injection E as <-. apply (Hj _ _ E2).
Qed.

Lemma child_str_error (rt : runtime) (a : args) (fuel : nat)
    (str_of : nat -> result string) :
  (forall nd e, str_of nd = Raise e -> e = RecursionError) ->
  forall c e, child_str rt a fuel str_of c = Raise e -> e = RecursionError.
Proof.
  intros Hstr c e. destruct c; cbn [child_str]; try discriminate;
    try apply call_error. apply Hstr.
Qed.

(** [str] of a node raises nothing but [RecursionError]. *)
Lemma node_str_error (rt : runtime) (a : args) (h : store) (fuel : nat) :
  forall nd e, node_str rt a fuel h nd = Raise e -> e = RecursionError.
Proof.
  induction fuel as [|fuel IH]; intros nd e; cbn [node_str].
  - intros H. injection H as <-. reflexivity.
  - destruct (nth_error h nd) as [n|]; [|discriminate].
    pose proof (child_str_error rt a fuel (node_str rt a fuel h) IH) as Hc.
    destruct (n_cls n);
      try (apply node_format_error; [apply closed_error | exact Hc]);
      unfold span_format, literal_format;
      (destruct (join_children _ (children n)) as [r|e1] eqn:E; cbn [bind];
       [discriminate|]; intros H; injection H as <-;
       apply (join_children_error _ _ (fun c e0 _ => Hc c e0) _ E)).
Qed.

Lemma render_error (rt : runtime) (a : args) (h : store) (nd : nat)
    (e : string) :
  render rt a h nd = Raise e -> e = RecursionError.
Proof. apply node_str_error. Qed.

(** C2 as stated fails for a span: the span opened on this line is
    still on the stack at the end, its closure is the open one, and it
    renders with its tags and without its raw marker. *)
Lemma unclosed_span_has_tags :
  exists p n,
    parse no_args (token_lex "[[span class=x]]foo") Parser.init = Ok p
    /\ nodes p = [1; 0]
    /\ nth_error (Parser.h p) 1 = Some n
    /\ n_cls n = Span
    /\ n_closure n = OPEN_NODE
    /\ raw_tag n = "[[span class=x]]"
    /\ render rt0 no_args (Parser.h p) 1 = Ok "<span class=x>foo</span>"
    /\ to_html rt0 no_args ("[[span class=x]]foo" ++ nl)
       = Ok ("<p><span class=x>foo</span></p>" ++ nl).
Proof.
  eexists. eexists.
  split; [vm_compute; reflexivity|].
  split; [reflexivity|].
  split; [reflexivity|].
  repeat split; vm_compute; reflexivity.
Qed.




(** C7. The output of a conversion depends on the address the
    interpreter gives to a sentinel token: on this line the parser adds
    the [LiteralEndToken] object as text, and rendering prints it with
    its address. *)
Theorem output_depends_on_address :
  to_html rt1 no_args ("@< [!-- @@ --] @@ >@" ++ nl)
  = Ok ("<p><" ++ pre_wrap ++ ">&#32;&#32;<__main__.LiteralEndToken&#32;"
        ++ "object&#32;at&#32;0x800000000000>&#32;</span></p>" ++ nl)
  /\ to_html rt2 no_args ("@< [!-- @@ --] @@ >@" ++ nl)
     = Ok ("<p><" ++ pre_wrap ++ ">&#32;&#32;<__main__.LiteralEndToken&#32;"
           ++ "object&#32;at&#32;0x800000000010>&#32;</span></p>" ++ nl)
  /\ to_html rt1 no_args ("@< [!-- @@ --] @@ >@" ++ nl)
     <> to_html rt2 no_args ("@< [!-- @@ --] @@ >@" ++ nl).
Proof.
  split; [vm_compute; reflexivity|].
  split; [vm_compute; reflexivity|].
  intros H. vm_compute in H. discriminate H.
Qed.

End InlineProps.

(** ** The lexer terminates *)

Module LexerProps.
Import Re Rx Lexer Props.
Local Open Scope nat_scope.

Lemma skip_lit_length (l : string) :
  forall prev s prev' s',
  skip_lit l prev s = Some (prev', s') ->
  String.length s = String.length l + String.length s'.
Proof.
  induction l as [|a l IH]; intros prev s prev' s'; cbn [skip_lit].
  - intros H. injection H as <- <-. reflexivity.
  - destruct s as [|b s]; [discriminate|].
    destruct (Ascii.eqb a b); [|discriminate].
    intros H. apply IH in H. cbn [String.length]. lia.
Qed.

Lemma take_length_le (s : string) :
  forall n, String.length (Str.take n s) <= String.length s.
Proof.
  induction s as [|a s IH]; intros [|n]; cbn [Str.take String.length];
    try lia.
  specialize (IH n). lia.
Qed.

Lemma rep_loop_guarded (g : string) (n : nat) (before : bool) (body : matcher)
    (cb : bool) :
  (forall k, keeps g n (before || cb) k ->
             keeps g n before (fun p s c => body p s c k)) ->
  forall gr lo hi k,
  keeps g n (before || ((0 <? lo) && cb)) k ->
  forall fuel i prev s c res,
  String.length s <= n ->
  (before = true \/ 0 < i -> String.length s < n) ->
  short g n c ->
  rep_loop body gr lo hi k fuel i prev s c = Some res -> short g n res.
Proof.
  intros Hbody gr lo hi k Hk fuel.
  induction fuel as [|fuel IH]; intros i prev s c res Hn Hlt Hc;
    cbn [rep_loop].
  - destruct (lo <=? i) eqn:E; [|discriminate].
    apply (Hk _ _ _ _ Hn); [|exact Hc].
    intros Hb. apply Hlt. apply Nat.leb_le in E.
    destruct before; [left; reflexivity|]. right.
    cbn [orb] in Hb. apply andb_prop in Hb. destruct Hb as [Hb _].
    apply Nat.ltb_lt in Hb. lia.
  - assert (Hstop : forall res,
      (if lo <=? i then k prev s c else None) = Some res -> short g n res).
    { intros r. destruct (lo <=? i) eqn:E; [|discriminate].
      apply (Hk _ _ _ _ Hn); [|exact Hc].
      intros Hb. apply Hlt. apply Nat.leb_le in E.
      destruct before; [left; reflexivity|]. right.
      cbn [orb] in Hb. apply andb_prop in Hb. destruct Hb as [Hb _].
      apply Nat.ltb_lt in Hb. lia. }
    assert (Hmore : forall res,
      (if below hi i
       then body prev s c
              (fun prev' s' c' =>
                 if String.length s' <? String.length s
                 then rep_loop body gr lo hi k fuel (S i) prev' s' c'
                 else None)
       else None) = Some res -> short g n res).
    { intros r. destruct (below hi i); [|discriminate].
      apply (Hbody _) with (prev := prev) (s := s) (c := c); try assumption.
      - intros p' s' c' r' Hn' _ Hc'.
        destruct (String.length s' <? String.length s) eqn:E; [|discriminate].
        apply Nat.ltb_lt in E.
        apply (IH (S i) _ _ _ _ Hn'); [|exact Hc']. intros _. lia.
      - intros Hb. apply Hlt. left. exact Hb. }
    destruct gr.
    + destruct (if below hi i then _ else None) as [r|] eqn:E.
      * intros H. injection H as <-. apply (Hmore r eq_refl).
      * apply Hstop.
    + destruct (if lo <=? i then _ else None) as [r|] eqn:E.
      * intros H. injection H as <-. apply (Hstop r eq_refl).
      * apply Hmore.
Qed.

Lemma keeps_weaken (g : string) (n : nat) (b b' : bool) (k : cont) :
  (b = true -> b' = true) -> keeps g n b k -> keeps g n b' k.
Proof.
  intros Hb Hk prev s c res Hn Hlt. apply (Hk _ _ _ _ Hn).
  intros H. apply Hlt, Hb, H.
Qed.

Lemma rx_guarded (g : string) (n : nat) (r : regex) :
  forall before k,
  guarded g before r = true ->
  keeps g n (before || consumes r) k ->
  keeps g n before (fun p s c => rx r p s c k).
Proof.
  induction r as [m|m|l|f|r1 IH1 r2 IH2|r1 IH1 r2 IH2|gr lo hi r1 IH1|nm r1 IH1];
    intros before k Hg Hk prev s c res Hn Hlt Hc; cbn [rx];
    cbn [guarded consumes] in Hg, Hk.
  - destruct (at_bol m prev); [|discriminate].
    apply (Hk _ _ _ _ Hn); [|exact Hc].
    rewrite orb_false_r. exact Hlt.
  - destruct (at_eol m s); [|discriminate].
    apply (Hk _ _ _ _ Hn); [|exact Hc].
    rewrite orb_false_r. exact Hlt.
  - destruct (skip_lit l prev s) as [[p' s']|] eqn:E; [|discriminate].
    apply skip_lit_length in E.
    apply (Hk _ _ _ _); [lia| |exact Hc].
    intros Hb. apply orb_prop in Hb. destruct Hb as [Hb|Hb].
    + specialize (Hlt Hb). lia.
    + destruct l; [discriminate|]. cbn [String.length] in E. lia.
  - destruct s as [|a s]; [discriminate|].
    destruct (f a); [|discriminate].
    cbn [String.length] in Hn.
    apply (Hk _ _ _ _); [lia | intros _; lia | exact Hc].
  - apply andb_prop in Hg. destruct Hg as [Hg1 Hg2].
    apply (IH1 before (fun p' s' c' => rx r2 p' s' c' k) Hg1) with (prev := prev)
      (s := s) (c := c); try assumption.
    apply (IH2 _ k Hg2). rewrite <- orb_assoc. exact Hk.
  - apply andb_prop in Hg. destruct Hg as [Hg1 Hg2].
    destruct (rx r1 prev s c k) as [x|] eqn:E.
    + intros H. injection H as <-.
      apply (IH1 before k Hg1) with (prev := prev) (s := s) (c := c);
        try assumption.
      apply (keeps_weaken g n (before || consumes r1 && consumes r2)); [|exact Hk].
      destruct before, (consumes r1), (consumes r2); cbn; auto.
    + apply (IH2 before k Hg2) with (prev := prev) (s := s) (c := c);
        try assumption.
      apply (keeps_weaken g n (before || consumes r1 && consumes r2)); [|exact Hk].
      destruct before, (consumes r1), (consumes r2); cbn; auto.
  - apply (rep_loop_guarded g n before (rx r1) (consumes r1)) with (k := k);
      try assumption.
    + intros k0 Hk0. apply (IH1 before k0 Hg Hk0).
    + intros [Hb|Hi]; [apply Hlt, Hb | lia].
  - apply andb_prop in Hg. destruct Hg as [Hg0 Hg1].
    apply (IH1 before
             (fun prev' s' c' =>
                k prev' s'
                  ((nm, Str.take (String.length s - String.length s') s) :: c'))
             Hg1) with (prev := prev) (s := s) (c := c); try assumption.
    intros p' s' c' r' Hn' Hlt' Hc'. apply (Hk _ _ _ _ Hn' Hlt').
    intros v. cbn [lookup]. destruct (String.eqb g nm) eqn:E.
    + intros H. injection H as <-.
      rewrite String.eqb_sym, E in Hg0.
      pose proof (take_length_le s (String.length s - String.length s')).
      specialize (Hlt Hg0). lia.
    + apply Hc'.
Qed.

Lemma guarded_mono (g : string) (r : regex) :
  forall b, guarded g b r = true -> guarded g true r = true.
Proof.
  induction r as [m|m|l|f|r1 IH1 r2 IH2|r1 IH1 r2 IH2|gr lo hi r1 IH1|nm r1 IH1];
    intros b; cbn [guarded]; try reflexivity.
  - intros H. apply andb_prop in H. destruct H as [H1 H2].
    rewrite (IH1 _ H1). cbn [orb andb]. apply (IH2 _ H2).
  - intros H. apply andb_prop in H. destruct H as [H1 H2].
    rewrite (IH1 _ H1), (IH2 _ H2). reflexivity.
  - apply IH1.
  - intros H. apply andb_prop in H. destruct H as [_ H1].
    rewrite (IH1 _ H1). destruct (String.eqb nm g); reflexivity.
Qed.

Lemma keeps_accept (g : string) (n : nat) (b : bool) : keeps g n b accept.
Proof. intros prev s c res _ _ Hc H. injection H as <-. exact Hc. Qed.

Lemma search_guarded (g : string) (n : nat) (r : regex) (s : string) :
  guarded g true r = true ->
  forall prev c, String.length s < n ->
  search_from r prev s = Some c -> short g n c.
Proof.
  intros Hg. assert (H0 : short g n []) by (intros v H; discriminate H).
  induction s as [|a s IH]; intros prev c Hn; cbn [search_from].
  - destruct (rx r prev EmptyString [] accept) as [x|] eqn:E; [|discriminate].
    intros H. injection H as <-.
    apply (rx_guarded g n r true accept Hg (keeps_accept _ _ _) _ _ _ _)
      with (4 := E); [lia | intros _; exact Hn | exact H0].
  - destruct (rx r prev (String a s) [] accept) as [x|] eqn:E.
    + intros H. injection H as <-.
      apply (rx_guarded g n r true accept Hg (keeps_accept _ _ _) _ _ _ _)
        with (4 := E); [lia | intros _; exact Hn | exact H0].
    + apply IH. cbn [String.length] in Hn. lia.
Qed.

(** When every group [g] of a pattern comes after a character, what
    the group captures is shorter than the subject. *)
Lemma group_shorter (g : string) (r : regex) (t : string) (md : rematch) :
  guarded g false r = true ->
  t <> EmptyString ->
  re_search r t = Some md ->
  String.length (get md g) < String.length t.
Proof.
  intros Hg Ht. unfold re_search, mk, get.
  destruct (search_from r None t) as [c|] eqn:E; [|discriminate].
  intros H. injection H as <-. cbn [m_caps].
  assert (Hs : short g (String.length t) c).
  { destruct t as [|a t]; [contradiction|]. cbn [search_from] in E.
    assert (H0 : short g (String.length (String a t)) [])
      by (intros v H; discriminate H).
    destruct (rx r None (String a t) [] accept) as [x|] eqn:Ex.
    - injection E as <-.
      apply (rx_guarded g _ r false accept Hg (keeps_accept _ _ _) _ _ _ _)
        with (4 := Ex); [lia | discriminate | exact H0].
    - apply (search_guarded g _ r t (guarded_mono g r false Hg) _ _) with (2 := E).
      cbn [String.length]. lia. }
  destruct (lookup g c) as [v|] eqn:El; [apply Hs, El|].
  destruct t; [contradiction | cbn [String.length]; lia].
Qed.

Lemma drop_shorter (k : nat) (t : string) :
  t <> EmptyString -> 0 < k ->
  String.length (Str.drop k t) < String.length t.
Proof.
  intros Ht Hk. destruct k as [|k]; [lia|].
  destruct t as [|a t]; [contradiction|]. cbn [Str.drop String.length].
  clear Ht Hk. revert k. induction t as [|b t IH]; intros [|k];
    cbn [Str.drop String.length]; try lia.
  specialize (IH k). lia.
Qed.

Lemma drop_succ (i : nat) (s : string) :
  Str.drop (S i) s = Str.drop 1 (Str.drop i s).
Proof.
  revert s. induction i as [|i IH]; intros s.
  - reflexivity.
  - destruct s as [|a s]; [reflexivity|].
    change (Str.drop (S (S i)) (String a s)) with (Str.drop (S i) s).
    rewrite IH. reflexivity.
Qed.

(** An iteration of the loop of [str_lex] shortens [text] and keeps the
    invariant. *)
Lemma lex_step_shorter (st : lex) :
  text st <> EmptyString -> lex_inv st ->
  String.length (text (lex_step st)) < String.length (text st)
  /\ lex_inv (lex_step st).
Proof.
  intros Ht Hinv.
  assert (Hre : forall r md,
            guarded "text" false r = true ->
            re_search r (text st) = Some md ->
            String.length (get md "text") < String.length (text st))
    by (intros r md Hg; apply (group_shorter "text" r _ md Hg Ht)).
  assert (Hdrop : forall k, 0 < k ->
            String.length (Str.drop k (text st)) < String.length (text st))
    by (intros k; apply drop_shorter, Ht).
  unfold lex_step, bracket_rules, emit, emit_flushed, lex_inv.
  repeat match goal with
         | |- context [match re_search ?r (text st) with _ => _ end] =>
             let E := fresh "E" in
             destruct (re_search r (text st)) eqn:E
         | |- context [if ?b then _ else _] => destruct b
         end;
    cbn [text text_i prefix_and_text];
    (split; [|reflexivity]);
    try (apply Hdrop; lia);
    try (eapply Hre; [|eassumption]; vm_compute; reflexivity).
  all: rewrite drop_succ, <- Hinv; apply Hdrop; lia.
Qed.

Lemma lex_loop_ends (fuel : nat) :
  forall st, lex_inv st -> String.length (text st) <= fuel ->
  text (lex_loop fuel st) = EmptyString.
Proof.
  induction fuel as [|fuel IH]; intros st Hinv Hlen; cbn [lex_loop].
  - destruct (text st); [reflexivity | cbn in Hlen; lia].
  - destruct (text st) as [|a t] eqn:E; cbn [Str.is_empty]; [exact E|].
    assert (Ht : text st <> EmptyString) by (rewrite E; discriminate).
    destruct (lex_step_shorter st Ht Hinv) as [Hs Hi].
    apply IH; [exact Hi|]. rewrite E in Hs. cbn [String.length] in *. lia.
Qed.

Lemma lex_loop_stable (n m : nat) :
  forall st, text (lex_loop n st) = EmptyString ->
  lex_loop (n + m) st = lex_loop n st.
Proof.
  induction n as [|n IH]; intros st; cbn [lex_loop Nat.add].
  - intros H. destruct m; cbn [lex_loop]; [reflexivity|].
    rewrite H. reflexivity.
  - destruct (Str.is_empty (text st)); [reflexivity | apply IH].
Qed.

(** X1. The loop of [str_lex] ends because its text is used up: every
    iteration shortens the text, so after as many iterations as the
    input has characters nothing is left to scan, and further
    iterations change neither the state nor the tokens returned. *)
Theorem str_lex_uses_up_its_input (t : string) :
  text (lex_loop (String.length t) (MkLex [] t EmptyString 0 t))
  = EmptyString
  /\ forall n, flush (lex_loop (String.length t + n)
                               (MkLex [] t EmptyString 0 t))
               = str_lex t.
Proof.
  assert (H : text (lex_loop (String.length t) (MkLex [] t EmptyString 0 t))
              = EmptyString)
    by (apply lex_loop_ends; [reflexivity | cbn; lia]).
  split; [exact H|].
  intros n. unfold str_lex. rewrite (lex_loop_stable _ n _ H). reflexivity.
Qed.

End LexerProps.

(** ** The sentinels of [token_lex] come in pairs *)

Module TokenProps.
Import Lexer Props.
Local Open Scope nat_scope.
Local Open Scope list_scope.

Lemma occ_app (a : token) (l1 l2 : list token) :
  occ a (l1 ++ l2) = occ a l1 + occ a l2.
Proof. unfold occ. rewrite filter_app, length_app. reflexivity. Qed.

Lemma occ_firstn_all (a : token) (l : list token) (n : nat) :
  length l <= n -> occ a (firstn n l) = occ a l.
Proof. intros H. rewrite firstn_all2 by exact H. reflexivity. Qed.

Lemma occ_firstn_snoc (a t : token) (l : list token) (n : nat) :
  occ a (firstn n (l ++ [t]))
  = occ a (firstn n l) + (if length l <? n then b2n (same a t) else 0).
Proof.
  rewrite firstn_app, occ_app. f_equal.
  destruct (Nat.ltb_spec (length l) n) as [H|H].
  - destruct (n - length l) as [|k] eqn:E; [lia|].
    cbn [firstn]. destruct k; unfold occ; cbn [filter];
      destruct (same a t); reflexivity.
  - replace (n - length l) with 0 by lia. reflexivity.
Qed.

Lemma firstn_set_nth {A} (x : A) (l : list A) :
  forall n j, firstn n (set_nth j x l) = set_nth j x (firstn n l).
Proof.
  induction l as [|y l IH]; intros [|n] [|j]; cbn [set_nth firstn];
    try reflexivity.
  rewrite IH. reflexivity.
Qed.

Lemma length_set_nth {A} (x : A) (l : list A) :
  forall j, length (set_nth j x l) = length l.
Proof.
  induction l as [|y l IH]; intros [|j]; cbn [set_nth length];
    try reflexivity.
  rewrite IH. reflexivity.
Qed.

Lemma set_nth_none {A} (x : A) (l : list A) :
  forall j, nth_error l j = None -> set_nth j x l = l.
Proof.
  induction l as [|y l IH]; intros [|j]; cbn [set_nth nth_error];
    try reflexivity; try discriminate.
  intros H. rewrite (IH _ H). reflexivity.
Qed.

Lemma occ_set_nth (a x y : token) (l : list token) :
  forall j, nth_error l j = Some y ->
  occ a (set_nth j x l) + b2n (same a y) = occ a l + b2n (same a x).
Proof.
  induction l as [|z l IH]; intros [|j]; cbn [set_nth nth_error];
    try discriminate.
  - intros H. injection H as ->. unfold occ. cbn [filter].
    destruct (same a x), (same a y); cbn [length b2n]; lia.
  - intros H. specialize (IH _ H). unfold occ in *. cbn [filter].
    destruct (same a z); cbn [length]; lia.
Qed.

Lemma nth_error_firstn_lt {A} (l : list A) :
  forall n j, j < n -> nth_error (firstn n l) j = nth_error l j.
Proof.
  induction l as [|y l IH]; intros [|n] [|j] H; cbn [firstn nth_error];
    try reflexivity; try lia.
  apply IH. lia.
Qed.

Lemma nth_error_firstn_ge {A} (l : list A) :
  forall n j, n <= j -> nth_error (firstn n l) j = None.
Proof.
  induction l as [|y l IH]; intros [|n] [|j] H; cbn [firstn nth_error];
    try reflexivity; try lia.
  apply IH. lia.
Qed.

Lemma occ_firstn_set_nth (a x y : token) (l : list token) (n j : nat) :
  nth_error l j = Some y ->
  occ a (firstn n (set_nth j x l)) + (if j <? n then b2n (same a y) else 0)
  = occ a (firstn n l) + (if j <? n then b2n (same a x) else 0).
Proof.
  intros H. rewrite firstn_set_nth.
  destruct (Nat.ltb_spec j n) as [Hj|Hj].
  - apply occ_set_nth. rewrite nth_error_firstn_lt by exact Hj. exact H.
  - rewrite set_nth_none by (apply nth_error_firstn_ge; exact Hj). reflexivity.
Qed.

Lemma nth_error_set_nth_other {A} (x : A) (l : list A) :
  forall j k, j <> k -> nth_error (set_nth j x l) k = nth_error l k.
Proof.
  induction l as [|y l IH]; intros [|j] [|k] H; cbn [set_nth nth_error];
    try reflexivity; try lia.
  apply IH. lia.
Qed.

Lemma nth_error_snoc {A} (l : list A) (t y : A) (j : nat) :
  nth_error l j = Some y -> nth_error (l ++ [t]) j = Some y.
Proof.
  intros H. rewrite nth_error_app1; [exact H|].
  apply nth_error_Some. congruence.
Qed.

Lemma set_nth_snoc {A} (x t : A) (l : list A) :
  forall j, j < length l -> set_nth j x (l ++ [t]) = set_nth j x l ++ [t].
Proof.
  induction l as [|y l IH]; intros [|j] H; cbn [length] in H;
    cbn [set_nth app]; try reflexivity; try lia.
  rewrite IH by lia. reflexivity.
Qed.

Section Kind.
Variables (s e : token) (m : string).
Hypothesis s_e : same s e = false.
Hypothesis e_s : same e s = false.
Hypothesis s_s : same s s = true.
Hypothesis e_e : same e e = true.
Hypothesis s_str : forall t, same s (TStr t) = false.
Hypothesis e_str : forall t, same e (TStr t) = false.

(** A token of another kind is appended. *)
Lemma kind_app (t : token) (i : Z) (l : list token) :
  same s t = false -> same e t = false ->
  kind_inv s e m i l -> kind_inv s e m i (l ++ [t]).
Proof.
  intros Hs He [[Hp Ht] Ho].
  assert (Hf : forall a n, same a t = false ->
            occ a (firstn n (l ++ [t])) = occ a (firstn n l)).
  { intros a n Ha. rewrite occ_firstn_snoc, Ha. cbn [b2n].
    destruct (length l <? n); lia. }
  split; [split|].
  - intros n. rewrite !Hf by assumption. apply Hp.
  - rewrite !occ_app. unfold occ at 2 4. cbn [filter]. rewrite Hs, He.
    cbn [length]. lia.
  - destruct Ho as [Ho|(H0 & Hn & Hb)]; [left; exact Ho|right].
    split; [exact H0|]. split; [apply nth_error_snoc, Hn|].
    intros n Hi. rewrite !Hf by assumption. apply Hb, Hi.
Qed.

(** A token of another kind is replaced by one of another kind. *)
Lemma kind_set (x y : token) (j : nat) (i : Z) (l : list token) :
  nth_error l j = Some y ->
  same s x = false -> same e x = false ->
  same s y = false -> same e y = false ->
  (i = (-1)%Z \/ Z.to_nat i <> j) ->
  kind_inv s e m i l -> kind_inv s e m i (set_nth j x l).
Proof.
  intros Hj Hsx Hex Hsy Hey Hij [[Hp Ht] Ho].
  assert (Hf : forall a n, same a x = false -> same a y = false ->
            occ a (firstn n (set_nth j x l)) = occ a (firstn n l)).
  { intros a n Hx Hy. pose proof (occ_firstn_set_nth a x y l n j Hj) as H.
    rewrite Hx, Hy in H. cbn [b2n] in H. destruct (j <? n); lia. }
  assert (Hw : forall a, same a x = false -> same a y = false ->
            occ a (set_nth j x l) = occ a l).
  { intros a Hx Hy. pose proof (occ_set_nth a x y l j Hj) as H.
    rewrite Hx, Hy in H. cbn [b2n] in H. lia. }
  split; [split|].
  - intros n. rewrite !Hf by assumption. apply Hp.
  - rewrite !Hw by assumption. exact Ht.
  - destruct Ho as [Ho|(H0 & Hn & Hb)]; [left; exact Ho|right].
    split; [exact H0|]. split.
    + rewrite nth_error_set_nth_other; [exact Hn|].
      destruct Hij as [Hij|Hij]; [lia | congruence].
    + intros n Hi. rewrite !Hf by assumption. apply Hb, Hi.
Qed.

(** The marker is appended while none is open. *)
Lemma kind_open (l : list token) :
  kind_inv s e m (-1) l ->
  kind_inv s e m (len (l ++ [TStr m]) - 1) (l ++ [TStr m]).
Proof.
  intros H. pose proof (kind_app (TStr m) _ l (s_str m) (e_str m) H) as [Hp _].
  split; [exact Hp|]. right.
  assert (Hi : Z.to_nat (len (l ++ [TStr m]) - 1) = length l)
    by (unfold len; rewrite length_app; cbn [length]; lia).
  rewrite Hi. split; [unfold len; rewrite length_app; cbn [length]; lia|].
  split.
  - rewrite nth_error_app2, Nat.sub_diag by lia. reflexivity.
  - intros n Hn. rewrite !occ_firstn_snoc, s_str, e_str. cbn [b2n].
    destruct H as [[_ Ht] _].
    rewrite !occ_firstn_all by exact Hn. destruct (length l <? n); lia.
Qed.

(** The end sentinel is appended and the open marker becomes the start
    sentinel. *)
Lemma kind_close (i : Z) (l : list token) :
  (0 <= i)%Z -> kind_inv s e m i l ->
  kind_inv s e m (-1) (set_nth (Z.to_nat i) s (l ++ [e])).
Proof.
  intros H0 [[Hp Ht] [Ho|(_ & Hn & Hb)]]; [lia|].
  assert (Hlt : Z.to_nat i < length l) by (apply nth_error_Some; congruence).
  pose proof (nth_error_snoc l e _ _ Hn) as Hn'.
  assert (Hf : forall a n,
            occ a (firstn n (set_nth (Z.to_nat i) s (l ++ [e])))
            + (if Z.to_nat i <? n then b2n (same a (TStr m)) else 0)
            = occ a (firstn n l)
              + (if length l <? n then b2n (same a e) else 0)
              + (if Z.to_nat i <? n then b2n (same a s) else 0)).
  { intros a n.
    rewrite (occ_firstn_set_nth a s (TStr m) (l ++ [e]) n _ Hn').
    rewrite occ_firstn_snoc. reflexivity. }
  split; [split|left; reflexivity].
  - intros n. pose proof (Hf s n) as Hs. pose proof (Hf e n) as He.
    rewrite s_s, s_e, s_str in Hs. rewrite e_s, e_e, e_str in He.
    cbn [b2n] in Hs, He. specialize (Hp n).
    destruct (Nat.ltb_spec (Z.to_nat i) n) as [Hi|Hi];
      destruct (Nat.ltb_spec (length l) n) as [Hl|Hl]; try lia.
    specialize (Hb n). lia.
  - pose proof (Hf s (S (length l))) as Hs.
    pose proof (Hf e (S (length l))) as He.
    rewrite s_s, s_e, s_str in Hs. rewrite e_s, e_e, e_str in He.
    cbn [b2n] in Hs, He.
    assert (Hall : forall a,
              occ a (firstn (S (length l)) (set_nth (Z.to_nat i) s (l ++ [e])))
              = occ a (set_nth (Z.to_nat i) s (l ++ [e]))).
    { intros a. apply occ_firstn_all.
      rewrite length_set_nth, length_app. cbn [length]. lia. }
    rewrite !Hall in *.
    rewrite !occ_firstn_all in * by lia.
    destruct (Nat.ltb_spec (Z.to_nat i) (S (length l))) as [Hi|Hi]; [|lia].
    destruct (Nat.ltb_spec (length l) (S (length l))) as [Hl|Hl]; lia.
Qed.

End Kind.

Lemma literal_app (t : string) (i : Z) (l : list token) :
  kind_inv LITERAL_START_TOKEN LITERAL_END_TOKEN "@@" i l ->
  kind_inv LITERAL_START_TOKEN LITERAL_END_TOKEN "@@" i (l ++ [TStr t]).
Proof. apply kind_app; reflexivity. Qed.

Lemma entity_app (t : string) (i : Z) (l : list token) :
  kind_inv HTML_ENTITY_LITERAL_START_TOKEN HTML_ENTITY_LITERAL_END_TOKEN
           "@<" i l ->
  kind_inv HTML_ENTITY_LITERAL_START_TOKEN HTML_ENTITY_LITERAL_END_TOKEN
           "@<" i (l ++ [TStr t]).
Proof. apply kind_app; reflexivity. Qed.

Lemma open_at_index (s e : token) (m : string) (i : Z) (l : list token) :
  open_at s e m i l -> (-1 <? i)%Z = true ->
  (0 <= i)%Z /\ nth_error l (Z.to_nat i) = Some (TStr m).
Proof.
  intros [H|(H0 & Hn & _)] Hi; [|split; assumption].
  subst i. discriminate Hi.
Qed.

Lemma open_at_none (s e : token) (m : string) (i : Z) (l : list token) :
  open_at s e m i l -> (-1 <? i)%Z = false -> i = (-1)%Z.
Proof.
  intros [H|(H0 & _)] Hi; [exact H|].
  apply Z.ltb_ge in Hi. lia.
Qed.

Lemma other_index (s e : token) (m m' : string) (i j : Z)
    (l : list token) :
  m <> m' ->
  open_at s e m i l -> nth_error l (Z.to_nat j) = Some (TStr m') ->
  i = (-1)%Z \/ Z.to_nat i <> Z.to_nat j.
Proof.
  intros Hm [H|(_ & Hn & _)] Hj; [left; exact H|right].
  intros E. rewrite E in Hn. congruence.
Qed.

(** One iteration of the loop of [token_lex] keeps the invariant. *)
Lemma group_step_inv (g : grp) (s : string) :
  grp_inv g -> grp_inv (group_step g s).
Proof.
  intros [Hl He]. unfold group_step, grp_inv.
  destruct (String.eqb (prev_s g ++ s) "@@" && (-1 <? last_idx g)%Z) eqn:E1.
  { apply andb_prop in E1. destruct E1 as [_ E1].
    destruct (open_at_index _ _ _ _ _ (proj2 Hl) E1) as [H0 Hn].
    cbn [last_idx last_html_entity_idx out]. split.
    - apply kind_close; try reflexivity; assumption.
    - apply kind_set with (y := TStr "@@"); try reflexivity.
      + apply nth_error_snoc, Hn.
      + eapply other_index; [|exact (proj2 He)|exact Hn]. discriminate.
      + apply kind_app; [reflexivity | reflexivity | exact He]. }
  destruct (String.eqb (prev_s g ++ s) "@@"
            && (1 <? remaining_literal_cnt g)%Z) eqn:E2.
  { assert (Hi : last_idx g = (-1)%Z).
    { apply (open_at_none _ _ _ _ _ (proj2 Hl)).
      apply andb_prop in E2. destruct E2 as [E2 _]. rewrite E2 in E1.
      exact E1. }
    cbn [last_idx last_html_entity_idx out]. split.
    - apply kind_open; try reflexivity. rewrite <- Hi. exact Hl.
    - apply entity_app, He. }
  destruct (String.eqb (prev_s g ++ s) "@<") eqn:E3.
  { cbn [last_idx last_html_entity_idx out]. split.
    - apply literal_app, Hl.
    - destruct (last_html_entity_idx g =? -1)%Z eqn:E.
      + apply Z.eqb_eq in E. apply kind_open; try reflexivity.
        rewrite <- E. exact He.
      + apply entity_app, He. }
  destruct (String.eqb (prev_s g ++ s) ">@") eqn:E4.
  { destruct (-1 <? last_html_entity_idx g)%Z eqn:E;
      cbn [last_idx last_html_entity_idx out].
    - destruct (open_at_index _ _ _ _ _ (proj2 He) E) as [H0 Hn].
      assert (Hlt : Z.to_nat (last_html_entity_idx g) < length (out g))
        by (apply nth_error_Some; congruence).
      rewrite <- set_nth_snoc by exact Hlt. split.
      + apply kind_set with (y := TStr "@<"); try reflexivity.
        * apply nth_error_snoc, Hn.
        * eapply other_index; [|exact (proj2 Hl)|exact Hn]. discriminate.
        * apply kind_app; [reflexivity | reflexivity | exact Hl].
      + apply kind_close; try reflexivity; assumption.
    - split; [apply literal_app, Hl | apply entity_app, He]. }
  destruct (String.eqb s "@" || String.eqb s ">");
    cbn [last_idx last_html_entity_idx out];
    destruct (Str.is_empty (prev_s g)); split;
    repeat first [ assumption | apply literal_app | apply entity_app ].
Qed.

Lemma fold_group_step_inv (l : list string) :
  forall g, grp_inv g -> grp_inv (fold_left group_step l g).
Proof.
  induction l as [|s l IH]; intros g H; cbn [fold_left]; [exact H|].
  apply IH, group_step_inv, H.
Qed.

Lemma grp_inv_init (n : Z) : grp_inv (MkGrp (-1) (-1) EmptyString [] n).
Proof.
  split; (split; [split|left; reflexivity]);
    try reflexivity; intros k; destruct k; cbn; lia.
Qed.

(** X2. In the tokens of [token_lex] the literal sentinels alternate,
    a start sentinel first and an end sentinel last, and so do the
    sentinels of HTML entity literals: up to any position there are as
    many starts as ends of a kind, or one more, and in all as many. *)
Theorem token_lex_sentinels_paired (text : string) :
  paired LITERAL_START_TOKEN LITERAL_END_TOKEN (token_lex text)
  /\ paired HTML_ENTITY_LITERAL_START_TOKEN HTML_ENTITY_LITERAL_END_TOKEN
            (token_lex text).
Proof.
  unfold token_lex.
  destruct (fold_group_step_inv (str_lex text) _
              (grp_inv_init (count_literal_escapes (str_lex text))))
    as [[H1 _] [H2 _]].
  split; assumption.
Qed.

End TokenProps.

(** ** [List.close] closes what it opens *)

Module ListProps.
Import Inline Blocks Lists Props.
Local Open Scope Z_scope.

Ltac zbool :=
  repeat match goal with
         | |- context [(?a <=? ?b)%Z] => destruct (Z.leb_spec a b)
         | |- context [(?a <? ?b)%Z] => destruct (Z.ltb_spec a b)
         | |- context [(?a =? ?b)%Z] => destruct (Z.eqb_spec a b)
         end;
  cbn [andb orb negb]; try reflexivity; try lia.

Lemma range_nil (lo hi : Z) : hi <= lo -> range lo hi = [].
Proof.
  intros H. unfold range. replace (Z.to_nat (hi - lo)) with 0%nat by lia.
  reflexivity.
Qed.

Lemma range_cons (lo hi : Z) :
  lo < hi -> range lo hi = lo :: range (lo + 1) hi.
Proof.
  intros H. unfold range.
  replace (Z.to_nat (hi - lo)) with (S (Z.to_nat (hi - (lo + 1)))) by lia.
  cbn [seq map]. f_equal; [lia|].
  rewrite <- seq_shift, map_map. apply map_ext. intros k. lia.
Qed.

Lemma inside_close_line (i k : Z) (l : lstate) :
  inside k (inside_line (close_line i l))
  = if k =? i then false else inside k (inside_line l).
Proof.
  unfold close_line, write. cbn [inside_line inside].
  rewrite Z.eqb_sym. reflexivity.
Qed.

Lemma inside_open_line (i k : Z) (l : lstate) :
  inside k (inside_line (open_line i l))
  = if k =? i then true else inside k (inside_line l).
Proof.
  unfold open_line, write. cbn [inside_line inside].
  rewrite (Z.eqb_sym i k). destruct (k =? i) eqn:E; [reflexivity|].
  destruct (inside i (inside_line l)); [|reflexivity].
  rewrite inside_close_line, E. reflexivity.
Qed.

Lemma opened_open_line (i : Z) (l : lstate) :
  opened_lists (open_line i l) = opened_lists l.
Proof.
  unfold open_line, close_line, write.
  destruct (inside i (inside_line l)); reflexivity.
Qed.

(** The lists of the levels [j] to [hi] are closed, the innermost
    first, and their items with them. *)
Lemma close_range (n : nat) :
  forall base j hi l,
  Z.to_nat (hi - (j - 1)) = n -> -1 <= base < j ->
  List.length (opened_lists l) = (Z.to_nat (base + 1) + n)%nat ->
  (forall k, inside k (inside_line l)
             = ((0 <=? k) && (k <=? base)) || ((j <=? k) && (k <=? hi))) ->
  exists l', close_lists (range (j - 1) hi) l = Ok l'
             /\ lists_open_upto base l'.
Proof.
  induction n as [|n IH]; intros base j hi l Hn Hb Hlen Hin.
  - rewrite range_nil by lia. exists l. split; [reflexivity|].
    split; [lia|]. intros k. rewrite Hin. zbool.
  - rewrite range_cons by lia. cbn [close_lists].
    replace (j - 1 + 1) with j by lia.
    unfold close_list at 1. rewrite Hin.
    replace ((j <=? j) && (j <=? hi)) with true
      by (symmetry; apply andb_true_intro; split; apply Z.leb_le; lia).
    rewrite orb_true_r.
    destruct (opened_lists (close_line j l)) as [|tag rest] eqn:E.
    { unfold close_line, write in E. cbn [opened_lists] in E.
      rewrite E in Hlen. cbn in Hlen. lia. }
    cbn [bind].
    replace (range j hi) with (range (j + 1 - 1) hi) by (f_equal; lia).
    apply (IH base (j + 1) hi); try lia.
    + cbn [write opened_lists].
      unfold close_line, write in E. cbn [opened_lists] in E.
      rewrite E in Hlen. cbn [length] in Hlen. lia.
    + intros k. cbn [write inside_line]. rewrite inside_close_line, Hin.
      destruct (Z.eqb_spec k j) as [->|Hk]; zbool.
Qed.

(** A list of the level [lev] is opened, inside the item of the level
    before, which is opened when it is not. *)
Lemma open_list_level (tag : string) (lev t : Z) (l : lstate) :
  t = lev - 1 \/ t = lev - 2 ->
  List.length (opened_lists l) = Z.to_nat lev ->
  0 <= lev ->
  lines_open_upto t l ->
  List.length (opened_lists (open_list tag lev l)) = Z.to_nat (lev + 1)
  /\ lines_open_upto (lev - 1) (open_list tag lev l).
Proof.
  intros Ht Hlen H0 Hin. unfold open_list, lines_open_upto.
  rewrite (Hin (lev - 1)).
  destruct ((0 <=? lev - 1) && (lev - 1 <=? t)) eqn:E.
  - cbn [write opened_lists inside_line length]. split; [lia|].
    intros k. rewrite Hin. apply andb_prop in E. destruct E as [E1 E2].
    apply Z.leb_le in E1, E2. zbool.
  - destruct (Z.ltb_spec 0 lev) as [Hl|Hl].
    + cbn [write opened_lists inside_line length].
      rewrite opened_open_line. split; [lia|].
      intros k. rewrite inside_open_line, Hin.
      apply andb_false_iff in E.
      destruct E as [E|E]; apply Z.leb_gt in E; zbool.
    + cbn [write opened_lists inside_line length]. split; [lia|].
      intros k. rewrite Hin. zbool.
Qed.

(** The lists of the levels [lev + 1] to [hi] are opened. *)
Lemma open_range (tag : string) (n : nat) :
  forall lev hi l,
  Z.to_nat (hi - lev) = n -> -1 <= lev <= hi ->
  List.length (opened_lists l) = Z.to_nat (lev + 1) ->
  lines_open_upto (lev - 1) l ->
  List.length (opened_lists (open_lists tag (range lev hi) l))
  = Z.to_nat (hi + 1)
  /\ lines_open_upto (hi - 1) (open_lists tag (range lev hi) l).
Proof.
  induction n as [|n IH]; intros lev hi l Hn Hb Hlen Hin.
  - assert (hi = lev) by lia. subst hi. rewrite range_nil by lia.
    split; assumption.
  - rewrite range_cons by lia. unfold open_lists. cbn [fold_left].
    destruct (open_list_level tag (lev + 1) (lev - 1) l) as [H1 H2];
      try assumption; try lia.
    apply (IH (lev + 1) hi); try lia.
    replace (lev + 1 - 1) with lev in * by lia.
    replace (lev + 1 - 1) with lev in H2 by lia. exact H2.
Qed.

(** An item of the level [indent] is written after one of the level
    [last]. *)
Lemma write_items_inv (str : nat -> result string)
    (its : list (nat * string * Z)) :
  forall last l,
  Forall (fun it => 0 <= snd it) its ->
  -1 <= last -> lists_open_upto last l ->
  match write_items str its last l with
  | Ok (last', l') => -1 <= last' /\ lists_open_upto last' l'
  | Raise e => exists it, In it its /\ str (fst (fst it)) = Raise e
  end.
Proof.
  induction its as [|[[node tag] indent] its IH]; intros last l Hall Hl Hinv.
  - cbn [write_items]. split; assumption.
  - inversion Hall as [|x xs H0 Hall' Heq]; subst. cbn [snd] in H0.
    cbn [write_items].
    assert (Hc : exists l1,
              close_lists (range indent last) l = Ok l1
              /\ List.length (opened_lists l1) = Z.to_nat (Z.min indent last + 1)
              /\ lines_open_upto (Z.min indent last) l1).
    { destruct Hinv as [Hlen Hin].
      destruct (Z.lt_ge_cases indent last) as [Hlt|Hge].
      - replace (Z.min indent last) with indent by lia.
        replace (range indent last) with (range (indent + 1 - 1) last)
          by (f_equal; lia).
        destruct (close_range (Z.to_nat (last - indent)) indent (indent + 1)
                    last l) as (l1 & E & Hlen1 & Hin1); try lia.
        + intros k. rewrite Hin. zbool.
        + exists l1. split; [exact E | split; assumption].
      - rewrite range_nil by lia. exists l.
        replace (Z.min indent last) with last by lia.
        split; [reflexivity | split; assumption]. }
    destruct Hc as (l1 & E & Hlen1 & Hin1). rewrite E. cbn [bind].
    destruct (str node) as [s|e] eqn:Es; cbn [bind].
    2: { exists (node, tag, indent). split; [left; reflexivity | exact Es]. }
    assert (Hnext : lists_open_upto indent
                      (write s (open_line indent
                                  (open_lists tag (range last indent) l1)))).
    2: { specialize (IH indent _ Hall' ltac:(lia) Hnext).
         destruct (write_items str its indent _) as [[last' l']|e];
           [exact IH|].
         destruct IH as (it & Hin & Hit). exists it.
         split; [right; exact Hin | exact Hit]. }
    set (l2 := open_lists tag (range last indent) l1).
    assert (H2 : List.length (opened_lists l2) = Z.to_nat (indent + 1)
                 /\ forall k, k <> indent ->
                      inside k (inside_line l2)
                      = (0 <=? k) && (k <=? indent)).
    { subst l2. destruct (Z.lt_ge_cases last indent) as [Hlt|Hge].
      - replace (Z.min indent last) with last in * by lia.
        rewrite range_cons by lia. unfold open_lists. cbn [fold_left].
        destruct (open_list_level tag (last + 1) last l1) as [H1 H2];
          try assumption; try lia.
        replace (last + 1 - 1) with last in H2 by lia.
        destruct (open_range tag (Z.to_nat (indent - (last + 1))) (last + 1)
                    indent (open_list tag (last + 1) l1)) as [H3 H4];
          try assumption; try lia.
        + replace (last + 1 - 1) with last by lia. exact H2.
        + split; [exact H3|]. intros k Hk. unfold open_lists in H4.
          rewrite H4. zbool.
      - replace (Z.min indent last) with indent in * by lia.
        rewrite range_nil by lia. split; [exact Hlen1|].
        intros k _. apply Hin1. }
    destruct H2 as [H2 H3]. split.
    + cbn [write opened_lists]. rewrite opened_open_line. exact H2.
    + intros k. cbn [write inside_line]. rewrite inside_open_line.
      destruct (Z.eqb_spec k indent) as [->|Hk]; [zbool|].
      apply H3, Hk.
Qed.

(** X3. The rendering loops of [List.close] close what they open: for
    items of any tags and any levels from 0 they never pop from an
    empty list of opened lists, and when they end no list and no list
    item is left open. *)
Theorem list_close_leaves_nothing_open (str : nat -> result string)
    (its : list (nat * string * Z)) :
  Forall (fun it => 0 <= snd it) its ->
  match write_items str its (-1) (MkL [] [] []) with
  | Ok (last, l) =>
      exists l',
        close_lists (range (-1) last) l = Ok l'
        /\ opened_lists l' = []
        /\ forall k, inside k (inside_line l') = false
  | Raise e => exists it, In it its /\ str (fst (fst it)) = Raise e
  end.
Proof.
  intros Hall.
  pose proof (write_items_inv str its (-1) (MkL [] [] []) Hall) as H.
  destruct (write_items str its (-1) (MkL [] [] [])) as [[last l]|e].
  - destruct H as (Hl & Hlen & Hin); [lia | |].
    { split; [reflexivity|]. intros k. cbn [inside_line inside]. zbool. }
    destruct (close_range (Z.to_nat (last + 1)) (-1) 0 last l) as
      (l' & E' & Hlen' & Hin'); try lia.
    + intros k. rewrite Hin. zbool.
    + exists l'. split; [exact E'|]. split.
      * destruct (opened_lists l'); [reflexivity | cbn in Hlen'; lia].
      * intros k. rewrite Hin'. zbool.
  - apply H; [lia|]. split; [reflexivity|]. intros k.
    cbn [inside_line inside]. zbool.
Qed.

Lemma list_close_leaves_nothing_open_witness :
  exists last l l',
    write_items (fun _ => Ok "item") [(0%nat, "ul", 0); (1%nat, "ol", 2);
                                      (2%nat, "ul", 0)]
                (-1) (MkL [] [] []) = Ok (last, l)
    /\ close_lists (range (-1) last) l = Ok l'
    /\ opened_lists l' = []
    /\ forall k, inside k (inside_line l') = false.
Proof.
  pose proof (list_close_leaves_nothing_open (fun _ => Ok "item")
                [(0%nat, "ul", 0); (1%nat, "ol", 2); (2%nat, "ul", 0)]) as H.
  cbv beta in H.
  assert (E : exists r,
            write_items (fun _ => Ok "item")
              [(0%nat, "ul", 0); (1%nat, "ol", 2); (2%nat, "ul", 0)]
              (-1) (MkL [] [] []) = Ok r)
    by (eexists; vm_compute; reflexivity).
  destruct E as [[last l] E]. rewrite E in H.
  destruct H as (l' & H); [repeat constructor; cbn; lia|].
  exists last, l, l'. split; [exact E | exact H].
Defined.

Ltac bind_ok H :=
  match type of H with
  | bind ?m _ = Ok _ =>
      let E := fresh "E" in
      destruct m eqn:E; cbn [bind] in H; [|discriminate H]
  end.

(** The levels that the first loop of [List.close] collects are lengths. *)
Lemma items_levels (a : args) (ms : list Re.rematch) :
  forall p triple acc res p',
  (forall t, triple = Some t -> 0 <= snd t) ->
  Forall (fun it => 0 <= snd it) acc ->
  items a ms p triple acc = Ok (res, p') ->
  Forall (fun it => 0 <= snd it) res.
Proof.
  induction ms as [|m ms IH]; intros p triple acc res p' Htr Hacc H;
    cbn [items] in H.
  - injection H as <- _. exact Hacc.
  - bind_ok H.
    assert (Ht : 0 <= snd a0).
    { destruct triple as [t|].
      - injection E as <-. apply Htr. reflexivity.
      - do 3 bind_ok E. injection E as <-. cbn [snd]. lia. }
    do 3 bind_ok H.
    destruct a3 as [[|c br]|].
    + bind_ok H. destruct a3 as [removed p2]. bind_ok H. apply (IH _ _ _ _ _ ) with (3 := H); [discriminate|].
      apply Forall_app. split; [exact Hacc|]. repeat constructor. exact Ht.
    + bind_ok H. apply (IH _ _ _ _ _) with (3 := H); [|exact Hacc].
      intros t Et. injection Et as <-. exact Ht.
    + bind_ok H. destruct a3 as [removed p2]. bind_ok H. apply (IH _ _ _ _ _ ) with (3 := H); [discriminate|].
      apply Forall_app. split; [exact Hacc|]. repeat constructor. exact Ht.
Qed.

(** X4. [List.close] fails only where it parses, or where the
    interpreter runs out of frames: when its first loop, which lexes and
    parses the content of the lines, goes through, the loops that write
    the lists raise nothing of their own, and the only exception that
    the call can end with is the [RecursionError] of the rendering of an
    item. *)
Theorem list_close_failures (rt : runtime) (a : args) (b : block) :
  is_ok (items a (matches b) Parser.init None []) = true ->
  match close_list_block rt a b with
  | Ok _ => True
  | Raise e => e = RecursionError
  end.
Proof.
  unfold close_list_block.
  destruct (items a (matches b) Parser.init None []) as [[its p]|err] eqn:E;
    [intros _ | discriminate].
  cbn [bind].
  assert (Hall : Forall (fun it => 0 <= snd it) its).
  { apply (items_levels a _ _ _ _ _ _) with (3 := E);
      [discriminate | constructor]. }
  pose proof (write_items_inv (render rt a (Parser.h p)) its (-1)
                (MkL [] [] []) Hall) as H.
  destruct (write_items (render rt a (Parser.h p)) its (-1) (MkL [] [] []))
    as [[last l]|e]; cbn [bind].
  - destruct H as (Hl & Hlen & Hin); [lia | |].
    { split; [reflexivity|]. intros k. cbn [inside_line inside]. zbool. }
    destruct (close_range (Z.to_nat (last + 1)) (-1) 0 last l) as
      (l' & E' & _); try lia.
    + intros k. rewrite Hin. zbool.
    + replace (0 - 1) with (-1) in E' by lia. rewrite E'. exact I.
  - destruct H as (it & _ & Hit); [lia | |].
    { split; [reflexivity|]. intros k. cbn [inside_line inside]. zbool. }
    apply (InlineProps.render_error _ _ _ _ _ Hit).
Qed.

Lemma list_close_failures_witness :
  let rt := MkRuntime (fun _ => 0%N) 6 in
  let b := MkBlock List BLOCK_TYPE_UL ["* **a"; "* b"; "* c"]
                   [1%nat; 2%nat; 3%nat]
                   (ul_matches ["* **a"; "* b"; "* c"])
                   BLOCK_TYPE_UL 0 0 0 0 in
  is_ok (items no_args (matches b) Parser.init None []) = true
  /\ close_list_block rt no_args b = Raise RecursionError
  /\ close_list_block rt0 no_args b
     = Ok ["<ul>" ++ nl; "<li>"; "**a"; "</li>" ++ nl; "<li>"; "**b";
           "</li>" ++ nl; "<li>"; "**c"; "</li>" ++ nl; "</ul>" ++ nl].
Proof.
  intros rt b.
  assert (H : is_ok (items no_args (matches b) Parser.init None []) = true)
    by (vm_compute; reflexivity).
  split; [exact H|]. split.
  - pose proof (list_close_failures rt no_args b H) as H1.
    destruct (close_list_block rt no_args b) as [x|e] eqn:E;
      [vm_compute in E; discriminate E | rewrite H1; reflexivity].
  - vm_compute. reflexivity.
Defined.

End ListProps.

(** ** What a pass over the lines keeps *)

Module PassProps.
Import Re Rx Lexer Inline Blocks Driver Props.
Local Open Scope nat_scope.
Local Open Scope list_scope.

Section Keeps.

(** A property of the state of the block parser that every step of the
    loop keeps. *)
Variable P : state -> Prop.
Hypothesis P_emit : forall w ss s, w <> ByDiv -> P s -> P (emit w ss s).
Hypothesis P_block : forall v s, P s -> P (set_current_block v s).
Hypothesis P_level : forall v s, P s -> P (set_bq_level v s).
Hypothesis P_continued : forall v s, P s -> P (set_continued_line v s).
Hypothesis P_factory :
  forall rt line n ty m s b w,
  block_factory rt line n ty m (wiki s) = Ok (b, w) -> P s -> P (set_wiki w s).
Hypothesis P_div_start :
  forall md s,
  P s ->
  P (set_divs (divs s ++ [fst (new_div md)])
              (emit ByDiv [snd (new_div md)] s)).
Hypothesis P_div_end :
  forall d rest s,
  rev (divs s) = d :: rest -> P s ->
  P (emit ByDiv [String.append "</div>" nl] (set_divs (rev rest) s)).

Lemma keeps_close (rt : runtime) (s s1 : state) :
  close_current_block rt s = Ok s1 -> P s -> P s1.
Proof.
  intros H Hs.
  destruct (DriverProps.close_current_block_spec rt s s1 H) as (ws & _ & ->).
  apply P_block, P_emit; [discriminate | exact Hs].
Qed.

Lemma keeps_adjust (rt : runtime) (line l : string) (s s1 : state) :
  adjust_blockquote_level rt line s = Ok (l, s1) -> P s -> P s1.
Proof.
  unfold adjust_blockquote_level. destruct (is_code (current_block s)).
  { intros H. injection H as _ <-. auto. }
  destruct (match re_search RX_BLOCKQUOTE line with
            | Some md => _
            | None => _
            end) as [lev l'].
  destruct (if negb (lev =? bq_level s) then close_current_block rt s
            else Ok s) as [s0|] eqn:E; cbn [bind]; [|discriminate].
  intros H Hs. injection H as _ <-.
  assert (H0 : P s0).
  { destruct (negb (lev =? bq_level s)).
    - apply (keeps_close rt s s0 E Hs).
    - injection E as <-. exact Hs. }
  apply P_level.
  destruct (bq_level s0 <? lev); [apply P_emit; [discriminate|exact H0]|].
  destruct (lev <? bq_level s0); [apply P_emit; [discriminate|exact H0]|].
  exact H0.
Qed.

Lemma keeps_check_for_div (rt : runtime) (line : string) (s s1 : state)
    (b : bool) :
  check_for_div rt line s = Ok (b, s1) -> P s -> P s1.
Proof.
  unfold check_for_div.
  destruct (re_search RX_DIV_START line) as [md|].
  - destruct (close_current_block rt s) as [s0|] eqn:E; cbn [bind];
      [|discriminate].
    pose proof (P_div_start md s0) as Hd.
    destruct (new_div md) as [d w]. cbn [fst snd] in Hd.
    intros H Hs. injection H as _ <-. apply Hd, (keeps_close rt s s0 E Hs).
  - destruct (re_search RX_DIV_END line) as [md|].
    + destruct (close_current_block rt s) as [s0|] eqn:E; cbn [bind];
        [|discriminate].
      destruct (rev (divs s0)) as [|d rest] eqn:Er; intros H Hs;
        injection H as _ <-.
      * apply (keeps_close rt s s0 E Hs).
      * apply (P_div_end d rest s0 Er), (keeps_close rt s s0 E Hs).
    + intros H Hs. injection H as _ <-. exact Hs.
Qed.

Lemma keeps_fenced (rt : runtime) (ty : string) (start stop inner : regex)
    (line : string) (b : block) (s s1 : state)
    (tm : option (string * rematch)) :
  fenced rt ty start stop inner line b s = Ok (tm, s1) -> P s -> P s1.
Proof.
  unfold fenced.
  destruct (is_some (re_search start line)).
  { intros H Hs. injection H as _ <-. apply P_block, Hs. }
  destruct (is_some (re_search stop line)).
  { destruct (input_nesting_level b =? 0).
    - destruct (close_current_block rt s) as [s0|] eqn:E; cbn [bind];
        [|discriminate].
      intros H Hs. injection H as _ <-. apply (keeps_close rt s s0 E Hs).
    - intros H Hs. injection H as _ <-. apply P_block, Hs. }
  destruct (re_search inner line); [|discriminate].
  intros H Hs. injection H as _ <-. exact Hs.
Qed.

Lemma keeps_plain (rt : runtime) (line : string) (s s1 : state)
    (tm : option (string * rematch)) :
  plain rt line s = Ok (tm, s1) -> P s -> P s1.
Proof.
  unfold plain.
  assert (Ha : (r <- analyze_line line (in_table (current_block s)) ;;
                Ok (Some r, s)) = Ok (tm, s1) -> P s -> P s1).
  { destruct (analyze_line line (in_table (current_block s))); cbn [bind];
      [|discriminate].
    intros H Hs. injection H as _ <-. exact Hs. }
  destruct (bq_level s =? 0); [|exact Ha].
  destruct (re_search RX_CODE_START line).
  { destruct (close_current_block rt s) as [s0|] eqn:E; cbn [bind];
      [|discriminate].
    intros H Hs. injection H as _ <-. apply (keeps_close rt s s0 E Hs). }
  destruct (re_search RX_MATH_START line); [|exact Ha].
  destruct (close_current_block rt s) as [s0|] eqn:E; cbn [bind];
    [|discriminate].
  intros H Hs. injection H as _ <-. apply (keeps_close rt s s0 E Hs).
Qed.

Lemma keeps_block_type_and_match (rt : runtime) (line : string)
    (s s1 : state) (tm : option (string * rematch)) :
  block_type_and_match rt line s = Ok (tm, s1) -> P s -> P s1.
Proof.
  unfold block_type_and_match.
  destruct (current_block s) as [b|]; [|apply keeps_plain].
  destruct (b_kind b); try apply keeps_plain; apply keeps_fenced.
Qed.

(** An iteration of the loop of [_process_lines] keeps the property. *)
Lemma keeps_process_line (rt : runtime) (n : nat) (raw : string)
    (s s1 : state) (o : outcome) :
  process_line rt n raw s = Ok (o, s1) -> P s -> P s1.
Proof.
  unfold process_line. intros H Hs.
  destruct (adjust_blockquote_level rt (Str.rstrip raw) s) as [[l sa]|] eqn:Ea;
    cbn [bind] in H; [|discriminate].
  apply keeps_adjust in Ea; [|exact Hs].
  destruct (if String.eqb l TOC_LITERAL then toc sa else None) as [hs|].
  { injection H as _ <-. apply P_emit; [discriminate | exact Ea]. }
  destruct (check_for_div rt l sa) as [[d sd]|] eqn:Ed; cbn [bind] in H;
    [|discriminate].
  apply keeps_check_for_div in Ed; [|exact Ea].
  destruct d; [injection H as _ <-; exact Ed|].
  destruct (block_type_and_match rt l sd) as [[tm sb]|] eqn:Eb;
    cbn [bind] in H; [|discriminate].
  apply keeps_block_type_and_match in Eb; [|exact Ed].
  destruct tm as [[ty m]|]; [|injection H as _ <-; exact Eb].
  destruct (String.eqb ty BLOCK_TYPE_EMPTY && (0 <? bq_level sb));
    [injection H as _ <-; exact Eb|].
  match type of H with
  | bind ?e _ = _ =>
      assert (Hfinal : forall s3, e = Ok s3 -> P s3);
      [|destruct e as [s3|]; cbn [bind] in H; [|discriminate];
        injection H as _ <-; apply P_continued, Hfinal; reflexivity]
  end.
  assert (Hnew : forall s0 s3,
            P s0 ->
            ('(b, w) <- block_factory rt l n ty m (wiki s0) ;;
             Ok (set_current_block (Some b) (set_wiki w s0))) = Ok s3 ->
            P s3).
  { intros s0 s3 H0.
    destruct (block_factory rt l n ty m (wiki s0)) as [[b w]|] eqn:E;
      cbn [bind]; [|discriminate].
    intros H3. injection H3 as <-.
    apply P_block, (P_factory _ _ _ _ _ _ _ _ E H0). }
  assert (Hadd : forall cb c s3,
            (b <- add_line cb l n ty m c ;;
             Ok (set_current_block (Some b) sb)) = Ok s3 -> P s3).
  { intros cb c s3. destruct (add_line cb l n ty m c); cbn [bind];
      [|discriminate].
    intros H3. injection H3 as <-. apply P_block, Eb. }
  intros s3. destruct (current_block sb) as [cb|].
  - destruct (continued_line sb); [apply Hadd|].
    destruct (String.eqb ty (block_type cb) && multiline_type cb);
      [apply Hadd|].
    destruct (close_current_block rt sb) as [sc|] eqn:Ec; cbn [bind];
      [|discriminate].
    apply Hnew, (keeps_close rt sb sc Ec Eb).
  - apply Hnew, Eb.
Qed.

Lemma keeps_process_from (rt : runtime) (input : list string) :
  forall n s s1, process_from rt n input s = Ok s1 -> P s -> P s1.
Proof.
  induction input as [|raw input IH]; intros n s s1; cbn [process_from].
  - intros H Hs. injection H as <-. exact Hs.
  - destruct (process_line rt n raw s) as [[o s0]|] eqn:E; cbn [bind];
      [|discriminate].
    intros H Hs. apply (IH _ _ _ H), (keeps_process_line _ _ _ _ _ _ E Hs).
Qed.

(** The end of a pass keeps the property as well. *)
Lemma keeps_pass (rt : runtime) (input : list string) (s s1 : state) :
  _process_lines rt input s = Ok s1 -> P (set_written [] s) -> P s1.
Proof.
  unfold _process_lines. intros H Hs.
  destruct (process_from rt 1 input (set_written [] s)) as [sa|] eqn:Ea;
    cbn [bind] in H; [|discriminate].
  apply keeps_process_from in Ea; [|exact Hs].
  destruct (close_current_block rt sa) as [sb|] eqn:Eb; cbn [bind] in H;
    [|discriminate].
  apply keeps_close in Eb; [|exact Ea].
  destruct (adjust_blockquote_level rt EmptyString sb) as [[l sc]|] eqn:Ec;
    cbn [bind] in H; [|discriminate].
  injection H as <-. apply (keeps_adjust _ _ _ _ _ Ec Eb).
Qed.

End Keeps.

(** *** The numbers of the headers *)

Lemma factory_numbered (rt : runtime) (line : string) (n : nat)
    (ty : string) (m : rematch) (w w1 : wikidot) (b : block) :
  block_factory rt line n ty m w = Ok (b, w1) -> numbered w -> numbered w1.
Proof.
  unfold block_factory, new_list, new_header, new_math, numbered.
  intros H Hw.
  repeat match type of H with
         | (if ?c then _ else _) = _ => destruct c
         | bind ?e _ = _ => destruct e; cbn [bind] in H; [|discriminate H]
         end;
    injection H as _ <-; try exact Hw.
  cbn [w_toc next_toc_number]. rewrite map_app, Hw, Nat.add_1_r, seq_S.
  reflexivity.
Qed.

Lemma pass_numbered (rt : runtime) (input : list string) (s s1 : state) :
  _process_lines rt input s = Ok s1 ->
  numbered (wiki s) -> numbered (wiki s1).
Proof.
  intros H Hs.
  apply (keeps_pass (fun s => numbered (wiki s))) with (8 := H);
    try (intros; assumption).
  intros rt' line n ty m s0 b w Hf H0.
  apply (factory_numbered _ _ _ _ _ _ _ _ Hf H0).
Qed.

Lemma pass_toc (rt : runtime) (input : list string) (s s1 : state) :
  _process_lines rt input s = Ok s1 -> toc s1 = toc s.
Proof.
  intros H.
  apply (keeps_pass (fun s0 => toc s0 = toc s)) with (8 := H);
    try (intros; assumption); reflexivity.
Qed.

(** X5. The headers are numbered in their order from 0: in the table
    of contents that the first pass collects and the second pass
    writes, and in the one the second pass collects, the header at
    position k has the number k. *)
Theorem toc_numbers_in_order (rt : runtime) (a : args)
    (input : list string) (s : state) :
  process_lines rt input (init a) = Ok s ->
  map hd_toc_number (w_toc (wiki s)) = seq 0 (List.length (w_toc (wiki s)))
  /\ exists hs, toc s = Some hs
                /\ map hd_toc_number hs = seq 0 (List.length hs).
Proof.
  unfold process_lines.
  destruct (_process_lines rt input (init a)) as [s1|] eqn:E1; cbn [bind];
    [|discriminate].
  intros E2.
  assert (H1 : numbered (wiki s1))
    by (apply (pass_numbered _ _ _ _ E1); reflexivity).
  assert (Hlen : forall w, numbered w ->
            map hd_toc_number (w_toc w) = seq 0 (List.length (w_toc w))).
  { intros w Hw. unfold numbered in Hw. rewrite Hw. f_equal.
    rewrite <- (length_map hd_toc_number), Hw, length_seq. reflexivity. }
  split.
  - apply Hlen, (pass_numbered _ _ _ _ E2). reflexivity.
  - exists (w_toc (wiki s1)). split; [|apply Hlen, H1].
    rewrite (pass_toc _ _ _ _ E2). reflexivity.
Qed.

Lemma toc_numbers_in_order_witness :
  exists s,
    process_lines rt0 (doc ["+ One"; "[[toc]]"; "++ Two"; "text"; "+ Three"])
                  (init no_args) = Ok s
    /\ List.length (w_toc (wiki s)) = 3
    /\ map hd_toc_number (w_toc (wiki s))
       = seq 0 (List.length (w_toc (wiki s))).
Proof.
  eexists. split; [vm_compute; reflexivity|]. split; [reflexivity|].
  refine (proj1 (toc_numbers_in_order rt0 no_args
                   (doc ["+ One"; "[[toc]]"; "++ Two"; "text"; "+ Three"])
                   _ _)).
  vm_compute. reflexivity.
Defined.

(** *** The tags of the divs *)

Lemma div_opened_app (l l' : list (writer * string)) :
  div_opened (l ++ l') = div_opened l + div_opened l'.
Proof. unfold div_opened. rewrite filter_app, length_app. reflexivity. Qed.

Lemma div_closed_app (l l' : list (writer * string)) :
  div_closed (l ++ l') = div_closed l + div_closed l'.
Proof. unfold div_closed. rewrite filter_app, length_app. reflexivity. Qed.

Lemma div_tags_other (w : writer) (ws : list string) :
  w <> ByDiv ->
  div_opened (map (pair w) ws) = 0 /\ div_closed (map (pair w) ws) = 0.
Proof.
  intros Hw. induction ws as [|x ws [IH1 IH2]]; [split; reflexivity|].
  unfold div_opened, div_closed in *. cbn [map filter fst snd].
  destruct w; try (split; assumption). contradiction.
Qed.

Lemma new_div_opens (md : rematch) :
  String.eqb (snd (new_div md)) (String.append "</div>" nl) = false.
Proof.
  unfold new_div. cbn [snd].
  destruct (Str.is_empty _); reflexivity.
Qed.

(** X6. In a pass the tags of divs written and the divs open are
    accounted for: the closing tags written and the divs open at the
    end number the opening tags written and the divs that were open
    when the pass began. *)
Theorem div_tags_accounted (rt : runtime) (input : list string)
    (s s1 : state) :
  _process_lines rt input s = Ok s1 ->
  div_opened (written s1) + List.length (divs s)
  = div_closed (written s1) + List.length (divs s1).
Proof.
  intros H.
  apply (keeps_pass (divs_accounted (List.length (divs s)))) with (8 := H);
    unfold divs_accounted; try (intros; assumption); try reflexivity.
  - intros w ss s0 Hw H0. unfold emit. cbn [written set_written divs].
    rewrite div_opened_app, div_closed_app.
    destruct (div_tags_other w ss Hw) as [-> ->]. lia.
  - intros md s0 H0. unfold emit.
    cbn [written set_written set_divs divs map].
    rewrite div_opened_app, div_closed_app, length_app.
    unfold div_opened at 2, div_closed at 2. cbn [filter fst snd].
    rewrite new_div_opens. cbn [negb length]. lia.
  - intros d rest s0 Hr H0. unfold emit.
    cbn [written set_written set_divs divs map].
    rewrite div_opened_app, div_closed_app, length_rev.
    assert (Hl : List.length (divs s0) = S (List.length rest))
      by (rewrite <- length_rev, Hr; reflexivity).
    unfold div_opened at 2, div_closed at 2. cbn [filter fst snd].
    rewrite String.eqb_refl. cbn [negb length]. lia.
Qed.

Lemma div_tags_accounted_witness :
  exists s1,
    _process_lines rt0 (doc ["[[/div]]"; "[[div]]"; "text"])
                   (set_divs [[]] (init no_args)) = Ok s1
    /\ List.length (divs s1) = 1
    /\ div_opened (written s1) + 1
       = div_closed (written s1) + List.length (divs s1).
Proof.
  eexists. split; [vm_compute; reflexivity|]. split; [reflexivity|].
  apply (div_tags_accounted rt0 (doc ["[[/div]]"; "[[div]]"; "text"])
           (set_divs [[]] (init no_args))).
  vm_compute. reflexivity.
Defined.

End PassProps.

(** ** The loops over attributes terminate *)

Module AttrProps.
Import Re Rx Lexer Inline Parser Driver Props.
Local Open Scope nat_scope.





End AttrProps.

(** ** Comments in inline content *)

Module ParserProps.
Import Lexer Inline Parser Props.
Local Open Scope nat_scope.
Local Open Scope list_scope.

Lemma parse_from_app (a : args) (l1 l2 : list token) :
  forall i p,
  parse_from a i (l1 ++ l2) p
  = (p1 <- parse_from a i l1 p ;; parse_from a (i + List.length l1) l2 p1).
Proof.
  induction l1 as [|t l1 IH]; intros i p; cbn [app parse_from List.length].
  - rewrite Nat.add_0_r. reflexivity.
  - destruct (parse_token a i t p) as [p1|e]; cbn [bind]; [|reflexivity].
    rewrite IH. replace (S i + List.length l1) with (i + S (List.length l1))
      by lia.
    reflexivity.
Qed.

(** Inside a comment the tokens are passed over. *)
Lemma comment_skips (a : args) (ts : list token) :
  forall i p,
  comment p = true ->
  Forall (fun t => tok_eqb t "--]" = false) ts ->
  parse_from a i ts p = Ok p.
Proof.
  induction ts as [|t ts IH]; intros i p Hc Hall; [reflexivity|].
  inversion Hall as [|x xs Ht Hall' Heq]; subst.
  cbn [parse_from]. unfold parse_token. rewrite Hc, Ht. cbn [bind].
  apply IH; assumption.
Qed.

(** X9. A comment leaves no trace in the parser: the opening token of a
    comment, any tokens other than the closing one, and the closing
    token bring the parser back to the state it was in, whatever the
    tokens between are and also inside a literal. *)
Theorem comment_leaves_no_trace (a : args) (i : nat) (ts : list token)
    (p : parser) :
  comment p = false ->
  Forall (fun t => tok_eqb t "--]" = false) ts ->
  parse_from a i (TStr "[!--" :: ts ++ [TStr "--]"]) p = Ok p.
Proof.
  intros Hc Hall. cbn [parse_from]. unfold parse_token at 1.
  rewrite Hc. cbn [tok_eqb String.eqb Ascii.eqb Bool.eqb bind].
  rewrite parse_from_app.
  rewrite (comment_skips a ts (S i) (set_comment true p)) by
    (try reflexivity; exact Hall).
  cbn [bind parse_from]. unfold parse_token.
  cbn [comment set_comment tok_eqb String.eqb Ascii.eqb Bool.eqb bind].
  destruct p. cbn in Hc |- *. subst. reflexivity.
Qed.

Lemma comment_leaves_no_trace_witness :
  parse_from no_args 0
    (TStr "[!--" :: [TStr "**"; TStr "a"; LITERAL_START_TOKEN; TStr "##"]
                 ++ [TStr "--]"]) Parser.init
  = Ok Parser.init.
Proof.
  apply comment_leaves_no_trace; [reflexivity|].
  repeat constructor.
Defined.

End ParserProps.

(** ** Fenced blocks and block quotes *)

Module NestingProps.
Import Re Rx Lexer Inline Blocks Driver Props.
Local Open Scope nat_scope.

(** X10. Code and math blocks are open at blockquote level 0 only:
    when the lines of a pass are processed from a state of which this
    is true, as the state is at the start of a pass, it is true after
    every line. *)
Theorem fenced_blocks_only_at_top (rt : runtime) (input : list string)
    (n : nat) (s s1 : state) :
  (is_code (current_block s) || is_math (current_block s) = true ->
   bq_level s = 0) ->
  process_from rt n input s = Ok s1 ->
  is_code (current_block s1) || is_math (current_block s1) = true ->
  bq_level s1 = 0.
Proof.
  intros H0 H.
  destruct (DriverProps.process_from_spec rt input n s s1 H) as (_ & _ & F).
  apply F. exact H0.
Qed.

Lemma fenced_blocks_only_at_top_witness :
  exists s1,
    process_from rt0 1 (doc ["> quoted"; "[[code]]"; "> kept as it is"])
                 (init no_args) = Ok s1
    /\ is_code (current_block s1) = true
    /\ bq_level s1 = 0.
Proof.
  eexists. split; [vm_compute; reflexivity|]. split; [reflexivity|].
  apply (fenced_blocks_only_at_top rt0
           (doc ["> quoted"; "[[code]]"; "> kept as it is"]) 1
           (init no_args)).
  - intros _. reflexivity.
  - vm_compute. reflexivity.
  - reflexivity.
Defined.

End NestingProps.

(** ** The matcher and what patterns denote *)

Module EngineProps.
Import Re Rx Lexer Props.
Local Open Scope nat_scope.

Lemma skip_lit_app (l : string) :
  forall prev s p' s', skip_lit l prev s = Some (p', s') -> s = l ++ s'.
Proof.
  induction l as [|a l IH]; intros prev s p' s'; cbn [skip_lit].
  - intros H. injection H as _ <-. reflexivity.
  - destruct s as [|b s]; [discriminate|].
    destruct (Ascii.eqb_spec a b) as [->|]; [|discriminate].
    intros H. apply IH in H. subst s. reflexivity.
Qed.

Lemma length_app_str (w s : string) :
  String.length (w ++ s) = String.length w + String.length s.
Proof. induction w as [|a w IH]; cbn; [|rewrite IH]; reflexivity. Qed.

Lemma take_app (w s : string) :
  Str.take (String.length (w ++ s) - String.length s) (w ++ s) = w.
Proof.
  rewrite length_app_str. replace (_ + _ - _) with (String.length w) by lia.
  induction w as [|a w IH]; cbn [String.length Str.take String.append].
  - destruct s; reflexivity.
  - rewrite IH. reflexivity.
Qed.

Section Captures.
Variables (g : string) (Q : string -> Prop).

Lemma rep_loop_den (r1 : regex) (gr : bool) (lo : nat) (hi : option nat)
    (k : cont) :
  (forall prev s c k' res,
     caps_sat g Q c -> rx r1 prev s c k' = Some res ->
     reaches g Q r1 s c k' res) ->
  forall fuel i prev s c res,
  within hi i -> caps_sat g Q c ->
  rep_loop (rx r1) gr lo hi k fuel i prev s c = Some res ->
  exists p' w s' c' n,
    s = w ++ s' /\ pow (den r1) n w /\ lo <= i + n /\ within hi (i + n)
    /\ caps_sat g Q c'
    /\ ((must g r1 = true /\ 0 < n) \/ has g c -> has g c')
    /\ k p' s' c' = Some res.
Proof.
  intros Hbody fuel.
  assert (Hstop : forall i prev s c res,
            within hi i -> caps_sat g Q c ->
            (if lo <=? i then k prev s c else None) = Some res ->
            exists p' w s' c' n,
              s = w ++ s' /\ pow (den r1) n w /\ lo <= i + n
              /\ within hi (i + n) /\ caps_sat g Q c'
              /\ ((must g r1 = true /\ 0 < n) \/ has g c -> has g c')
              /\ k p' s' c' = Some res).
  { intros i prev s c res Hi Hc.
    destruct (Nat.leb_spec lo i) as [Hle|Hle]; [|discriminate].
    intros H. exists prev, EmptyString, s, c, 0.
    rewrite Nat.add_0_r. repeat split; try assumption.
    intros [[_ H0]|H0]; [lia | exact H0]. }
  induction fuel as [|fuel IH]; intros i prev s c res Hi Hc; cbn [rep_loop].
  - apply Hstop; assumption.
  - assert (Hmore :
      (if below hi i
       then rx r1 prev s c
              (fun prev' s' c' =>
                 if String.length s' <? String.length s
                 then rep_loop (rx r1) gr lo hi k fuel (S i) prev' s' c'
                 else None)
       else None) = Some res ->
      exists p' w s' c' n,
        s = w ++ s' /\ pow (den r1) n w /\ lo <= i + n
        /\ within hi (i + n) /\ caps_sat g Q c'
        /\ ((must g r1 = true /\ 0 < n) \/ has g c -> has g c')
        /\ k p' s' c' = Some res).
    { destruct (below hi i) eqn:Eb; [|discriminate]. intros H.
      apply Hbody in H; [|exact Hc].
      destruct H as (p1 & w1 & s1 & c1 & Hs & Hd & Hc1 & Hh1 & H).
      destruct (String.length s1 <? String.length s); [|discriminate].
      apply IH in H; [|destruct hi; cbn in *;
                        [apply Nat.ltb_lt in Eb; lia | exact I] | exact Hc1].
      destruct H as (p' & w2 & s' & c' & n & Hs' & Hp & Hlo & Hhi & Hc' & Hh'
                     & H).
      exists p', (w1 ++ w2), s', c', (S n).
      split; [subst s s1; symmetry; apply FencedProps.append_assoc|].
      split; [exists w1, w2; repeat split; assumption|].
      split; [lia|].
      split; [replace (i + S n) with (S i + n) by lia; exact Hhi|].
      split; [exact Hc'|]. split; [|exact H].
      intros Hor. apply Hh'. right. apply Hh1.
      destruct Hor as [[Hm _]|Hor]; [left; exact Hm | right; exact Hor]. }
    destruct gr.
    + destruct (if below hi i then _ else None) as [x|] eqn:E.
      * intros H. injection H as <-. apply Hmore. reflexivity.
      * apply Hstop; assumption.
    + destruct (if lo <=? i then _ else None) as [x|] eqn:E.
      * intros H. injection H as <-. apply (Hstop i prev s c x Hi Hc E).
      * exact Hmore.
Qed.

(** When the matcher gives a result, the pattern has taken one of the
    strings it denotes from the front of the subject, and its groups
    have captured what they denote. *)
Lemma rx_den (r : regex) :
  forall prev s c k res,
  grp_ok g Q r -> caps_sat g Q c ->
  rx r prev s c k = Some res -> reaches g Q r s c k res.
Proof.
  unfold reaches.
  induction r as [m|m|l|f|r1 IH1 r2 IH2|r1 IH1 r2 IH2|gr lo hi r1 IH1|nm r1 IH1];
    intros prev s c k res Hok Hc; cbn [rx].
  - destruct (at_bol m prev); [|discriminate]. intros H.
    exists prev, EmptyString, s, c. repeat split; try assumption.
    intros [H0|H0]; [discriminate H0 | exact H0].
  - destruct (at_eol m s); [|discriminate]. intros H.
    exists prev, EmptyString, s, c. repeat split; try assumption.
    intros [H0|H0]; [discriminate H0 | exact H0].
  - destruct (skip_lit l prev s) as [[p' s']|] eqn:E; [|discriminate].
    intros H. exists p', l, s', c.
    split; [apply (skip_lit_app _ _ _ _ _ E)|].
    repeat split; try assumption.
    intros [H0|H0]; [discriminate H0 | exact H0].
  - destruct s as [|a s]; [discriminate|].
    destruct (f a) eqn:E; [|discriminate]. intros H.
    exists (Some a), (String a EmptyString), s, c.
    split; [reflexivity|]. split; [exists a; split; [reflexivity|exact E]|].
    split; [exact Hc|]. split; [|exact H].
    intros [H0|H0]; [discriminate H0 | exact H0].
  - destruct Hok as [Hok1 Hok2]. intros H.
    apply IH1 in H; [|exact Hok1|exact Hc].
    destruct H as (p1 & w1 & s1 & c1 & Hs1 & Hd1 & Hc1 & Hh1 & H).
    apply IH2 in H; [|exact Hok2|exact Hc1].
    destruct H as (p2 & w2 & s2 & c2 & Hs2 & Hd2 & Hc2 & Hh2 & H).
    exists p2, (w1 ++ w2), s2, c2.
    split; [subst s s1; symmetry; apply FencedProps.append_assoc|].
    split; [exists w1, w2; repeat split; assumption|].
    split; [exact Hc2|]. split; [|exact H].
    cbn [must]. intros [Hm|Hh].
    + apply orb_prop in Hm. destruct Hm as [Hm|Hm].
      * apply Hh2. right. apply Hh1. left. exact Hm.
      * apply Hh2. left. exact Hm.
    + apply Hh2. right. apply Hh1. right. exact Hh.
  - destruct Hok as [Hok1 Hok2].
    destruct (rx r1 prev s c k) as [x|] eqn:E.
    + intros H. injection H as <-.
      apply IH1 in E; [|exact Hok1|exact Hc].
      destruct E as (p1 & w1 & s1 & c1 & Hs1 & Hd1 & Hc1 & Hh1 & H).
      exists p1, w1, s1, c1. repeat split; try assumption.
      * left. exact Hd1.
      * cbn [must]. intros [Hm|Hh]; apply Hh1;
          [left; apply andb_prop in Hm; apply Hm | right; exact Hh].
    + intros H. apply IH2 in H; [|exact Hok2|exact Hc].
      destruct H as (p1 & w1 & s1 & c1 & Hs1 & Hd1 & Hc1 & Hh1 & H).
      exists p1, w1, s1, c1. repeat split; try assumption.
      * right. exact Hd1.
      * cbn [must]. intros [Hm|Hh]; apply Hh1;
          [left; apply andb_prop in Hm; apply Hm | right; exact Hh].
  - intros H.
    apply (rep_loop_den r1 gr lo hi k) in H.
    + destruct H as (p' & w & s' & c' & n & Hs & Hp & Hlo & Hhi & Hc' & Hh & H).
      exists p', w, s', c'. split; [exact Hs|].
      split; [exists n; repeat split; assumption|].
      split; [exact Hc'|]. split; [|exact H].
      cbn [must]. intros [Hm|Hh0]; apply Hh; [left|right; exact Hh0].
      apply andb_prop in Hm. destruct Hm as [Hm1 Hm2].
      apply Nat.ltb_lt in Hm1. split; [exact Hm2 | lia].
    + intros prev0 s0 c0 k0 res0 Hc0. apply IH1; [exact Hok | exact Hc0].
    + destruct hi; cbn; [lia | exact I].
    + exact Hc.
  - destruct Hok as [Hok1 Hq]. intros H.
    apply IH1 in H; [|exact Hok1|exact Hc].
    destruct H as (p1 & w1 & s1 & c1 & Hs1 & Hd1 & Hc1 & Hh1 & H).
    subst s. rewrite take_app in H.
    exists p1, w1, s1, ((nm, w1) :: c1).
    split; [reflexivity|]. split; [exact Hd1|].
    split; [|split; [|exact H]].
    + intros v. cbn [lookup].
      destruct (String.eqb_spec g nm) as [->|Hne].
      * intros Hv. injection Hv as <-. apply (Hq eq_refl), Hd1.
      * apply Hc1.
    + unfold has. cbn [lookup must].
      destruct (String.eqb g nm); [discriminate|].
      cbn [orb]. exact Hh1.
Qed.

Lemma search_den (r : regex) (s : string) :
  forall prev c,
  grp_ok g Q r -> search_from r prev s = Some c ->
  caps_sat g Q c /\ (must g r = true -> has g c).
Proof.
  assert (H0 : caps_sat g Q []) by (intros v H; discriminate H).
  assert (Hone : forall prev s c,
            grp_ok g Q r -> rx r prev s [] accept = Some c ->
            caps_sat g Q c /\ (must g r = true -> has g c)).
  { intros prev s0 c Hok H. apply rx_den in H; [|exact Hok|exact H0].
    destruct H as (p' & w & s' & c' & _ & _ & Hc' & Hh & H).
    injection H as <-. split; [exact Hc'|]. intros Hm. apply Hh. left.
    exact Hm. }
  induction s as [|a s IH]; intros prev c Hok; cbn [search_from].
  - destruct (rx r prev EmptyString [] accept) as [x|] eqn:E; [|discriminate].
    intros H. injection H as <-. apply (Hone _ _ _ Hok E).
  - destruct (rx r prev (String a s) [] accept) as [x|] eqn:E.
    + intros H. injection H as <-. apply (Hone _ _ _ Hok E).
    + apply IH, Hok.
Qed.

(** A group that takes part in every match of the pattern is read
    without an error, and what is read is what the group denotes. *)
Lemma group_str_den (r : regex) (t : string) (md : rematch) :
  grp_ok g Q r -> must g r = true ->
  existsb (String.eqb g) (group_names r) = true ->
  re_search r t = Some md ->
  exists v, group_str md g = Ok v /\ Q v.
Proof.
  intros Hok Hm Hn. unfold re_search, mk.
  destruct (search_from r None t) as [c|] eqn:E; [|discriminate].
  intros H. injection H as <-.
  destruct (search_den r t None c Hok E) as [Hc Hh].
  unfold group_str, group. cbn [m_names m_caps]. rewrite Hn. cbn [bind].
  specialize (Hh Hm). unfold has in Hh.
  destruct (lookup g c) as [v|] eqn:El; [|contradiction].
  exists v. split; [reflexivity | apply Hc, El].
Qed.

End Captures.

End EngineProps.

(** ** The blocks made for classified lines *)

Module BlockProps.
Import Re Rx Lexer Inline Blocks Driver Props.
Local Open Scope nat_scope.

Lemma analyze_line_pattern (line : string) (t : bool) (ty : string)
    (m : rematch) :
  analyze_line line t = Ok (ty, m) ->
  exists r, pattern_of ty = Some r /\ re_search r line = Some m.
Proof.
  unfold analyze_line.
  destruct t; cbn [negb];
    repeat match goal with
           | |- context [match re_search ?r line with _ => _ end] =>
               let E := fresh "E" in destruct (re_search r line) eqn:E
           end;
    intros H; try discriminate H; injection H as <- <-;
    eexists; (split; [reflexivity | assumption]).
Qed.

Lemma pow_unit_length (L : string -> Prop) :
  (forall w, L w -> String.length w = 1) ->
  forall n w, pow L n w -> String.length w = n.
Proof.
  intros HL n. induction n as [|n IH]; intros w; cbn [pow].
  - intros ->. reflexivity.
  - intros (w1 & w2 & -> & H1 & H2).
    rewrite EngineProps.length_app_str, (HL _ H1), (IH _ H2). reflexivity.
Qed.

Ltac groups_ok :=
  cbv [RX_UL RX_OL RX_HN cat br opt bol eol star plus star_lazy ws non_ws
       none_of chr dot grp_ok];
  repeat match goal with
         | |- _ /\ _ => split
         | |- True => exact I
         | |- _ = _ -> _ => let X := fresh in intros X; try discriminate X
         end.

(** The marker of a list line is read as it is written. *)
Lemma raw_tag_read (r : regex) (tag line : string) (m : rematch) :
  (r = RX_UL /\ tag = "*") \/ (r = RX_OL /\ tag = "#") ->
  re_search r line = Some m ->
  group_str m "raw_tag" = Ok tag.
Proof.
  intros Hr H.
  destruct (EngineProps.group_str_den "raw_tag" (fun v => v = tag) r line m)
    as (v & Hv & ->); try exact H; try exact Hv;
    destruct Hr as [[-> ->]|[-> ->]]; try reflexivity;
    groups_ok; intros w Hw; exact Hw.
Qed.

(** The plus signs of a header line are one to six. *)
Lemma plus_signs_read (line : string) (m : rematch) :
  re_search RX_HN line = Some m ->
  exists v, group_str m "plus_signs" = Ok v
            /\ 1 <= String.length v <= 6.
Proof.
  intros H.
  apply (EngineProps.group_str_den "plus_signs"
           (fun v => 1 <= String.length v <= 6) RX_HN line m);
    try exact H; try reflexivity.
  groups_ok. intros w (n & Hlo & Hhi & Hp). cbn [within] in Hhi.
  assert (HL : forall w0, den (Cls (Ascii.eqb "+")) w0 -> String.length w0 = 1)
    by (intros w0 (a & -> & _); reflexivity).
  rewrite (pow_unit_length _ HL n w Hp). lia.
Qed.

(** X11. Making the block of a classified line fails for a header
    only, whose content is parsed when it is made: for a line that
    [analyze_line] has classified, [block_factory] returns a block,
    unless the line is a header and its content fails to parse. The
    exception for an unrecognized list marker is never raised. *)
Theorem block_factory_fails_only_for_headers (rt : runtime)
    (line : string) (t : bool) (lineno : nat) (ty : string) (m : rematch)
    (w : wikidot) :
  analyze_line line t = Ok (ty, m) ->
  is_ok (block_factory rt line lineno ty m w)
  = if String.eqb ty BLOCK_TYPE_HN then is_ok (content rt (w_args w) [m])
    else true.
Proof.
  intros H. apply analyze_line_pattern in H. destruct H as (r & Hp & Hm).
  unfold pattern_of in Hp. unfold block_factory.
  destruct (String.eqb_spec ty BLOCK_TYPE_UL) as [->|_].
  { injection Hp as <-. cbn [orb String.eqb Ascii.eqb Bool.eqb]. unfold new_list.
    rewrite (raw_tag_read RX_UL "*" line m) by (auto; exact Hm).
    reflexivity. }
  destruct (String.eqb_spec ty BLOCK_TYPE_OL) as [->|_].
  { injection Hp as <-. cbn [orb String.eqb Ascii.eqb Bool.eqb]. unfold new_list.
    rewrite (raw_tag_read RX_OL "#" line m) by (auto; exact Hm).
    reflexivity. }
  cbn [orb].
  destruct (String.eqb_spec ty BLOCK_TYPE_HN) as [->|_].
  { injection Hp as <-. cbn [String.eqb Ascii.eqb Bool.eqb]. unfold new_header.
    destruct (plus_signs_read line m Hm) as (v & -> & _). cbn [bind].
    destruct (content rt (w_args w) [m]); reflexivity. }
  destruct (String.eqb ty BLOCK_TYPE_HR) eqn:E1;
    [apply String.eqb_eq in E1; subst ty; reflexivity|].
  destruct (String.eqb ty BLOCK_TYPE_TABLE) eqn:E2;
    [apply String.eqb_eq in E2; subst ty; reflexivity|].
  destruct (String.eqb ty BLOCK_TYPE_EMPTY) eqn:E3;
    [apply String.eqb_eq in E3; subst ty; reflexivity|].
  destruct (String.eqb ty BLOCK_TYPE_P) eqn:E4;
    [apply String.eqb_eq in E4; subst ty; reflexivity|].
  discriminate Hp.
Qed.

Lemma block_factory_fails_only_for_headers_witness :
  exists ty m,
    analyze_line " # item" false = Ok (ty, m)
    /\ ty = BLOCK_TYPE_OL
    /\ is_ok (block_factory rt0 " # item" 1 ty m (MkWikidot no_args [] 0 1))
       = true.
Proof.
  eexists. eexists. split; [vm_compute; reflexivity|].
  split; [reflexivity|].
  rewrite (block_factory_fails_only_for_headers rt0 " # item" false 1)
    by (vm_compute; reflexivity).
  reflexivity.
Defined.

(** X12. A header is of a level from 1 to 6: the block made for a line
    classified as a header has one of the tags h1 to h6, and the entry
    it adds to the table of contents has that level. *)
Theorem header_levels (rt : runtime) (line : string) (t : bool)
    (lineno : nat) (m : rematch) (w w1 : wikidot) (b : block) :
  analyze_line line t = Ok (BLOCK_TYPE_HN, m) ->
  block_factory rt line lineno BLOCK_TYPE_HN m w = Ok (b, w1) ->
  exists k hd,
    1 <= k <= 6
    /\ tag b = "h" ++ Str.of_nat k
    /\ In (tag b) ["h1"; "h2"; "h3"; "h4"; "h5"; "h6"]
    /\ w_toc w1 = (w_toc w ++ [hd])%list
    /\ hd_n hd = k.
Proof.
  intros H. apply analyze_line_pattern in H. destruct H as (r & Hp & Hm).
  injection Hp as <-.
  unfold block_factory. cbn [orb String.eqb Ascii.eqb Bool.eqb]. unfold new_header.
  destruct (plus_signs_read line m Hm) as (v & -> & Hv). cbn [bind].
  destruct (content rt (w_args w) [m]) as [text|e]; cbn [bind];
    [|discriminate].
  intros Hb. injection Hb as <- <-.
  exists (String.length v), (MkHeader (String.length v) (next_toc_number w) text).
  cbn [tag w_toc hd_n]. repeat split; try lia.
  assert (Hk : String.length v = 1 \/ String.length v = 2
               \/ String.length v = 3 \/ String.length v = 4
               \/ String.length v = 5 \/ String.length v = 6) by lia.
  destruct Hk as [-> | [-> | [-> | [-> | [-> | ->]]]]]; vm_compute; tauto.
Qed.

Lemma header_levels_witness :
  exists m b w1,
    analyze_line "+++ Title" false = Ok (BLOCK_TYPE_HN, m)
    /\ block_factory rt0 "+++ Title" 1 BLOCK_TYPE_HN m
         (MkWikidot no_args [] 0 1) = Ok (b, w1)
    /\ tag b = "h3"
    /\ In (tag b) ["h1"; "h2"; "h3"; "h4"; "h5"; "h6"].
Proof.
  eexists. eexists. eexists.
  split; [vm_compute; reflexivity|].
  split; [vm_compute; reflexivity|].
  split; [reflexivity|].
  destruct (header_levels rt0 "+++ Title" false 1 _
              (MkWikidot no_args [] 0 1) _ _
              ltac:(vm_compute; reflexivity) ltac:(vm_compute; reflexivity))
    as (k & hd & _ & _ & Hin & _).
  exact Hin.
Defined.

End BlockProps.

(** ** The stack of the inline parser *)

Module StackProps.
Import Re Rx Lexer Inline Parser Props.
Local Open Scope Z_scope.

Lemma fine_bind {A B} (P : A -> Prop) (Q : B -> Prop) (m : result A)
    (f : A -> result B) :
  fine P m -> (forall x, P x -> fine Q (f x)) -> fine Q (bind m f).
Proof.
  destruct m as [x|e]; cbn [fine bind]; [|intros H _; exact H].
  intros H Hf. apply Hf, H.
Qed.

Ltac other_error :=
  unfold IndexError, TypeError; cbn [fine]; split; discriminate.

Lemma cls_eqb_eq (a b : cls) : cls_eqb a b = true -> a = b.
Proof. destruct a, b; cbn; intros H; try discriminate H; reflexivity. Qed.

Lemma cls_eqb_refl (a : cls) : cls_eqb a a = true.
Proof. destruct a; reflexivity. Qed.

Lemma extends_refl (s : store) : extends s s.
Proof. split; [lia | reflexivity]. Qed.

Lemma extends_trans (s1 s2 s3 : store) :
  extends s1 s2 -> extends s2 s3 -> extends s1 s3.
Proof.
  intros [L1 C1] [L2 C2]. split; [lia|].
  intros nd Hnd. rewrite C2 by lia. apply C1, Hnd.
Qed.

Lemma extends_app (s : store) (n : node) : extends s (s ++ [n])%list.
Proof.
  split; [rewrite length_app; lia|].
  intros nd Hnd. unfold cls_at. rewrite nth_error_app1 by exact Hnd.
  reflexivity.
Qed.

Lemma cls_at_set_nth (x n : node) (s : store) :
  forall i nd,
  nth_error s i = Some n -> n_cls x = n_cls n ->
  cls_at (set_nth i x s) nd = cls_at s nd.
Proof.
  unfold cls_at.
  induction s as [|y s IH]; intros [|i] [|nd]; cbn [set_nth nth_error];
    try reflexivity; try discriminate.
  - intros H Hx. injection H as ->. exact Hx.
  - intros H Hx. apply (IH i nd H Hx).
Qed.

Lemma extends_update (f : node -> node) (i : nat) (s : store) :
  (forall n, n_cls (f n) = n_cls n) -> extends s (update i f s).
Proof.
  intros Hf. unfold update.
  destruct (nth_error s i) as [n|] eqn:E; [|apply extends_refl].
  split; [rewrite TokenProps.length_set_nth; lia|].
  intros nd _. apply (cls_at_set_nth _ n); [exact E | apply Hf].
Qed.

Lemma open_spans_extends (s s' : store) (stack : list nat) :
  extends s s' ->
  Forall (fun nd => (nd < List.length s)%nat) stack ->
  open_spans s' stack = open_spans s stack.
Proof.
  intros [_ Hc] Hall. unfold open_spans. do 2 f_equal.
  apply filter_ext_in. intros nd Hin.
  rewrite Forall_forall in Hall. rewrite (Hc nd (Hall nd Hin)). reflexivity.
Qed.

Lemma stack_ok_extends (s s' : store) (stack : list nat) (d : Z) :
  extends s s' -> stack_ok s stack d -> stack_ok s' stack d.
Proof.
  intros He [Hall Hd]. split.
  - destruct He as [Hl _].
    apply (Forall_impl _ (P := fun nd => (nd < List.length s)%nat));
      [intros nd Hnd; lia | exact Hall].
  - rewrite (open_spans_extends s s' stack He Hall). exact Hd.
Qed.

Lemma on_stack_extends (s s' : store) (stack : list nat) (k : cls) :
  extends s s' ->
  Forall (fun nd => (nd < List.length s)%nat) stack ->
  on_stack s stack k -> on_stack s' stack k.
Proof.
  intros [_ Hc] Hall (nd & Hin & Hk). exists nd. split; [exact Hin|].
  rewrite Forall_forall in Hall. rewrite (Hc nd (Hall nd Hin)). exact Hk.
Qed.

Lemma open_spans_nonneg (s : store) (stack : list nat) :
  0 <= open_spans s stack.
Proof. unfold open_spans. lia. Qed.

Lemma open_spans_cons (s : store) (nd : nat) (stack : list nat) :
  open_spans s (nd :: stack)
  = (if cls_eqb (cls_at s nd) Span then 1 else 0) + open_spans s stack.
Proof.
  unfold open_spans. cbn [filter].
  destruct (cls_eqb (cls_at s nd) Span); cbn [List.length]; lia.
Qed.

Lemma open_spans_pos (s : store) (stack : list nat) :
  0 < open_spans s stack -> on_stack s stack Span.
Proof.
  induction stack as [|nd stack IH]; [cbn; lia|].
  rewrite open_spans_cons.
  destruct (cls_eqb (cls_at s nd) Span) eqn:E.
  - intros _. exists nd. split; [left; reflexivity | apply cls_eqb_eq, E].
  - intros H. destruct IH as (nd' & Hin & Hk); [lia|].
    exists nd'. split; [right; exact Hin | exact Hk].
Qed.

Lemma flag_of_set_h (k : cls) (s : store) (p : parser) :
  flag_of k (set_h s p) = flag_of k p.
Proof. destruct k; reflexivity. Qed.

Lemma flag_of_set_nodes (k : cls) (l : list nat) (p : parser) :
  flag_of k (set_nodes l p) = flag_of k p.
Proof. destruct k; reflexivity. Qed.

Lemma inv_store (but : option cls) (stack : list nat) (p : parser)
    (s' : store) :
  extends (h p) s' -> inv but stack p -> inv but stack (set_h s' p).
Proof.
  intros He [Hs Hf]. split.
  - cbn [h span_depth set_h]. apply (stack_ok_extends (h p)); assumption.
  - intros k Hk Hflag. rewrite flag_of_set_h in Hflag. cbn [h set_h].
    apply (on_stack_extends (h p)); [exact He | apply Hs | apply Hf; assumption].
Qed.

Lemma inv_weaken (but : option cls) (stack : list nat) (p : parser) :
  inv None stack p -> inv but stack p.
Proof.
  intros [Hs Hf]. split; [exact Hs|].
  intros k _. apply Hf. discriminate.
Qed.

(** Setting a flag changes the depth by one for a span, and nothing of
    the stack and the store; no other flag is set by it. *)
Lemma set_flag_fields (k : cls) (v : bool) (p : parser) :
  0 <= span_depth p + (if cls_eqb k Span then (if v then 1 else -1) else 0) ->
  exists p',
    set_flag k v p = Ok p'
    /\ h p' = h p /\ nodes p' = nodes p
    /\ span_depth p'
       = span_depth p + (if cls_eqb k Span then (if v then 1 else -1) else 0)
    /\ (forall k', flag_of k' p' = true ->
                   (k' = k /\ v = true) \/ flag_of k' p = true)
    /\ (v = false -> k <> Span -> flag_of k p' = false).
Proof.
  intros Hd.
  destruct k; cbn [set_flag cls_eqb] in *;
    try (eexists; split; [reflexivity|];
         split; [reflexivity|]; split; [reflexivity|];
         split; [cbn; lia|];
         split; [intros k' H; destruct k'; cbn in H |- *; auto
                | intros Hv _; cbn; try exact Hv; reflexivity]).
  destruct (Z.ltb_spec (if v then span_depth p + 1 else span_depth p - 1) 0)
    as [Hlt|Hge]; [destruct v; lia|].
  eexists. split; [reflexivity|].
  split; [reflexivity|]. split; [reflexivity|].
  split; [cbn; destruct v; lia|].
  split; [|intros _ Hk; contradiction].
  intros k' H. destruct k'; cbn in H |- *; auto.
  destruct v; [left; split; reflexivity|].
  right. apply Z.ltb_lt in H. apply Z.ltb_lt. lia.
Qed.

Lemma add_text_ok (c : child) (p : parser) :
  parser_ok p -> fine parser_ok (add_text c p).
Proof.
  intros Hp. unfold add_text.
  destruct (nodes p) as [|top rest] eqn:E; [other_error|].
  cbn [fine]. unfold parser_ok in *. rewrite E in Hp.
  change (nodes (set_h (update top (append_child c) (h p)) p)) with (nodes p).
  rewrite E. apply inv_store; [|exact Hp].
  apply extends_update. reflexivity.
Qed.

(** A node enters the stack and its flag is set; the flag may have been
    set before. *)
Lemma add_node_ok (n : node) (p : parser) :
  inv (Some (n_cls n)) (nodes p) p -> fine parser_ok (add_node n p).
Proof.
  intros Hp. unfold add_node.
  destruct (nodes p) as [|top rest] eqn:E; [other_error|].
  set (s' := update top (append_child (Sub (List.length (h p))))
                    (h p ++ [n])%list).
  assert (He : extends (h p) s').
  { apply (extends_trans _ (h p ++ [n])%list); [apply extends_app|].
    apply extends_update. reflexivity. }
  assert (Hn : cls_at s' (List.length (h p)) = n_cls n).
  { unfold s', update.
    destruct (nth_error (h p ++ [n])%list top) as [x|] eqn:Ex.
    - rewrite (cls_at_set_nth _ x) by (exact Ex || reflexivity).
      unfold cls_at. rewrite nth_error_app2, Nat.sub_diag by lia. reflexivity.
    - unfold cls_at. rewrite nth_error_app2, Nat.sub_diag by lia. reflexivity. }
  assert (Hlen : (List.length (h p) < List.length s')%nat).
  { unfold s', update.
    destruct (nth_error (h p ++ [n])%list top);
      rewrite ?TokenProps.length_set_nth, length_app; cbn [List.length]; lia. }
  destruct (inv_store _ _ _ s' He Hp) as [[Hall Hd] Hf].
  cbn [h span_depth set_h] in Hall, Hd.
  unfold add_flag. cbn zeta. fold s'.
  match goal with
  | |- fine _ (set_flag ?k ?v ?q) =>
      assert (Hq : h q = s' /\ nodes q = List.length (h p) :: top :: rest
                   /\ span_depth q = span_depth p
                   /\ forall k', flag_of k' q = flag_of k' (set_h s' p))
        by (cbn [h nodes span_depth set_nodes set_h]; rewrite ?E;
            repeat split; intros k'; destruct k'; reflexivity);
      destruct (set_flag_fields k v q) as (p' & -> & Hh & Hs & Hdep & Hm & _)
  end.
  { destruct Hq as (_ & _ & -> & _). rewrite Hd.
    pose proof (open_spans_nonneg s' (top :: rest)).
    destruct (cls_eqb (n_cls n) Span); lia. }
  destruct Hq as (Hq1 & Hq2 & Hq3 & Hq4).
  cbn [fine]. unfold parser_ok, inv, stack_ok, flags_ok.
  rewrite Hh, Hs, Hdep, Hq1, Hq2, Hq3. split; [split|].
  - constructor; [exact Hlen | exact Hall].
  - rewrite open_spans_cons, Hn, Hd. lia.
  - intros k' _ Hk'. apply Hm in Hk'.
    destruct Hk' as [[-> _]|Hk'].
    + exists (List.length (h p)). split; [left; reflexivity | exact Hn].
    + rewrite Hq4 in Hk'.
      assert (Hne : k' = n_cls n \/ Some k' <> Some (n_cls n)).
      { destruct (cls_eqb k' (n_cls n)) eqn:Ek;
          [left; apply cls_eqb_eq, Ek|].
        right. intros Heq. injection Heq as Heq. subst k'.
        rewrite cls_eqb_refl in Ek. discriminate Ek. }
      destruct Hne as [->|Hne].
      * exists (List.length (h p)). split; [left; reflexivity | exact Hn].
      * destruct (Hf k' Hne Hk') as (nd & Hin & Hc).
        exists nd. split; [right; exact Hin | exact Hc].
Qed.

Lemma add_node_ok' (n : node) (p : parser) :
  parser_ok p -> fine parser_ok (add_node n p).
Proof. intros Hp. apply add_node_ok, inv_weaken, Hp. Qed.

(** The top of the stack leaves it, and its flag is reset. *)
Lemma pop_ok (nd : nat) (rest : list nat) (p : parser) :
  inv None (nd :: rest) p ->
  exists p',
    remove_flag (type_of p nd) (set_nodes rest p) = Ok p'
    /\ h p' = h p /\ nodes p' = rest /\ inv None rest p'.
Proof.
  intros [[Hall Hd] Hf].
  inversion Hall as [|x xs Hnd Hall' Heq]; subst.
  rewrite open_spans_cons in Hd. unfold remove_flag.
  destruct (set_flag_fields (type_of p nd) false (set_nodes rest p))
    as (p' & -> & Hh & Hs & Hdep & Hm & Hoff).
  { cbn [span_depth set_nodes]. rewrite Hd.
    pose proof (open_spans_nonneg (h p) rest).
    unfold type_of, cls_at.
    destruct (cls_eqb _ Span); lia. }
  cbn [h nodes span_depth set_nodes] in Hh, Hs, Hdep.
  assert (Hty0 : type_of p nd = cls_at (h p) nd) by reflexivity.
  exists p'. split; [reflexivity|]. split; [exact Hh|]. split; [exact Hs|].
  split; [split|].
  - rewrite Hh. exact Hall'.
  - rewrite Hh, Hdep, Hd, Hty0.
    destruct (cls_eqb _ Span); lia.
  - intros k' _ Hk'. rewrite Hh.
    destruct (cls_eqb k' Span) eqn:Es.
    + apply cls_eqb_eq in Es. subst k'. apply open_spans_pos.
      cbn [flag_of] in Hk'. apply Z.ltb_lt in Hk'.
      rewrite Hdep, Hd, Hty0 in Hk'.
      destruct (cls_eqb _ Span); lia.
    + pose proof Hk' as Hk0. apply Hm in Hk0.
      destruct Hk0 as [[_ Hv]|Hk0]; [discriminate Hv|].
      rewrite flag_of_set_nodes in Hk0.
      destruct (Hf k' ltac:(discriminate) Hk0) as (x & [->|Hin] & Hc).
      * exfalso. rewrite <- Hty0 in Hc. subst k'.
        rewrite Hoff in Hk'; [discriminate Hk' | reflexivity |].
        intros Hsp. rewrite Hsp in Es. discriminate Es.
      * exists x. split; assumption.
Qed.

(** The nodes down to one of the class [k] leave the stack: one is
    found, and no depth goes below zero. *)
Lemma remove_to_ok (k : cls) (stack : list nat) :
  forall p,
  inv None stack p -> on_stack (h p) stack k ->
  fine (fun r => parser_ok (snd r)) (remove_to k stack p).
Proof.
  induction stack as [|nd rest IH]; intros p Hp Hon; cbn [remove_to].
  - destruct Hon as (x & [] & _).
  - destruct (pop_ok nd rest p Hp) as (p' & -> & Hh & Hs & Hp').
    cbn [bind].
    assert (Hty : type_of p' nd = cls_at (h p) nd)
      by (unfold type_of, cls_at; rewrite Hh; reflexivity).
    destruct (isinstance (type_of p' nd) k) eqn:Ei.
    + cbn [fine snd]. unfold parser_ok. rewrite Hs. exact Hp'.
    + apply (fine_bind (fun r => parser_ok (snd r))).
      * apply IH; [exact Hp'|]. rewrite Hh.
        destruct Hon as (x & [->|Hin] & Hc); [|exists x; split; assumption].
        exfalso. unfold isinstance in Ei. rewrite Hty, Hc, cls_eqb_refl in Ei.
        rewrite orb_true_r in Ei. discriminate Ei.
      * intros [removed p2] H2. exact H2.
Qed.

(** All nodes leave the stack, and no flag is left set. *)
Lemma remove_all_ok (stack : list nat) :
  forall p, inv None stack p -> fine (inv None []) (remove_all stack p).
Proof.
  induction stack as [|nd rest IH]; intros p Hp; cbn [remove_all];
    [exact Hp|].
  destruct (pop_ok nd rest p Hp) as (p' & -> & _ & _ & Hp'). cbn [bind].
  apply IH, Hp'.
Qed.

Lemma construct_cls (k : cls) (n : node) :
  construct k = Ok n -> n_cls n = k /\ k <> Span.
Proof.
  destruct k; cbn [construct]; intros H; try discriminate H;
    injection H as <-; split; try reflexivity; discriminate.
Qed.

Lemma construct_fine (k : cls) : fine (fun _ => True) (construct k).
Proof. destruct k; cbn [construct]; try exact I; other_error. Qed.

(** The nodes removed above the one that is closed are put back. *)
Lemma restore_rev_ok (removed_rev : list nat) :
  forall p, parser_ok p -> fine parser_ok (restore_rev removed_rev p).
Proof.
  induction removed_rev as [|old rest IH]; intros p Hp; cbn [restore_rev];
    [exact Hp|].
  apply (fine_bind (fun _ => True)); [apply construct_fine|].
  intros new_n _.
  apply (fine_bind parser_ok); [|intros p' Hp'; apply IH, Hp'].
  apply add_node_ok, inv_weaken.
  change (nodes (set_h (update old (set_closure (ClosureOf (List.length (h p))))
                               (h p)) p)) with (nodes p).
  apply inv_store; [apply extends_update; reflexivity | exact Hp].
Qed.

Lemma remove_node_ok (k : cls) (p : parser) :
  inv None (nodes p) p -> on_stack (h p) (nodes p) k ->
  fine (fun r => parser_ok (snd r)) (remove_node k p).
Proof.
  intros Hp Hon. unfold remove_node, remove_nodes_to_class.
  apply (fine_bind (fun r => parser_ok (snd r)));
    [apply remove_to_ok; assumption|].
  intros [removed p1] H1. cbn [snd] in H1.
  destruct (List.rev removed) as [|nd rest_rev]; [other_error|].
  apply (fine_bind parser_ok); [apply restore_rev_ok, H1|].
  intros p2 H2. exact H2.
Qed.

Lemma close_node_ok (k : cls) (p : parser) :
  parser_ok p -> flag_of k p = true -> fine parser_ok (close_node k p).
Proof.
  intros Hp Hk. unfold close_node.
  apply (fine_bind (fun r => parser_ok (snd r))).
  - apply remove_node_ok; [exact Hp|].
    apply (proj2 Hp); [discriminate | exact Hk].
  - intros [nd p1] H1. cbn [snd] in H1. cbn [fine].
    unfold parser_ok.
    change (nodes (set_h (update nd (set_closure CLOSED_NODE) (h p1)) p1))
      with (nodes p1).
    apply inv_store; [apply extends_update; reflexivity | exact H1].
Qed.

Lemma whitespace_fine (t : token) : fine (fun _ => True) (whitespace t).
Proof. destruct t; cbn [whitespace]; try exact I; other_error. Qed.

Lemma after_text_fine (i : nat) (p : parser) :
  fine (fun _ => True) (after_text i p).
Proof.
  unfold after_text. destruct i as [|j]; [exact I|].
  destruct (nth_error (tokens p) j) as [t|]; [|other_error].
  apply (fine_bind (fun _ => True)); [apply whitespace_fine|].
  intros w _. exact I.
Qed.

Lemma before_text_fine (i : nat) (p : parser) :
  fine (fun _ => True) (before_text i p).
Proof.
  unfold before_text.
  destruct (nth_error (tokens p) (S i)) as [t|]; [|exact I].
  apply (fine_bind (fun _ => True)); [apply whitespace_fine|].
  intros w _. exact I.
Qed.

(** A marker that may open a node *)
Lemma opening_ok (k : cls) (raw : string) (i : nat) (p : parser) :
  parser_ok p ->
  fine parser_ok
    (b <- before_text i p ;;
     if b then n <- construct k ;; add_node n p else add_text (Text raw) p).
Proof.
  intros Hp. apply (fine_bind (fun _ => True)); [apply before_text_fine|].
  intros [|] _; [|apply add_text_ok, Hp].
  apply (fine_bind (fun _ => True)); [apply construct_fine|].
  intros n _. apply add_node_ok', Hp.
Qed.

(** A marker that may close a node, met when the flag of the class is
    set *)
Lemma closing_ok (k : cls) (raw : string) (i : nat) (p : parser) :
  parser_ok p -> flag_of k p = true ->
  fine parser_ok
    (b <- after_text i p ;;
     if b then close_node k p else add_text (Text raw) p).
Proof.
  intros Hp Hk. apply (fine_bind (fun _ => True)); [apply after_text_fine|].
  intros [|] _; [apply close_node_ok; assumption | apply add_text_ok, Hp].
Qed.

Lemma handle_token_ok (i : nat) (raw : string) (k : cls) (p : parser) :
  parser_ok p -> fine parser_ok (handle_token i raw (flag_of k p) k p).
Proof.
  intros Hp. unfold handle_token.
  destruct (flag_of k p) eqn:E;
    [apply closing_ok; assumption | apply opening_ok, Hp].
Qed.

Lemma parse_image_ok (tok : string) (p : parser) :
  parser_ok p -> fine parser_ok (parse_image tok p).
Proof.
  intros Hp. unfold parse_image.
  destruct (re_search RX_IMAGE tok); apply add_text_ok, Hp.
Qed.

Ltac fine_step Hp :=
  first
    [ apply add_text_ok, Hp
    | apply add_node_ok', Hp
    | apply close_node_ok; [exact Hp | cbn [flag_of]; assumption]
    | apply (handle_token_ok _ _ StrikeThru), Hp
    | apply (handle_token_ok _ _ Underline), Hp
    | apply (handle_token_ok _ _ Italic), Hp
    | apply (handle_token_ok _ _ Bold), Hp
    | apply (handle_token_ok _ _ Subscript), Hp
    | apply (handle_token_ok _ _ Superscript), Hp
    | apply parse_image_ok, Hp
    | apply opening_ok, Hp
    | apply closing_ok; [exact Hp | cbn [flag_of]; assumption]
    | exact Hp
    | other_error ].

Lemma parse_str_ok (a : args) (i : nat) (tok : string) (p : parser) :
  parser_ok p -> fine parser_ok (parse_str a i tok p).
Proof.
  intros Hp. unfold parse_str.
  repeat match goal with
         | |- fine _ (if negb ?c then _ else _) =>
             let E := fresh "E" in destruct c eqn:E; cbn [negb]
         | |- fine _ (if ?c then _ else _) =>
             let E := fresh "E" in destruct c eqn:E
         | |- fine _ (match ?x with Some _ => _ | None => _ end) => destruct x
         end;
    fine_step Hp.
Qed.

Lemma flags_of_comment (v : bool) (p : parser) :
  parser_ok p -> parser_ok (set_comment v p).
Proof.
  intros [Hs Hf]. split; [exact Hs|].
  intros k Hk Hflag. apply (Hf k Hk). destruct k; exact Hflag.
Qed.

Lemma flags_of_tokens (v : list token) (p : parser) :
  parser_ok p -> parser_ok (set_tokens v p).
Proof.
  intros [Hs Hf]. split; [exact Hs|].
  intros k Hk Hflag. apply (Hf k Hk). destruct k; exact Hflag.
Qed.

Lemma literal_flag (v : bool) (p : parser) :
  parser_ok p ->
  inv (Some Literal) (nodes p) (set_escape_literal v p)
  /\ (v = false -> inv None (nodes p) (set_escape_literal v p)).
Proof.
  intros [Hs Hf]. split; [|intros ->]; (split; [exact Hs|]);
    intros k Hk Hflag; apply (Hf k ltac:(discriminate));
    destruct k; try exact Hflag; try discriminate Hflag.
  contradiction Hk. reflexivity.
Qed.

Lemma entity_flag (v : bool) (p : parser) :
  parser_ok p ->
  inv (Some HTMLEntityLiteral) (nodes p) (set_no_escape_literal v p)
  /\ (v = false -> inv None (nodes p) (set_no_escape_literal v p)).
Proof.
  intros [Hs Hf]. split; [|intros ->]; (split; [exact Hs|]);
    intros k Hk Hflag; apply (Hf k ltac:(discriminate));
    destruct k; try exact Hflag; try discriminate Hflag.
  contradiction Hk. reflexivity.
Qed.

Lemma parse_token_ok (a : args) (i : nat) (t : token) (p : parser) :
  parser_ok p -> fine parser_ok (parse_token a i t p).
Proof.
  intros Hp. unfold parse_token.
  destruct (comment p).
  { destruct (tok_eqb t "--]"); [apply flags_of_comment, Hp | exact Hp]. }
  destruct (tok_eqb t "[!--"); [apply flags_of_comment, Hp|].
  destruct t as [tok| | | |].
  - destruct (escape_literal p); [apply add_text_ok, Hp|].
    destruct (no_escape_literal p); [apply add_text_ok, Hp|].
    apply parse_str_ok, Hp.
  - apply add_node_ok. apply (literal_flag true p Hp).
  - destruct (escape_literal p) eqn:E.
    + apply (fine_bind (fun r => parser_ok (snd r))).
      * apply remove_node_ok; [apply (literal_flag false p Hp); reflexivity|].
        apply (proj2 Hp Literal); [discriminate | exact E].
      * intros [nd p1] H1. exact H1.
    + destruct (no_escape_literal p); [apply add_text_ok, Hp|].
      other_error.
  - destruct (escape_literal p); [other_error|].
    destruct (no_escape_literal p); [apply add_text_ok, Hp|].
    apply add_node_ok. apply (entity_flag true p Hp).
  - destruct (no_escape_literal p) eqn:E; [|apply add_text_ok, Hp].
    apply (fine_bind (fun r => parser_ok (snd r))).
    + apply remove_node_ok; [apply (entity_flag false p Hp); reflexivity|].
      apply (proj2 Hp HTMLEntityLiteral); [discriminate | exact E].
    + intros [nd p1] H1. exact H1.
Qed.

Lemma parse_from_ok (a : args) (ts : list token) :
  forall i p, parser_ok p -> fine parser_ok (parse_from a i ts p).
Proof.
  induction ts as [|t ts IH]; intros i p Hp; cbn [parse_from]; [exact Hp|].
  apply (fine_bind parser_ok); [apply parse_token_ok, Hp|].
  intros p1 H1. apply IH, H1.
Qed.

Lemma parse_ok (a : args) (toks : list token) (p : parser) :
  parser_ok p -> fine parser_ok (parse a toks p).
Proof.
  intros Hp. unfold parse. apply parse_from_ok, flags_of_tokens, Hp.
Qed.

Lemma init_ok : parser_ok Parser.init.
Proof.
  split; [split; [repeat constructor | reflexivity]|].
  intros k _ Hk. destruct k; discriminate Hk.
Qed.

(** New nodes of the classes of the removed ones are put on a stack
    that starts with a new top node. *)
Lemma restore_all_nodes_ok (removed : list nat) (p : parser) :
  inv None [] p -> fine parser_ok (restore_all_nodes removed p).
Proof.
  intros [[_ Hd] Hf]. unfold restore_all_nodes.
  destruct (List.rev removed) as [|bottom rest_rev]; [other_error|].
  destruct (construct (type_of p bottom)) as [top|e] eqn:E;
    [|pose proof (construct_fine (type_of p bottom)) as H; rewrite E in H;
      exact H].
  cbn [bind]. apply restore_rev_ok.
  destruct (construct_cls _ _ E) as [Hc Hns].
  assert (Hn : cls_at (h p ++ [top])%list (List.length (h p)) = n_cls top).
  { unfold cls_at. rewrite nth_error_app2, Nat.sub_diag by lia. reflexivity. }
  split; [split|]; cbn [h nodes span_depth set_nodes set_top_node set_h].
  - constructor; [rewrite length_app; cbn [List.length]; lia | constructor].
  - rewrite open_spans_cons, Hn, Hd.
    destruct (cls_eqb (n_cls top) Span) eqn:Es; [|reflexivity].
    apply cls_eqb_eq in Es. congruence.
  - intros k Hk Hflag. exfalso.
    destruct (Hf k Hk) as (x & [] & _).
    destruct k; exact Hflag.
Qed.

Lemma apply_use_ok (a : args) (u : use) (p : parser) :
  parser_ok p -> fine parser_ok (apply_use a u p).
Proof.
  intros Hp. destruct u as [toks| |]; cbn [apply_use].
  - apply parse_ok, Hp.
  - apply add_text_ok, Hp.
  - unfold remove_all_nodes.
    destruct (remove_all (nodes p) p) as [p1|e] eqn:E;
      [|pose proof (remove_all_ok (nodes p) p Hp) as H; rewrite E in H;
        exact H].
    cbn [bind]. apply restore_all_nodes_ok.
    pose proof (remove_all_ok (nodes p) p Hp) as H. rewrite E in H. exact H.
Qed.

Lemma used_ok (a : args) (us : list use) : fine parser_ok (used a us).
Proof.
  unfold used.
  assert (H : forall r, fine parser_ok r ->
            fine parser_ok
              (fold_left (fun r u => p <- r ;; apply_use a u p) us r)).
  { induction us as [|u us IH]; intros r Hr; cbn [fold_left]; [exact Hr|].
    apply IH. apply (fine_bind parser_ok); [exact Hr|].
    intros p Hp. apply apply_use_ok, Hp. }
  apply H, init_ok.
Qed.

(** X13. The depth of spans that the parser keeps is the number of
    [Span] nodes on its stack, whatever use the blocks make of a new
    parser: parsing lines, adding line breaks, renewing the stack
    between the items of a list. So the depth never goes below zero and
    the exception for a negative depth is never raised, whatever other
    exception may be. *)
Theorem span_depth_counts_open_spans (a : args) (us : list use) :
  match used a us with
  | Ok p => span_depth p = open_spans (h p) (nodes p)
  | Raise e => e <> "negative span depth"
  end.
Proof.
  pose proof (used_ok a us) as H.
  destruct (used a us) as [p|e]; cbn [fine] in H.
  - apply H.
  - apply H.
Qed.

(** X14. A closing marker finds its node: whatever use the blocks make
    of a new parser, every flag that is set has a node of its class on
    the stack, so the search of [remove_nodes_to_class] for the class of
    a set flag ends on a node and the exception for a class that is not
    on the stack is never raised. *)
Theorem set_flags_have_open_nodes (a : args) (us : list use) :
  match used a us with
  | Ok p => forall k, flag_of k p = true -> on_stack (h p) (nodes p) k
  | Raise e => e <> "not on stack"
  end.
Proof.
  pose proof (used_ok a us) as H.
  destruct (used a us) as [p|e]; cbn [fine] in H.
  - intros k Hk. apply (proj2 H); [discriminate | exact Hk].
  - apply H.
Qed.

End StackProps.

(** ** Rendering terminates *)

Module RenderProps.
Import Re Rx Lexer Inline Parser Props.
Local Open Scope nat_scope.
Local Open Scope list_scope.

Lemma nth_error_set_nth_same {A} (x y : A) (l : list A) :
  forall i, nth_error l i = Some y -> nth_error (set_nth i x l) i = Some x.
Proof.
  induction l as [|z l IH]; intros [|i]; cbn [set_nth nth_error];
    try discriminate; [reflexivity | apply IH].
Qed.

Lemma forward_upto_mono (len len' : nat) (s : store) :
  len <= len' -> forward_upto len s -> forward_upto len' s.
Proof.
  intros Hl H i n Hn. destruct (H i n Hn) as [H1 H2].
  split; intros nd Hnd; [specialize (H1 nd Hnd) | specialize (H2 nd Hnd)];
    lia.
Qed.

(** A node is replaced by one whose references go forward. *)
Lemma forward_update (len i : nat) (f : node -> node) (s : store) :
  forward_upto len s ->
  (forall n, nth_error s i = Some n -> node_forward i len (f n)) ->
  forward_upto len (update i f s).
Proof.
  intros Hs Hf. unfold update.
  destruct (nth_error s i) as [n|] eqn:E; [|exact Hs].
  intros j m Hm. destruct (Nat.eq_dec i j) as [<-|Hne].
  - rewrite (nth_error_set_nth_same _ n) in Hm by exact E.
    injection Hm as <-. apply Hf. reflexivity.
  - rewrite TokenProps.nth_error_set_nth_other in Hm by exact Hne.
    apply (Hs j m Hm).
Qed.

Lemma forward_app (s : store) (n : node) :
  forward_upto (S (List.length s)) s -> fresh n -> forward (s ++ [n]).
Proof.
  intros Hs [Hc Ho] i m Hm. rewrite length_app. cbn [List.length].
  rewrite Nat.add_1_r.
  destruct (Nat.lt_ge_cases i (List.length s)) as [Hlt|Hge].
  - rewrite nth_error_app1 in Hm by exact Hlt. apply (Hs i m Hm).
  - rewrite nth_error_app2 in Hm by exact Hge.
    destruct (i - List.length s) as [|j]; cbn [nth_error] in Hm.
    + injection Hm as <-. split; intros nd Hnd.
      * rewrite Hc in Hnd. destruct Hnd.
      * rewrite Ho in Hnd. discriminate Hnd.
    + destruct j; discriminate Hm.
Qed.

Lemma length_update (i : nat) (f : node -> node) (s : store) :
  List.length (update i f s) = List.length s.
Proof.
  unfold update. destruct (nth_error s i); [|reflexivity].
  apply TokenProps.length_set_nth.
Qed.

Lemma set_flag_h (k : cls) (v : bool) (p p' : parser) :
  set_flag k v p = Ok p' -> h p' = h p.
Proof.
  destruct k; cbn [set_flag]; try (intros H; injection H as <-; reflexivity).
  destruct (_ <? 0)%Z; [discriminate|].
  intros H. injection H as <-. reflexivity.
Qed.

Lemma add_text_forward (c : child) (p p' : parser) :
  not_sub c -> forward (h p) -> add_text c p = Ok p' -> forward (h p').
Proof.
  intros Hc Hf. unfold add_text.
  destruct (nodes p) as [|top rest]; [discriminate|].
  intros H. injection H as <-. cbn [h set_h].
  unfold forward. rewrite length_update.
  apply forward_update; [exact Hf|].
  intros n Hn. destruct (Hf top n Hn) as [H1 H2].
  split; [|exact H2]. intros nd Hnd. cbn [children append_child] in Hnd.
  apply in_app_or in Hnd. destruct Hnd as [Hnd|[Hnd|[]]]; [apply H1, Hnd|].
  subst c. destruct Hc.
Qed.

(** A new node enters the store as the last child of the top of the
    stack. *)
Lemma add_node_forward (n : node) (p p' : parser) :
  fresh n ->
  Forall (fun nd => nd < List.length (h p)) (nodes p) ->
  forward_upto (S (List.length (h p))) (h p) ->
  add_node n p = Ok p' -> forward (h p').
Proof.
  intros Hn Hall Hf. unfold add_node.
  destruct (nodes p) as [|top rest] eqn:E; [discriminate|].
  cbn zeta. unfold add_flag. intros H. apply set_flag_h in H.
  rewrite H. cbn [h set_nodes set_h].
  inversion Hall as [|x xs Htop _ Heq]; subst.
  pose proof (forward_app (h p) n Hf Hn) as Hfa.
  unfold forward. rewrite length_update.
  apply forward_update; [exact Hfa|].
  intros m Hm. destruct (Hfa top m Hm) as [H1 H2].
  split; [|exact H2]. intros nd Hnd. cbn [children append_child] in Hnd.
  apply in_app_or in Hnd. destruct Hnd as [Hnd|[Hnd|[]]]; [apply H1, Hnd|].
  injection Hnd as <-. rewrite length_app. cbn [List.length]. lia.
Qed.

Lemma fine_both (r : result parser) :
  fine parser_ok r -> (forall p, r = Ok p -> forward (h p)) -> fine both r.
Proof.
  destruct r as [p|e]; cbn [fine]; [|intros H _; exact H].
  intros H Hf. split; [exact H | apply Hf; reflexivity].
Qed.

Lemma add_text_both (c : child) (p : parser) :
  not_sub c -> both p -> fine both (add_text c p).
Proof.
  intros Hc [Hp Hf]. apply fine_both; [apply StackProps.add_text_ok, Hp|].
  intros p' H. apply (add_text_forward c p p' Hc Hf H).
Qed.

Lemma add_node_both (n : node) (p : parser) :
  fresh n -> inv (Some (n_cls n)) (nodes p) p -> forward (h p) ->
  fine both (add_node n p).
Proof.
  intros Hn Hp Hf. apply fine_both; [apply StackProps.add_node_ok, Hp|].
  intros p' H. apply (add_node_forward n p p' Hn); [apply Hp| |exact H].
  apply (forward_upto_mono (List.length (h p))); [lia | exact Hf].
Qed.

Lemma construct_fresh (k : cls) (n : node) : construct k = Ok n -> fresh n.
Proof.
  destruct k; cbn [construct]; intros H; try discriminate H;
    injection H as <-; split; reflexivity.
Qed.

Lemma remove_to_h (k : cls) (stack : list nat) :
  forall p removed p',
  remove_to k stack p = Ok (removed, p') -> h p' = h p.
Proof.
  induction stack as [|nd rest IH]; intros p removed p'; cbn [remove_to];
    [discriminate|].
  unfold remove_flag.
  destruct (set_flag (type_of p nd) false (set_nodes rest p)) as [p1|] eqn:E;
    cbn [bind]; [|discriminate].
  apply set_flag_h in E. cbn [h set_nodes] in E.
  destruct (isinstance (type_of p1 nd) k).
  - intros H. injection H as _ <-. exact E.
  - destruct (remove_to k rest p1) as [[r p2]|] eqn:E2; cbn [bind];
      [|discriminate].
    intros H. injection H as _ <-. rewrite (IH _ _ _ E2). exact E.
Qed.

Lemma remove_all_h (stack : list nat) :
  forall p p', remove_all stack p = Ok p' -> h p' = h p.
Proof.
  induction stack as [|nd rest IH]; intros p p'; cbn [remove_all].
  - intros H. injection H as <-. reflexivity.
  - unfold remove_flag.
    destruct (set_flag (type_of p nd) false (set_nodes rest p)) as [p1|] eqn:E;
      cbn [bind]; [|discriminate].
    apply set_flag_h in E. cbn [h set_nodes] in E.
    intros H. rewrite (IH _ _ H). exact E.
Qed.

(** A removed node is closed by the new node of its class. *)
Lemma restore_rev_both (removed_rev : list nat) :
  forall p, both p -> fine both (restore_rev removed_rev p).
Proof.
  induction removed_rev as [|old rest IH]; intros p Hp; cbn [restore_rev];
    [exact Hp|].
  destruct Hp as [Hp Hf].
  destruct (construct (type_of p old)) as [new_n|e] eqn:E;
    [|pose proof (StackProps.construct_fine (type_of p old)) as H;
      rewrite E in H; exact H].
  cbn [bind].
  apply (StackProps.fine_bind both); [|intros p' Hp'; apply IH, Hp'].
  set (s1 := update old (set_closure (ClosureOf (List.length (h p)))) (h p)).
  assert (Hp1 : inv None (nodes p) (set_h s1 p)).
  { apply StackProps.inv_store; [|exact Hp].
    apply StackProps.extends_update. reflexivity. }
  assert (Hf1 : forward_upto (S (List.length (h p))) s1).
  { apply forward_update;
      [apply (forward_upto_mono (List.length (h p))); [lia | exact Hf]|].
    intros n Hn. destruct (Hf old n Hn) as [H1 H2]. split.
    - intros nd Hnd. specialize (H1 nd Hnd). lia.
    - intros nd Hnd. cbn in Hnd. injection Hnd as <-.
      assert (old < List.length (h p)) by (apply nth_error_Some; congruence).
      lia. }
  apply fine_both.
  - apply StackProps.add_node_ok, StackProps.inv_weaken. exact Hp1.
  - intros p' H.
    apply (add_node_forward new_n (set_h s1 p) p' (construct_fresh _ _ E));
      [| |exact H]; cbn [h nodes set_h].
    + apply Hp1.
    + unfold s1 at 1. rewrite length_update. exact Hf1.
Qed.

Lemma remove_node_both (k : cls) (p : parser) :
  inv None (nodes p) p -> forward (h p) -> on_stack (h p) (nodes p) k ->
  fine (fun r => both (snd r)) (remove_node k p).
Proof.
  intros Hp Hf Hon. unfold remove_node, remove_nodes_to_class.
  pose proof (StackProps.remove_to_ok k (nodes p) p Hp Hon) as H.
  destruct (remove_to k (nodes p) p) as [[removed p1]|e] eqn:E;
    [|exact H].
  cbn [bind fine snd] in H |- *.
  destruct (List.rev removed) as [|nd rest_rev];
    [unfold IndexError; split; discriminate|].
  apply (StackProps.fine_bind both).
  - apply restore_rev_both. split; [exact H|].
    rewrite (remove_to_h _ _ _ _ _ E). exact Hf.
  - intros p2 H2. exact H2.
Qed.

Lemma close_mark_both (nd : nat) (p : parser) :
  both p -> both (set_h (update nd (set_closure CLOSED_NODE) (h p)) p).
Proof.
  intros [Hp Hf]. split.
  - unfold parser_ok.
    change (nodes (set_h (update nd (set_closure CLOSED_NODE) (h p)) p))
      with (nodes p).
    apply StackProps.inv_store;
      [apply StackProps.extends_update; reflexivity | exact Hp].
  - cbn [h set_h]. unfold forward. rewrite length_update.
    apply forward_update; [exact Hf|].
    intros n Hn. destruct (Hf nd n Hn) as [H1 _]. split; [exact H1|].
    intros x Hx. discriminate Hx.
Qed.

Lemma close_node_both (k : cls) (p : parser) :
  both p -> flag_of k p = true -> fine both (close_node k p).
Proof.
  intros [Hp Hf] Hk. unfold close_node.
  apply (StackProps.fine_bind (fun r => both (snd r))).
  - apply remove_node_both; [exact Hp | exact Hf|].
    apply (proj2 Hp); [discriminate | exact Hk].
  - intros [nd p1] H1. cbn [snd] in H1. cbn [fine].
    apply close_mark_both, H1.
Qed.

Lemma opening_both (k : cls) (raw : string) (i : nat) (p : parser) :
  both p ->
  fine both
    (b <- before_text i p ;;
     if b then n <- construct k ;; add_node n p else add_text (Text raw) p).
Proof.
  intros Hp.
  apply (StackProps.fine_bind (fun _ => True)); [apply StackProps.before_text_fine|].
  intros [|] _; [|apply add_text_both; [exact I | exact Hp]].
  destruct (construct k) as [n|e] eqn:E;
    [|pose proof (StackProps.construct_fine k) as H; rewrite E in H; exact H].
  cbn [bind].
  apply add_node_both;
    [apply (construct_fresh _ _ E) | apply StackProps.inv_weaken, Hp
    | apply Hp].
Qed.

Lemma closing_both (k : cls) (raw : string) (i : nat) (p : parser) :
  both p -> flag_of k p = true ->
  fine both
    (b <- after_text i p ;;
     if b then close_node k p else add_text (Text raw) p).
Proof.
  intros Hp Hk.
  apply (StackProps.fine_bind (fun _ => True)); [apply StackProps.after_text_fine|].
  intros [|] _; [apply close_node_both; assumption|].
  apply add_text_both; [exact I | exact Hp].
Qed.

Lemma handle_token_both (i : nat) (raw : string) (k : cls) (p : parser) :
  both p -> fine both (handle_token i raw (flag_of k p) k p).
Proof.
  intros Hp. unfold handle_token.
  destruct (flag_of k p) eqn:E;
    [apply closing_both; assumption | apply opening_both, Hp].
Qed.

Lemma parse_image_both (tok : string) (p : parser) :
  both p -> fine both (parse_image tok p).
Proof.
  intros Hp. unfold parse_image.
  destruct (re_search RX_IMAGE tok); apply add_text_both;
    try exact I; exact Hp.
Qed.

Ltac both_step Hp :=
  first
    [ apply add_text_both; [exact I | exact Hp]
    | apply add_node_both;
        [split; reflexivity | apply StackProps.inv_weaken, Hp | apply Hp]
    | apply close_node_both; [exact Hp | cbn [flag_of]; assumption]
    | apply (handle_token_both _ _ StrikeThru), Hp
    | apply (handle_token_both _ _ Underline), Hp
    | apply (handle_token_both _ _ Italic), Hp
    | apply (handle_token_both _ _ Bold), Hp
    | apply (handle_token_both _ _ Subscript), Hp
    | apply (handle_token_both _ _ Superscript), Hp
    | apply parse_image_both, Hp
    | apply opening_both, Hp
    | apply closing_both; [exact Hp | cbn [flag_of]; assumption]
    | exact Hp
    | cbn [fine]; split; discriminate ].

Lemma parse_str_both (a : args) (i : nat) (tok : string) (p : parser) :
  both p -> fine both (parse_str a i tok p).
Proof.
  intros Hp. unfold parse_str.
  repeat match goal with
         | |- fine _ (if negb ?c then _ else _) =>
             let E := fresh "E" in destruct c eqn:E; cbn [negb]
         | |- fine _ (if ?c then _ else _) =>
             let E := fresh "E" in destruct c eqn:E
         | |- fine _ (match ?x with Some _ => _ | None => _ end) => destruct x
         end;
    both_step Hp.
Qed.

Lemma parse_token_both (a : args) (i : nat) (t : token) (p : parser) :
  both p -> fine both (parse_token a i t p).
Proof.
  intros Hp. pose proof Hp as [Hok Hf]. unfold parse_token.
  destruct (comment p).
  { destruct (tok_eqb t "--]"); [|exact Hp].
    split; [apply StackProps.flags_of_comment, Hok | exact Hf]. }
  destruct (tok_eqb t "[!--");
    [split; [apply StackProps.flags_of_comment, Hok | exact Hf]|].
  destruct t as [tok| | | |].
  - destruct (escape_literal p);
      [apply add_text_both; [exact I | exact Hp]|].
    destruct (no_escape_literal p);
      [apply add_text_both; [exact I | exact Hp]|].
    apply parse_str_both, Hp.
  - apply add_node_both; [split; reflexivity | | exact Hf].
    apply (StackProps.literal_flag true p Hok).
  - destruct (escape_literal p) eqn:E.
    + apply (StackProps.fine_bind (fun r => both (snd r))).
      * apply remove_node_both; [| exact Hf |].
        -- apply (StackProps.literal_flag false p Hok). reflexivity.
        -- apply (proj2 Hok Literal); [discriminate | exact E].
      * intros [nd p1] H1. exact H1.
    + destruct (no_escape_literal p);
        [apply add_text_both; [exact I | exact Hp]|].
      cbn [fine]. split; discriminate.
  - destruct (escape_literal p); [cbn [fine]; split; discriminate|].
    destruct (no_escape_literal p);
      [apply add_text_both; [exact I | exact Hp]|].
    apply add_node_both; [split; reflexivity | | exact Hf].
    apply (StackProps.entity_flag true p Hok).
  - destruct (no_escape_literal p) eqn:E;
      [|apply add_text_both; [exact I | exact Hp]].
    apply (StackProps.fine_bind (fun r => both (snd r))).
    + apply remove_node_both; [| exact Hf |].
      * apply (StackProps.entity_flag false p Hok). reflexivity.
      * apply (proj2 Hok HTMLEntityLiteral); [discriminate | exact E].
    + intros [nd p1] H1. exact H1.
Qed.

Lemma parse_from_both (a : args) (ts : list token) :
  forall i p, both p -> fine both (parse_from a i ts p).
Proof.
  induction ts as [|t ts IH]; intros i p Hp; cbn [parse_from]; [exact Hp|].
  apply (StackProps.fine_bind both); [apply parse_token_both, Hp|].
  intros p1 H1. apply IH, H1.
Qed.

Lemma restore_all_nodes_forward (removed : list nat) (p : parser) :
  inv None [] p -> forward (h p) ->
  fine both (restore_all_nodes removed p).
Proof.
  intros Hp Hf.
  pose proof (StackProps.restore_all_nodes_ok removed p Hp) as Hok.
  unfold restore_all_nodes in *.
  destruct (List.rev removed) as [|bottom rest_rev]; [exact Hok|].
  destruct (construct (type_of p bottom)) as [top|e] eqn:E; [|exact Hok].
  cbn [bind] in *. apply restore_rev_both.
  destruct Hp as [[_ Hd] Hflags].
  destruct (StackProps.construct_cls _ _ E) as [Hc Hns].
  assert (Hn : cls_at (h p ++ [top]) (List.length (h p)) = n_cls top).
  { unfold cls_at. rewrite nth_error_app2, Nat.sub_diag by lia. reflexivity. }
  split; [split; [split|]|];
    cbn [h nodes span_depth set_nodes set_top_node set_h].
  - constructor; [rewrite length_app; cbn [List.length]; lia | constructor].
  - rewrite StackProps.open_spans_cons, Hn, Hd.
    destruct (cls_eqb (n_cls top) Span) eqn:Es; [|reflexivity].
    apply StackProps.cls_eqb_eq in Es. congruence.
  - intros k Hk Hflag. exfalso.
    destruct (Hflags k Hk) as (x & [] & _).
    destruct k; exact Hflag.
  - apply forward_app; [|apply (construct_fresh _ _ E)].
    apply (forward_upto_mono (List.length (h p))); [lia | exact Hf].
Qed.

Lemma apply_use_both (a : args) (u : use) (p : parser) :
  both p -> fine both (apply_use a u p).
Proof.
  intros Hp. pose proof Hp as [Hok Hf].
  destruct u as [toks| |]; cbn [apply_use].
  - unfold parse. apply parse_from_both.
    split; [apply StackProps.flags_of_tokens, Hok | exact Hf].
  - apply add_text_both; [exact I | exact Hp].
  - unfold remove_all_nodes.
    pose proof (StackProps.remove_all_ok (nodes p) p Hok) as H.
    destruct (remove_all (nodes p) p) as [p1|e] eqn:E; [|exact H].
    cbn [bind]. apply restore_all_nodes_forward; [exact H|].
    rewrite (remove_all_h _ _ _ E). exact Hf.
Qed.

Lemma used_both (a : args) (us : list use) : fine both (used a us).
Proof.
  unfold used.
  assert (H : forall r, fine both r ->
            fine both
              (fold_left (fun r u => p <- r ;; apply_use a u p) us r)).
  { induction us as [|u us IH]; intros r Hr; cbn [fold_left]; [exact Hr|].
    apply IH. apply (StackProps.fine_bind both); [exact Hr|].
    intros p Hp. apply apply_use_both, Hp. }
  apply H. split; [apply StackProps.init_ok|].
  intros i n Hn. destruct i as [|[|i]]; cbn in Hn; try discriminate Hn.
  injection Hn as <-. split; intros nd Hnd; [destruct Hnd | discriminate Hnd].
Qed.

(** *** More frames change nothing *)

Lemma closed_mono (s : store) (k : nat) :
  forall f c b, closed f s c = Ok b -> closed (f + k) s c = Ok b.
Proof.
  induction f as [|f IH]; intros c b; cbn [Nat.add closed]; [discriminate|].
  destruct c as [| |nd]; try (intros H; exact H).
  destruct (nth_error s nd) as [n|]; [apply IH | intros H; exact H].
Qed.

Lemma call_mono (f k : nat) (x y : string) :
  call f x = Ok y -> call (f + k) x = Ok y.
Proof. destruct f; cbn [Nat.add call]; [discriminate | intros H; exact H]. Qed.

Lemma strs_mono (g g' : child -> result string) (l : list child) :
  (forall c x, In c l -> g c = Ok x -> g' c = Ok x) ->
  forall ss, strs g l = Ok ss -> strs g' l = Ok ss.
Proof.
  induction l as [|c l IH]; intros Hg ss; cbn [strs]; [intros H; exact H|].
  destruct (g c) as [x|e] eqn:E; cbn [bind]; [|discriminate].
  rewrite (Hg c x (or_introl eq_refl) E). cbn [bind].
  destruct (strs g l) as [xs|e] eqn:E2; cbn [bind]; [|discriminate].
  rewrite (IH (fun c0 x0 Hin => Hg c0 x0 (or_intror Hin)) xs eq_refl).
  intros H. exact H.
Qed.

Lemma join_children_mono (g g' : child -> result string) (l : list child) :
  (forall c x, In c l -> g c = Ok x -> g' c = Ok x) ->
  forall x, join_children g l = Ok x -> join_children g' l = Ok x.
Proof.
  intros Hg x. unfold join_children.
  destruct (strs g l) as [ss|e] eqn:E; cbn [bind]; [|discriminate].
  rewrite (strs_mono g g' l Hg ss E). intros H. exact H.
Qed.

Lemma node_format_mono (ic ic' : result bool) (g g' : child -> result string)
    (n : node) :
  (forall b, ic = Ok b -> ic' = Ok b) ->
  (forall c x, In c (children n) -> g c = Ok x -> g' c = Ok x) ->
  forall x, node_format ic n g = Ok x -> node_format ic' n g' = Ok x.
Proof.
  intros Hic Hg x. unfold node_format.
  destruct (children n) as [|c [|c' cs]].
  - cbn [bind]. destruct ic as [b|e]; cbn [bind]; [|discriminate].
    rewrite (Hic b eq_refl). intros H. exact H.
  - destruct (is_blank c).
    + cbn [bind]. destruct ic as [b|e]; cbn [bind]; [|discriminate].
      rewrite (Hic b eq_refl). intros H. exact H.
    + destruct (g c) as [r|e] eqn:E; cbn [bind]; [|discriminate].
      rewrite (Hg c r (or_introl eq_refl) E). cbn [bind].
      destruct ic as [b|e]; cbn [bind]; [|discriminate].
      rewrite (Hic b eq_refl). intros H. exact H.
  - destruct (is_blank c).
    + destruct (join_children g (c' :: cs)) as [r|e] eqn:E; cbn [bind];
        [|discriminate].
      rewrite (join_children_mono g g' (c' :: cs)
                 (fun c0 x0 Hin => Hg c0 x0 (or_intror Hin)) r E).
      cbn [bind]. destruct ic as [b|e]; cbn [bind]; [|discriminate].
      rewrite (Hic b eq_refl). intros H. exact H.
    + destruct (join_children g (c :: c' :: cs)) as [r|e] eqn:E; cbn [bind];
        [|discriminate].
      rewrite (join_children_mono g g' (c :: c' :: cs) Hg r E).
      cbn [bind]. destruct ic as [b|e]; cbn [bind]; [|discriminate].
      rewrite (Hic b eq_refl). intros H. exact H.
Qed.

Lemma child_str_mono (rt : runtime) (a : args) (f k : nat)
    (g g' : nat -> result string) (c : child) :
  (forall nd x, g nd = Ok x -> g' nd = Ok x) ->
  forall x, child_str rt a f g c = Ok x -> child_str rt a (f + k) g' c = Ok x.
Proof.
  intros Hg x. destruct c; cbn [child_str]; try (intros H; exact H);
    try apply call_mono. apply Hg.
Qed.

(** What [str] of a node returns with [f] frames left it returns with
    more. *)
Lemma node_str_mono (rt : runtime) (a : args) (s : store) (k : nat) :
  forall f nd x,
  node_str rt a f s nd = Ok x -> node_str rt a (f + k) s nd = Ok x.
Proof.
  induction f as [|f IH]; intros nd x; cbn [Nat.add node_str];
    [discriminate|].
  destruct (nth_error s nd) as [n|]; [|intros H; exact H].
  assert (Hc : forall c y, In c (children n) ->
            child_str rt a f (node_str rt a f s) c = Ok y ->
            child_str rt a (f + k) (node_str rt a (f + k) s) c = Ok y).
  { intros c y _. apply child_str_mono. exact IH. }
  destruct (n_cls n);
    try (apply node_format_mono; [apply closed_mono | exact Hc]);
    unfold span_format, literal_format;
    (destruct (join_children _ (children n)) as [r|e] eqn:E; cbn [bind];
     [|discriminate];
     rewrite (join_children_mono _ _ _ Hc r E); intros H; exact H).
Qed.

(** *** Enough frames *)

Lemma closed_enough (s : store) :
  forward s ->
  forall f c,
  1 <= f ->
  (forall nd, c = ClosureOf nd -> List.length s + 1 <= f + nd) ->
  is_ok (closed f s c) = true.
Proof.
  intros Hs f. induction f as [|f IH]; intros c Hf Hc; [lia|].
  cbn [closed]. destruct c as [| |nd]; try reflexivity.
  destruct (nth_error s nd) as [n|] eqn:E; [|reflexivity].
  assert (nd < List.length s) by (apply nth_error_Some; congruence).
  specialize (Hc nd eq_refl).
  apply IH; [lia|]. intros nd' Hnd'.
  destruct (Hs nd n E) as [_ H2]. specialize (H2 nd' Hnd'). lia.
Qed.

Lemma strs_ok (g : child -> result string) (l : list child) :
  (forall c, In c l -> is_ok (g c) = true) -> is_ok (strs g l) = true.
Proof.
  induction l as [|c l IH]; intros Hg; cbn [strs]; [reflexivity|].
  pose proof (Hg c (or_introl eq_refl)) as H.
  destruct (g c) as [x|e]; [|discriminate H]. cbn [bind].
  specialize (IH (fun c0 Hin => Hg c0 (or_intror Hin))).
  destruct (strs g l); [reflexivity | discriminate IH].
Qed.

Lemma join_children_ok (g : child -> result string) (l : list child) :
  (forall c, In c l -> is_ok (g c) = true) ->
  is_ok (join_children g l) = true.
Proof.
  intros Hg. unfold join_children. pose proof (strs_ok g l Hg) as H.
  destruct (strs g l); [reflexivity | discriminate H].
Qed.

Lemma node_format_ok (ic : result bool) (g : child -> result string)
    (n : node) :
  is_ok ic = true ->
  (forall c, In c (children n) -> is_ok (g c) = true) ->
  is_ok (node_format ic n g) = true.
Proof.
  intros Hic Hg. unfold node_format.
  destruct ic as [b|e]; [|discriminate Hic].
  assert (Hend : forall first rest,
            is_ok (b0 <- Ok b ;;
                   (if b0
                    then if Str.is_empty rest then Ok first
                         else Ok (first ++ "<" ++ open_tag n ++ ">" ++ rest
                                  ++ "</" ++ close_tag n ++ ">")
                    else Ok (first ++ raw_tag n ++ rest))%string) = true).
  { intros first rest. cbn [bind].
    destruct b; [destruct (Str.is_empty rest)|]; reflexivity. }
  destruct (children n) as [|c [|c' cs]].
  - cbn [bind]. apply Hend.
  - destruct (is_blank c); [cbn [bind]; apply Hend|].
    pose proof (Hg c (or_introl eq_refl)) as H.
    destruct (g c) as [r|e]; [|discriminate H]. cbn [bind]. apply Hend.
  - destruct (is_blank c).
    + pose proof (join_children_ok g (c' :: cs)
                    (fun c0 Hin => Hg c0 (or_intror Hin))) as H.
      destruct (join_children g (c' :: cs)) as [r|e]; [|discriminate H].
      cbn [bind]. apply Hend.
    + pose proof (join_children_ok g (c :: c' :: cs) Hg) as H.
      destruct (join_children g (c :: c' :: cs)) as [r|e]; [|discriminate H].
      cbn [bind]. apply Hend.
Qed.

(** With the references going forward, [str] of the node [nd] returns
    when the frames left and [nd] add up to two more than the size of
    the store: a call on a child, or on the closure, goes to a later
    node. *)
Lemma node_str_enough (rt : runtime) (a : args) (s : store) :
  forward s ->
  forall f nd,
  1 <= f ->
  (nd < List.length s -> List.length s + 2 <= f + nd) ->
  is_ok (node_str rt a f s nd) = true.
Proof.
  intros Hs f. induction f as [|f IH]; intros nd Hf Hnd; [lia|].
  cbn [node_str].
  destruct (nth_error s nd) as [n|] eqn:E; [|reflexivity].
  assert (Hlt : nd < List.length s) by (apply nth_error_Some; congruence).
  specialize (Hnd Hlt). destruct (Hs nd n E) as [H1 H2].
  assert (Hc : forall c, In c (children n) ->
            is_ok (child_str rt a f (node_str rt a f s) c) = true).
  { intros c Hin. destruct c as [x|t|nd'|o c0|o|src at0 al|];
      cbn [child_str]; try reflexivity;
      try (destruct f; [lia | reflexivity]).
    specialize (H1 nd' Hin). apply IH; lia. }
  assert (Hcl : is_ok (closed f s (ClosureOf nd)) = true).
  { apply closed_enough; [exact Hs | lia |].
    intros nd' Hnd'. injection Hnd' as <-. lia. }
  destruct (n_cls n);
    try (apply node_format_ok; [exact Hcl | exact Hc]);
    unfold span_format, literal_format;
    (pose proof (join_children_ok _ (children n) Hc) as H;
     destruct (join_children _ (children n)); [reflexivity | discriminate H]).
Qed.

(** X15. Rendering terminates: whatever use the blocks make of a new
    parser, each node of its store refers, as children and as its
    closure, only to nodes made after it, so the store has no cycle and
    [str] of a node and [closed] come to an end: with two frames more
    than the store has nodes, [str] of a node returns a string, and
    frames beyond that do not change what is rendered. *)
Theorem rendering_terminates (rt : runtime) (a : args) (us : list use) :
  match used a us with
  | Ok p =>
      forward (h p)
      /\ forall nd f,
           S (S (List.length (h p))) <= f ->
           exists x,
             node_str rt a f (h p) nd = Ok x
             /\ forall k, node_str rt a (f + k) (h p) nd = Ok x
  | Raise _ => True
  end.
Proof.
  pose proof (used_both a us) as H.
  destruct (used a us) as [p|e]; [|exact I].
  destruct H as [_ Hf]. split; [exact Hf|].
  intros nd f Hlen.
  pose proof (node_str_enough rt a (h p) Hf f nd) as Hok.
  destruct (node_str rt a f (h p) nd) as [x|e] eqn:E.
  - exists x. split; [reflexivity|].
    intros k. apply node_str_mono, E.
  - discriminate Hok; lia.
Qed.

Lemma rendering_terminates_witness :
  match used no_args [Parse (token_lex "**a**")] with
  | Ok p =>
      List.length (h p) = 2
      /\ exists x,
           node_str rt0 no_args 4 (h p) 0 = Ok x
           /\ node_str rt0 no_args 1000 (h p) 0 = Ok x
  | Raise _ => False
  end.
Proof.
  pose proof (rendering_terminates rt0 no_args [Parse (token_lex "**a**")])
    as H.
  destruct (used no_args [Parse (token_lex "**a**")]) as [p|e] eqn:E;
    vm_compute in E; [|discriminate E].
  injection E as <-. split; [reflexivity|].
  destruct H as [_ H]. destruct (H 0 4) as (x & Hx & Hk); [cbn; lia|].
  exists x. split; [exact Hx | exact (Hk 996)].
Defined.

End RenderProps.

(** ** The open nodes of the parser *)

Module OpenProps.
Import Re Rx Lexer Inline Parser Props.
Local Open Scope nat_scope.
Local Open Scope list_scope.

Lemma fine_neat (r : result parser) :
  fine both r -> (forall p, r = Ok p -> neat_on (nodes p) p) -> fine neat r.
Proof.
  destruct r as [p|e]; cbn [fine]; [|intros H _; exact H].
  intros H Hn. split; [exact H | apply Hn; reflexivity].
Qed.

Lemma closure_at_set_nth (x n : node) (s : store) :
  forall i nd,
  nth_error s i = Some n -> (nd = i -> n_closure x = n_closure n) ->
  closure_at (set_nth i x s) nd = closure_at s nd.
Proof.
  unfold closure_at.
  induction s as [|y s IH]; intros [|i] [|nd]; cbn [set_nth nth_error];
    try reflexivity; try discriminate.
  - intros H Hx. injection H as ->. apply Hx. reflexivity.
  - intros H Hx. apply (IH i nd H). intros ->. apply Hx. reflexivity.
Qed.

(** A node other than [nd] is replaced, or one with the same closure. *)
Lemma closure_at_update (f : node -> node) (i nd : nat) (s : store) :
  (nd = i -> forall n, n_closure (f n) = n_closure n) ->
  closure_at (update i f s) nd = closure_at s nd.
Proof.
  intros Hf. unfold update.
  destruct (nth_error s i) as [n|] eqn:E; [|reflexivity].
  apply (closure_at_set_nth _ n); [exact E|].
  intros ->. apply Hf. reflexivity.
Qed.

Lemma closure_at_app (s : store) (n : node) (nd : nat) :
  nd < List.length s -> closure_at (s ++ [n]) nd = closure_at s nd.
Proof.
  intros H. unfold closure_at. rewrite nth_error_app1 by exact H.
  reflexivity.
Qed.

Lemma cls_at_update (f : node -> node) (i nd : nat) (s : store) :
  (forall n, n_cls (f n) = n_cls n) ->
  cls_at (update i f s) nd = cls_at s nd.
Proof.
  intros Hf. unfold update.
  destruct (nth_error s i) as [n|] eqn:E; [|reflexivity].
  apply (StackProps.cls_at_set_nth _ n); [exact E | apply Hf].
Qed.

Lemma open_colors_ext (s s' : store) (stack : list nat) :
  (forall nd, In nd stack -> cls_at s' nd = cls_at s nd) ->
  open_colors s' stack = open_colors s stack.
Proof.
  intros H. unfold open_colors. f_equal. apply filter_ext_in.
  intros nd Hin. rewrite (H nd Hin). reflexivity.
Qed.

Lemma open_colors_cons (s : store) (nd : nat) (stack : list nat) :
  open_colors s (nd :: stack)
  = (if cls_eqb (cls_at s nd) Color then 1 else 0) + open_colors s stack.
Proof.
  unfold open_colors. cbn [filter].
  destruct (cls_eqb (cls_at s nd) Color); reflexivity.
Qed.

(** *** The tree of the nodes *)

Lemma child_of_valid (s : store) (x y : nat) :
  child_of s x y -> x < List.length s.
Proof.
  intros (n & Hn & _). apply nth_error_Some. congruence.
Qed.

Lemma under_valid (s : store) (x y : nat) :
  under s x y -> x < List.length s.
Proof.
  induction 1 as [y H|y z _ IH _]; [apply (child_of_valid s x y H) | exact IH].
Qed.

Lemma under_sub (s s' : store) :
  (forall x y, child_of s' x y -> child_of s x y) ->
  forall x y, under s' x y -> under s x y.
Proof.
  intros Hc x y H. induction H as [y H|y z _ IH H].
  - apply under_child, Hc, H.
  - apply (under_more s x y z IH), Hc, H.
Qed.

Lemma path_sub (s s' : store) (stack : list nat) :
  (forall x y, In y stack -> child_of s' x y -> child_of s x y) ->
  path s stack -> path s' stack.
Proof.
  induction stack as [|y rest IH]; intros Hc; cbn [path]; [auto|].
  intros [H1 H2]. split.
  - intros x Hx. apply H1, (Hc x y); [left; reflexivity | exact Hx].
  - apply IH; [|exact H2]. intros x z Hz. apply Hc. right. exact Hz.
Qed.

Lemma path_in (s : store) (stack : list nat) :
  path s stack ->
  forall x y, In y stack -> child_of s x y -> In x stack.
Proof.
  induction stack as [|z rest IH]; cbn [path]; intros Hp x y Hin Hc;
    [destruct Hin|].
  destruct Hp as [H1 H2]. destruct Hin as [<-|Hin].
  - specialize (H1 x Hc). destruct rest as [|r rest]; [discriminate H1|].
    injection H1 as ->. right. left. reflexivity.
  - right. apply (IH H2 x y Hin Hc).
Qed.

(** The nodes above a node of the stack are on the stack. *)
Lemma path_under (s : store) (stack : list nat) :
  path s stack ->
  forall x y, under s x y -> In y stack -> In x stack.
Proof.
  intros Hp x y H. induction H as [y H|y z _ IH H]; intros Hin.
  - apply (path_in s stack Hp x y Hin H).
  - apply IH, (path_in s stack Hp y z Hin H).
Qed.

Lemma path_suffix (s : store) (l1 l2 : list nat) :
  path s (l1 ++ l2) -> path s l2.
Proof.
  induction l1 as [|y l1 IH]; cbn [app path]; [auto|].
  intros [_ H]. apply IH, H.
Qed.

Lemma tree_suffix (s : store) (l1 l2 : list nat) :
  tree s (l1 ++ l2) -> tree s l2.
Proof.
  intros (Hk & Hp & Hu). split; [exact Hk|].
  split; [apply (path_suffix s l1 l2 Hp) | exact Hu].
Qed.

(** A store with the same classes and no more children *)
Lemma tree_sub (s s' : store) (stack : list nat) :
  List.length s' = List.length s ->
  (forall x y, child_of s' x y -> child_of s x y) ->
  (forall x, cls_at s' x = cls_at s x) ->
  tree s stack -> tree s' stack.
Proof.
  intros Hl Hc Hcls (Hk & Hp & Hu). split; [|split].
  - intros x y H. rewrite Hl. apply (Hk x y), Hc, H.
  - apply (path_sub s); [|exact Hp]. intros x y _. apply Hc.
  - intros x y H. rewrite !Hcls. apply Hu, (under_sub s s' Hc x y H).
Qed.

Lemma child_of_update (f : node -> node) (i : nat) (s : store) :
  (forall n y, In (Sub y) (children (f n)) -> In (Sub y) (children n)) ->
  forall x y, child_of (update i f s) x y -> child_of s x y.
Proof.
  intros Hf x y. unfold update.
  destruct (nth_error s i) as [n|] eqn:E; [|auto].
  intros (m & Hm & Hin). destruct (Nat.eq_dec i x) as [<-|Hne].
  - rewrite (RenderProps.nth_error_set_nth_same _ n) in Hm by exact E.
    injection Hm as <-. exists n. split; [exact E | apply Hf, Hin].
  - rewrite TokenProps.nth_error_set_nth_other in Hm by exact Hne.
    exists m. split; assumption.
Qed.

Lemma tree_update (f : node -> node) (i : nat) (s : store)
    (stack : list nat) :
  (forall n, n_cls (f n) = n_cls n) ->
  (forall n y, In (Sub y) (children (f n)) -> In (Sub y) (children n)) ->
  tree s stack -> tree (update i f s) stack.
Proof.
  intros Hc Hf. apply tree_sub.
  - apply RenderProps.length_update.
  - apply child_of_update, Hf.
  - intros x. apply cls_at_update, Hc.
Qed.

Lemma child_of_snoc (s : store) (n : node) :
  fresh n ->
  forall x y, child_of (s ++ [n]) x y -> child_of s x y.
Proof.
  intros [Hn _] x y (m & Hm & Hin).
  destruct (Nat.lt_ge_cases x (List.length s)) as [Hlt|Hge].
  - rewrite nth_error_app1 in Hm by exact Hlt. exists m. split; assumption.
  - rewrite nth_error_app2 in Hm by exact Hge.
    destruct (x - List.length s) as [|j]; cbn [nth_error] in Hm.
    + injection Hm as <-. rewrite Hn in Hin. destruct Hin.
    + destruct j; discriminate Hm.
Qed.

(** The only new child of [add_node] is the new node, under the top of
    the stack. *)
Lemma child_of_add (s : store) (n : node) (top : nat) :
  fresh n -> top < List.length s ->
  forall x y,
  child_of (update top (append_child (Sub (List.length s))) (s ++ [n])) x y ->
  child_of s x y \/ (x = top /\ y = List.length s).
Proof.
  intros Hn Htop x y. unfold update.
  destruct (nth_error s top) as [t|] eqn:E;
    [|apply nth_error_None in E; lia].
  rewrite (TokenProps.nth_error_snoc _ _ _ _ E).
  intros (m & Hm & Hin). destruct (Nat.eq_dec top x) as [<-|Hne].
  - rewrite (RenderProps.nth_error_set_nth_same _ t) in Hm
      by (apply TokenProps.nth_error_snoc, E).
    injection Hm as <-. cbn [append_child children] in Hin.
    apply in_app_or in Hin. destruct Hin as [Hin|[Heq|[]]].
    + left. exists t. split; assumption.
    + injection Heq as <-. right. split; reflexivity.
  - rewrite TokenProps.nth_error_set_nth_other in Hm by exact Hne.
    left. apply (child_of_snoc s n Hn). exists m. split; assumption.
Qed.

Lemma cls_at_snoc (s : store) (n : node) (x : nat) :
  x < List.length s -> cls_at (s ++ [n]) x = cls_at s x.
Proof.
  intros H. unfold cls_at. rewrite nth_error_app1 by exact H. reflexivity.
Qed.

Lemma cls_at_new (s : store) (n : node) :
  cls_at (s ++ [n]) (List.length s) = n_cls n.
Proof.
  unfold cls_at. rewrite nth_error_app2, Nat.sub_diag by lia. reflexivity.
Qed.

Lemma open_colors_in (s : store) (stack : list nat) (x : nat) :
  In x stack -> cls_at s x = Color -> open_colors s stack <> 0.
Proof.
  intros Hin Hc. unfold open_colors.
  assert (H : In x (filter (fun nd => cls_eqb (cls_at s nd) Color) stack)).
  { apply filter_In. split; [exact Hin|]. rewrite Hc. reflexivity. }
  destruct (filter _ stack); [destruct H | discriminate].
Qed.

(** A new node under the top of the stack: the stack with the new node
    is a path, and the new node is a colour span only when no node
    above it is one. *)
Lemma tree_add (s : store) (n : node) (top : nat) (rest : list nat) :
  fresh n ->
  Forall (fun nd => nd < List.length s) (top :: rest) ->
  tree s (top :: rest) ->
  (n_cls n = Color -> open_colors s (top :: rest) = 0) ->
  tree (update top (append_child (Sub (List.length s))) (s ++ [n]))
       (List.length s :: top :: rest).
Proof.
  intros Hn Hall (Hk & Hp & Hu) Hcol.
  rewrite Forall_forall in Hall.
  assert (Htop : top < List.length s) by (apply Hall; left; reflexivity).
  pose proof (child_of_add s n top Hn Htop) as Hc.
  set (s' := update top (append_child (Sub (List.length s))) (s ++ [n])) in *.
  assert (Hold : forall x y, y < List.length s -> child_of s' x y ->
                   child_of s x y).
  { intros x y Hy H. destruct (Hc x y H) as [H1|[_ H1]]; [exact H1 | lia]. }
  assert (Hcls : forall x, x < List.length s -> cls_at s' x = cls_at s x).
  { intros x Hx. unfold s'. rewrite cls_at_update by reflexivity.
    apply cls_at_snoc, Hx. }
  assert (Hnew : cls_at s' (List.length s) = n_cls n).
  { unfold s'. rewrite cls_at_update by reflexivity. apply cls_at_new. }
  assert (Hb : forall x y, under s' x y ->
                 under s x y
                 \/ (y = List.length s /\ (x = top \/ under s x top))).
  { intros x y H. induction H as [y H|y z _ IH H].
    - destruct (Hc x y H) as [H1|[-> ->]];
        [left; apply under_child, H1 | right; auto].
    - destruct (Hc y z H) as [H1|[-> ->]].
      + destruct IH as [IH|[-> _]];
          [left; apply (under_more s x y z IH H1)|].
        apply child_of_valid in H1. lia.
      + destruct IH as [IH|[Heq _]]; [right; auto | lia]. }
  split; [|split].
  - intros x y H. unfold s'.
    rewrite RenderProps.length_update, length_app. cbn [List.length].
    destruct (Hc x y H) as [H1|[_ ->]]; [specialize (Hk x y H1)|]; lia.
  - change ((forall x, child_of s' x (List.length s) ->
                hd_error (top :: rest) = Some x)
            /\ path s' (top :: rest)).
    split.
    + intros x H. destruct (Hc x _ H) as [H1|[-> _]]; [|reflexivity].
      specialize (Hk _ _ H1). lia.
    + apply (path_sub s); [|exact Hp].
      intros x y Hin. apply Hold, Hall, Hin.
  - intros x y H Hx. destruct (Hb x y H) as [H1|[-> H1]].
    + pose proof (under_valid s x y H1) as Hvx.
      assert (Hvy : y < List.length s).
      { inversion H1 as [y' H2|y' z' _ H2]; apply (Hk _ _ H2). }
      rewrite Hcls in Hx |- * by assumption. apply (Hu x y H1 Hx).
    + rewrite Hnew. intros Hc0.
      assert (Hin : In x (top :: rest)).
      { destruct H1 as [->|H1]; [left; reflexivity|].
        apply (path_under s _ Hp x top H1). left. reflexivity. }
      rewrite Hcls in Hx by (apply Hall, Hin).
      apply (open_colors_in s _ x Hin Hx), Hcol, Hc0.
Qed.

(** A new node that is the only one of the stack *)
Lemma tree_root (s : store) (n : node) :
  fresh n -> kids_inside s -> unnested s ->
  tree (s ++ [n]) [List.length s].
Proof.
  intros Hn Hk Hu. pose proof (child_of_snoc s n Hn) as Hc.
  split; [|split].
  - intros x y H. rewrite length_app. cbn [List.length].
    specialize (Hk x y (Hc x y H)). lia.
  - cbn [path]. split; [|exact I]. intros x H.
    specialize (Hk x _ (Hc x _ H)). lia.
  - intros x y H Hx. apply (under_sub s _ Hc) in H.
    pose proof (under_valid s x y H) as Hvx.
    assert (Hvy : y < List.length s).
    { inversion H as [y' H2|y' z' _ H2]; apply (Hk _ _ H2). }
    rewrite cls_at_snoc in Hx |- * by assumption. apply (Hu x y H Hx).
Qed.

(** The store changes in a node that keeps its class, and that keeps
    its closure unless it is off the stack. *)
Lemma neat_on_update (f : node -> node) (i : nat) (stack : list nat)
    (p : parser) :
  (forall n, n_cls (f n) = n_cls n) ->
  (In i stack -> forall n, n_closure (f n) = n_closure n) ->
  (forall n y, In (Sub y) (children (f n)) -> In (Sub y) (children n)) ->
  neat_on stack p -> neat_on stack (set_h (update i f (h p)) p).
Proof.
  intros Hc Hcl Hch (Hnd & Ho & Hn & Ht). split; [exact Hnd|].
  split; [|split].
  - intros nd Hin. cbn [h set_h].
    rewrite closure_at_update; [apply Ho, Hin|].
    intros ->. apply Hcl, Hin.
  - cbn [h set_h color].
    rewrite (open_colors_ext (h p)); [exact Hn|].
    intros nd _. apply cls_at_update, Hc.
  - cbn [h set_h]. apply tree_update; assumption.
Qed.

Lemma append_child_kids (c : child) (n : node) (y : nat) :
  not_sub c ->
  In (Sub y) (children (append_child c n)) -> In (Sub y) (children n).
Proof.
  intros Hc Hin. cbn [append_child children] in Hin.
  apply in_app_or in Hin. destruct Hin as [Hin|[Heq|[]]]; [exact Hin|].
  rewrite Heq in Hc. destruct Hc.
Qed.

Lemma set_flag_color (k : cls) (v : bool) (p p' : parser) :
  set_flag k v p = Ok p' ->
  h p' = h p /\ nodes p' = nodes p
  /\ color p' = (if cls_eqb k Color then v else color p).
Proof.
  destruct k; cbn [set_flag cls_eqb];
    try (intros H; injection H as <-; repeat split; reflexivity).
  destruct (_ <? 0)%Z; [discriminate|].
  intros H. injection H as <-. repeat split; reflexivity.
Qed.

Lemma add_text_neat (c : child) (p : parser) :
  not_sub c -> neat p -> fine neat (add_text c p).
Proof.
  intros Hc [Hb Hn].
  apply fine_neat; [apply RenderProps.add_text_both; assumption|].
  intros p'. unfold add_text.
  destruct (nodes p) as [|top rest] eqn:E; [discriminate|].
  intros H. injection H as <-.
  change (nodes (set_h (update top (append_child c) (h p)) p)) with (nodes p).
  rewrite E. apply neat_on_update; [reflexivity | reflexivity | | exact Hn].
  intros n y. apply append_child_kids, Hc.
Qed.

(** A new node enters the stack: it is open, it is no node of the
    stack, and it is a colour span only when none is open. *)
Lemma add_node_neat_on (n : node) (p p' : parser) :
  fresh n ->
  Forall (fun nd => nd < List.length (h p)) (nodes p) ->
  neat_on (nodes p) p ->
  (n_cls n = Color -> color p = false) ->
  add_node n p = Ok p' ->
  neat_on (nodes p') p'
  /\ nodes p' = List.length (h p) :: nodes p
  /\ List.length (h p') = S (List.length (h p)).
Proof.
  intros Hfr Hall (Hnd & Ho & Hn & Ht) Hcol. pose proof Hfr as [_ Hopen].
  unfold add_node.
  destruct (nodes p) as [|top rest] eqn:E; [discriminate|].
  pose proof (tree_add (h p) n top rest Hfr Hall Ht) as Htree.
  cbn zeta. unfold add_flag. intros H. apply set_flag_color in H.
  destruct H as (Hh & Hs & Hc).
  cbn [h nodes color set_nodes set_h] in Hh, Hs, Hc. rewrite E in Hs.
  assert (Hcls : forall nd, nd < List.length (h p) ->
            cls_at (update top (append_child (Sub (List.length (h p))))
                           (h p ++ [n])) nd
            = cls_at (h p) nd).
  { intros nd Hlt. rewrite cls_at_update by reflexivity.
    unfold cls_at. rewrite nth_error_app1 by exact Hlt. reflexivity. }
  assert (Hnew : cls_at (update top (append_child (Sub (List.length (h p))))
                                (h p ++ [n])) (List.length (h p))
                 = n_cls n).
  { rewrite cls_at_update by reflexivity.
    unfold cls_at. rewrite nth_error_app2, Nat.sub_diag by lia. reflexivity. }
  rewrite Forall_forall in Hall.
  split; [|split; [exact Hs|]].
  - unfold neat_on. rewrite Hh, Hs, Hc. split; [|split; [|split]].
    + constructor; [|exact Hnd]. intros Hin. specialize (Hall _ Hin). lia.
    + intros nd Hin. rewrite closure_at_update by reflexivity.
      destruct Hin as [<-|Hin].
      * unfold closure_at.
        rewrite nth_error_app2, Nat.sub_diag by lia. exact Hopen.
      * rewrite closure_at_app by (apply Hall, Hin). apply Ho, Hin.
    + rewrite open_colors_cons, Hnew.
      rewrite (open_colors_ext (h p))
        by (intros nd Hin; apply Hcls, Hall, Hin).
      rewrite Hn. destruct (cls_eqb (n_cls n) Color) eqn:Ek; [|reflexivity].
      apply StackProps.cls_eqb_eq in Ek. rewrite (Hcol Ek). reflexivity.
    + apply Htree. intros Hk. rewrite Hn, (Hcol Hk). reflexivity.
  - rewrite Hh, RenderProps.length_update, length_app. cbn [List.length]. lia.
Qed.

Lemma add_node_neat (n : node) (p : parser) :
  fresh n -> inv (Some (n_cls n)) (nodes p) p -> forward (h p) ->
  neat_on (nodes p) p -> (n_cls n = Color -> color p = false) ->
  fine neat (add_node n p).
Proof.
  intros Hf Hinv Hfw Hn Hcol.
  apply fine_neat; [apply RenderProps.add_node_both; assumption|].
  intros p' H.
  apply (add_node_neat_on n p p' Hf (proj1 (proj1 Hinv)) Hn Hcol H).
Qed.

(** The top of the stack leaves it. *)
Lemma pop_neat (nd : nat) (rest : list nat) (p p' : parser) :
  remove_flag (type_of p nd) (set_nodes rest p) = Ok p' ->
  neat_on (nd :: rest) p -> neat_on rest p'.
Proof.
  unfold remove_flag. intros H (Hnd & Ho & Hn & Ht).
  apply set_flag_color in H. destruct H as (Hh & _ & Hc).
  cbn [h color set_nodes] in Hh, Hc.
  unfold neat_on. rewrite Hh, Hc. split; [|split; [|split]].
  - inversion Hnd. assumption.
  - intros x Hin. apply Ho. right. exact Hin.
  - rewrite open_colors_cons in Hn.
    change (type_of p nd) with (cls_at (h p) nd).
    destruct (cls_eqb (cls_at (h p) nd) Color), (color p); cbn in Hn |- *; lia.
  - apply (tree_suffix (h p) [nd] rest Ht).
Qed.

Lemma remove_to_neat (k : cls) (stack : list nat) :
  forall p removed p',
  remove_to k stack p = Ok (removed, p') ->
  neat_on stack p ->
  neat_on (nodes p') p' /\ h p' = h p /\ stack = removed ++ nodes p'.
Proof.
  induction stack as [|nd rest IH]; intros p removed p'; cbn [remove_to];
    [discriminate|].
  destruct (remove_flag (type_of p nd) (set_nodes rest p)) as [p1|] eqn:E;
    cbn [bind]; [|discriminate].
  intros H Hn. pose proof (pop_neat nd rest p p1 E Hn) as Hn1.
  unfold remove_flag in E. apply set_flag_color in E.
  destruct E as (Hh & Hs & _). cbn [h nodes set_nodes] in Hh, Hs.
  destruct (isinstance (type_of p1 nd) k).
  - injection H as <- <-. rewrite Hs. split; [exact Hn1|].
    split; [exact Hh | reflexivity].
  - destruct (remove_to k rest p1) as [[r p2]|] eqn:E2; cbn [bind] in H;
      [|discriminate].
    injection H as <- <-.
    destruct (IH p1 r p2 E2 Hn1) as (H1 & H2 & H3).
    split; [exact H1|]. split; [congruence|]. cbn [app]. rewrite <- H3.
    reflexivity.
Qed.

Lemma remove_all_neat (stack : list nat) :
  forall p p', remove_all stack p = Ok p' -> neat_on stack p ->
  neat_on [] p'.
Proof.
  induction stack as [|nd rest IH]; intros p p'; cbn [remove_all].
  - intros H. injection H as <-. intros Hn. exact Hn.
  - destruct (remove_flag (type_of p nd) (set_nodes rest p)) as [p1|] eqn:E;
      cbn [bind]; [|discriminate].
    intros H Hn. apply (IH p1 p' H). apply (pop_neat nd rest p p1 E Hn).
Qed.

Lemma construct_not_color (k : cls) (n : node) :
  construct k = Ok n -> n_cls n <> Color.
Proof.
  destruct k; cbn [construct]; intros H; try discriminate H;
    injection H as <-; discriminate.
Qed.

(** The nodes that [restore_rev] puts on the stack are new ones, and
    the removed nodes that it closes by them are off the stack. *)
Lemma restore_rev_neat (removed_rev : list nat) :
  forall p,
  neat p ->
  (forall old, In old removed_rev ->
     ~ In old (nodes p) /\ old < List.length (h p)) ->
  fine (fun p' =>
          neat p'
          /\ List.length (h p) <= List.length (h p')
          /\ forall x, In x (nodes p') ->
               In x (nodes p) \/ List.length (h p) <= x)
       (restore_rev removed_rev p).
Proof.
  induction removed_rev as [|old rest IH]; intros p Hp Hold;
    cbn [restore_rev].
  - cbn [fine]. split; [exact Hp|]. split; [lia|]. intros x Hx. left. exact Hx.
  - destruct Hp as [[Hok Hf] Hn].
    destruct (construct (type_of p old)) as [new_n|e] eqn:E;
      [|pose proof (StackProps.construct_fine (type_of p old)) as H;
        rewrite E in H; exact H].
    cbn [bind].
    set (s1 := update old (set_closure (ClosureOf (List.length (h p)))) (h p)).
    assert (Hp1 : inv None (nodes p) (set_h s1 p)).
    { apply StackProps.inv_store; [|exact Hok].
      apply StackProps.extends_update. reflexivity. }
    assert (Hf1 : forward_upto (S (List.length (h p))) s1).
    { apply RenderProps.forward_update;
        [apply (RenderProps.forward_upto_mono (List.length (h p)));
         [lia | exact Hf]|].
      intros n Hn0. destruct (Hf old n Hn0) as [H1 H2]. split.
      - intros nd Hnd. specialize (H1 nd Hnd). lia.
      - intros nd Hnd. cbn in Hnd. injection Hnd as <-.
        assert (old < List.length (h p)) by (apply nth_error_Some; congruence).
        lia. }
    assert (Hlen1 : List.length s1 = List.length (h p))
      by apply RenderProps.length_update.
    assert (Hn1 : neat_on (nodes p) (set_h s1 p)).
    { apply neat_on_update; [reflexivity | | auto | exact Hn].
      intros Hin. exfalso. apply (proj1 (Hold old (or_introl eq_refl))), Hin. }
    pose proof (StackProps.add_node_ok new_n (set_h s1 p)
                  (StackProps.inv_weaken _ _ _ Hp1)) as Hadd.
    destruct (add_node new_n (set_h s1 p)) as [p2|e] eqn:E2; [|exact Hadd].
    cbn [bind fine] in Hadd |- *.
    assert (Hf2 : forward (h p2)).
    { apply (RenderProps.add_node_forward new_n (set_h s1 p) p2
               (RenderProps.construct_fresh _ _ E));
        [apply Hp1 | cbn [h set_h]; rewrite Hlen1; exact Hf1 | exact E2]. }
    destruct (add_node_neat_on new_n (set_h s1 p) p2
                (RenderProps.construct_fresh _ _ E) (proj1 (proj1 Hp1)) Hn1)
      as (Hn2 & Hs2 & Hl2); [|exact E2|].
    { intros Hc. exfalso. exact (construct_not_color _ _ E Hc). }
    cbn [h nodes set_h] in Hs2, Hl2. rewrite Hlen1 in Hs2, Hl2.
    specialize (IH p2 (conj (conj Hadd Hf2) Hn2)).
    assert (Hold2 : forall old0, In old0 rest ->
              ~ In old0 (nodes p2) /\ old0 < List.length (h p2)).
    { intros old0 Hin. destruct (Hold old0 (or_intror Hin)) as [H1 H2].
      split; [|lia]. rewrite Hs2. intros [Heq|Hin2]; [lia | exact (H1 Hin2)]. }
    specialize (IH Hold2).
    destruct (restore_rev rest p2) as [p3|e]; [|exact IH].
    cbn [fine] in IH |- *. destruct IH as (H3 & Hl3 & Hx3).
    split; [exact H3|]. split; [lia|].
    intros x Hx. destruct (Hx3 x Hx) as [Hin|Hge]; [|right; lia].
    rewrite Hs2 in Hin. destruct Hin as [<-|Hin]; [right; lia | left; exact Hin].
Qed.

Lemma nodup_app_apart {A} (l1 l2 : list A) (x : A) :
  NoDup (l1 ++ l2) -> In x l1 -> ~ In x l2.
Proof.
  induction l1 as [|y l1 IH]; cbn [app]; [intros _ []|].
  intros Hnd [->|Hin] H2; inversion Hnd as [|z l Hz Hl]; subst.
  - apply Hz, in_or_app. right. exact H2.
  - exact (IH Hl Hin H2).
Qed.

(** The node of the class is off the stack when the nodes above it
    have been put back. *)
Lemma remove_node_neat (k : cls) (p : parser) :
  inv None (nodes p) p -> forward (h p) -> neat_on (nodes p) p ->
  on_stack (h p) (nodes p) k ->
  fine (fun r => neat (snd r) /\ ~ In (fst r) (nodes (snd r)))
       (remove_node k p).
Proof.
  intros Hp Hf Hn Hon. unfold remove_node, remove_nodes_to_class.
  pose proof (StackProps.remove_to_ok k (nodes p) p Hp Hon) as H.
  destruct (remove_to k (nodes p) p) as [[removed p1]|e] eqn:E; [|exact H].
  cbn [bind fine snd] in H |- *.
  destruct (remove_to_neat k (nodes p) p removed p1 E Hn) as (Hn1 & Hh1 & Hst).
  destruct (List.rev removed) as [|nd rest_rev] eqn:Er;
    [unfold IndexError; split; discriminate|].
  assert (Hrem : forall x, In x removed ->
            ~ In x (nodes p1) /\ x < List.length (h p1)).
  { intros x Hx. split.
    - intros Hin. destruct Hn as (Hnd & _). rewrite Hst in Hnd.
      exact (nodup_app_apart _ _ _ Hnd Hx Hin).
    - rewrite Hh1. destruct Hp as [[Hall _] _].
      rewrite Forall_forall in Hall. apply Hall. rewrite Hst.
      apply in_or_app. left. exact Hx. }
  assert (Hin_rev : forall x, In x (nd :: rest_rev) -> In x removed).
  { intros x Hx. rewrite <- Er in Hx. apply in_rev in Hx. exact Hx. }
  pose proof (restore_rev_neat rest_rev p1) as Hr.
  assert (Hf1 : forward (h p1)) by (rewrite Hh1; exact Hf).
  specialize (Hr (conj (conj H Hf1) Hn1)).
  specialize (Hr (fun x Hx => Hrem x (Hin_rev x (or_intror Hx)))).
  destruct (restore_rev rest_rev p1) as [p2|e]; [|exact Hr].
  cbn [bind fine fst snd] in Hr |- *.
  destruct Hr as (H2 & Hl2 & Hx2). split; [exact H2|].
  intros Hin. destruct (Hrem nd (Hin_rev nd (or_introl eq_refl))) as [H3 H4].
  destruct (Hx2 nd Hin) as [Hin1|Hge]; [exact (H3 Hin1) | lia].
Qed.

Lemma close_node_neat (k : cls) (p : parser) :
  neat p -> flag_of k p = true -> fine neat (close_node k p).
Proof.
  intros [[Hp Hf] Hn] Hk. unfold close_node.
  apply (StackProps.fine_bind
           (fun r => neat (snd r) /\ ~ In (fst r) (nodes (snd r)))).
  - apply remove_node_neat; [exact Hp | exact Hf | exact Hn |].
    apply (proj2 Hp); [discriminate | exact Hk].
  - intros [nd p1] [[Hb1 Hn1] Hnot]. cbn [fst snd] in *. cbn [fine].
    split; [apply RenderProps.close_mark_both, Hb1|].
    change (nodes (set_h (update nd (set_closure CLOSED_NODE) (h p1)) p1))
      with (nodes p1).
    apply neat_on_update; [reflexivity | | auto | exact Hn1].
    intros Hin. contradiction.
Qed.

Lemma opening_neat (k : cls) (raw : string) (i : nat) (p : parser) :
  neat p ->
  fine neat
    (b <- before_text i p ;;
     if b then n <- construct k ;; add_node n p else add_text (Text raw) p).
Proof.
  intros Hp.
  apply (StackProps.fine_bind (fun _ => True));
    [apply StackProps.before_text_fine|].
  intros [|] _; [|apply add_text_neat; [exact I | exact Hp]].
  destruct (construct k) as [n|e] eqn:E;
    [|pose proof (StackProps.construct_fine k) as H; rewrite E in H; exact H].
  cbn [bind].
  apply add_node_neat;
    [apply (RenderProps.construct_fresh _ _ E)
    | apply StackProps.inv_weaken, Hp | apply Hp | apply Hp |].
  intros Hc. exfalso. exact (construct_not_color _ _ E Hc).
Qed.

Lemma closing_neat (k : cls) (raw : string) (i : nat) (p : parser) :
  neat p -> flag_of k p = true ->
  fine neat
    (b <- after_text i p ;;
     if b then close_node k p else add_text (Text raw) p).
Proof.
  intros Hp Hk.
  apply (StackProps.fine_bind (fun _ => True));
    [apply StackProps.after_text_fine|].
  intros [|] _; [apply close_node_neat; assumption|].
  apply add_text_neat; [exact I | exact Hp].
Qed.

Lemma handle_token_neat (i : nat) (raw : string) (k : cls) (p : parser) :
  neat p -> fine neat (handle_token i raw (flag_of k p) k p).
Proof.
  intros Hp. unfold handle_token.
  destruct (flag_of k p) eqn:E;
    [apply closing_neat; assumption | apply opening_neat, Hp].
Qed.

Lemma parse_image_neat (tok : string) (p : parser) :
  neat p -> fine neat (parse_image tok p).
Proof.
  intros Hp. unfold parse_image.
  destruct (re_search RX_IMAGE tok); apply add_text_neat;
    try exact I; exact Hp.
Qed.

Ltac neat_step Hp :=
  first
    [ apply add_text_neat; [exact I | exact Hp]
    | apply add_node_neat;
        [split; reflexivity | apply StackProps.inv_weaken, Hp | apply Hp
        | apply Hp | first [intros _; assumption | discriminate]]
    | apply close_node_neat; [exact Hp | cbn [flag_of]; assumption]
    | apply (handle_token_neat _ _ StrikeThru), Hp
    | apply (handle_token_neat _ _ Underline), Hp
    | apply (handle_token_neat _ _ Italic), Hp
    | apply (handle_token_neat _ _ Bold), Hp
    | apply (handle_token_neat _ _ Subscript), Hp
    | apply (handle_token_neat _ _ Superscript), Hp
    | apply parse_image_neat, Hp
    | apply opening_neat, Hp
    | apply closing_neat; [exact Hp | cbn [flag_of]; assumption]
    | exact Hp
    | cbn [fine]; split; discriminate ].

Lemma parse_str_neat (a : args) (i : nat) (tok : string) (p : parser) :
  neat p -> fine neat (parse_str a i tok p).
Proof.
  intros Hp. unfold parse_str.
  repeat match goal with
         | |- fine _ (if negb ?c then _ else _) =>
             let E := fresh "E" in destruct c eqn:E; cbn [negb]
         | |- fine _ (if ?c then _ else _) =>
             let E := fresh "E" in destruct c eqn:E
         | |- fine _ (match ?x with Some _ => _ | None => _ end) => destruct x
         end;
    neat_step Hp.
Qed.

Lemma neat_on_comment (v : bool) (stack : list nat) (p : parser) :
  neat_on stack p -> neat_on stack (set_comment v p).
Proof. intros H. exact H. Qed.

Lemma neat_on_tokens (v : list token) (stack : list nat) (p : parser) :
  neat_on stack p -> neat_on stack (set_tokens v p).
Proof. intros H. exact H. Qed.

Lemma parse_token_neat (a : args) (i : nat) (t : token) (p : parser) :
  neat p -> fine neat (parse_token a i t p).
Proof.
  intros Hp. pose proof Hp as [[Hok Hf] Hn]. unfold parse_token.
  destruct (comment p).
  { destruct (tok_eqb t "--]"); [|exact Hp].
    split; [split; [apply StackProps.flags_of_comment, Hok | exact Hf]
           | exact Hn]. }
  destruct (tok_eqb t "[!--");
    [split; [split; [apply StackProps.flags_of_comment, Hok | exact Hf]
            | exact Hn]|].
  destruct t as [tok| | | |].
  - destruct (escape_literal p);
      [apply add_text_neat; [exact I | exact Hp]|].
    destruct (no_escape_literal p);
      [apply add_text_neat; [exact I | exact Hp]|].
    apply parse_str_neat, Hp.
  - apply add_node_neat;
      [split; reflexivity | | exact Hf | exact Hn | discriminate].
    apply (StackProps.literal_flag true p Hok).
  - destruct (escape_literal p) eqn:E.
    + apply (StackProps.fine_bind
               (fun r => neat (snd r) /\ ~ In (fst r) (nodes (snd r)))).
      * apply remove_node_neat; [| exact Hf | exact Hn |].
        -- apply (StackProps.literal_flag false p Hok). reflexivity.
        -- apply (proj2 Hok Literal); [discriminate | exact E].
      * intros [nd p1] [H1 _]. exact H1.
    + destruct (no_escape_literal p);
        [apply add_text_neat; [exact I | exact Hp]|].
      cbn [fine]. split; discriminate.
  - destruct (escape_literal p); [cbn [fine]; split; discriminate|].
    destruct (no_escape_literal p);
      [apply add_text_neat; [exact I | exact Hp]|].
    apply add_node_neat;
      [split; reflexivity | | exact Hf | exact Hn | discriminate].
    apply (StackProps.entity_flag true p Hok).
  - destruct (no_escape_literal p) eqn:E;
      [|apply add_text_neat; [exact I | exact Hp]].
    apply (StackProps.fine_bind
             (fun r => neat (snd r) /\ ~ In (fst r) (nodes (snd r)))).
    + apply remove_node_neat; [| exact Hf | exact Hn |].
      * apply (StackProps.entity_flag false p Hok). reflexivity.
      * apply (proj2 Hok HTMLEntityLiteral); [discriminate | exact E].
    + intros [nd p1] [H1 _]. exact H1.
Qed.

Lemma parse_from_neat (a : args) (ts : list token) :
  forall i p, neat p -> fine neat (parse_from a i ts p).
Proof.
  induction ts as [|t ts IH]; intros i p Hp; cbn [parse_from]; [exact Hp|].
  apply (StackProps.fine_bind neat); [apply parse_token_neat, Hp|].
  intros p1 H1. apply IH, H1.
Qed.

Lemma restore_all_nodes_neat (removed : list nat) (p : parser) :
  inv None [] p -> forward (h p) -> neat_on [] p ->
  (forall x, In x removed -> x < List.length (h p)) ->
  fine neat (restore_all_nodes removed p).
Proof.
  intros Hp Hf Hn Hrem.
  pose proof (RenderProps.restore_all_nodes_forward removed p Hp Hf) as Hb.
  unfold restore_all_nodes in *.
  destruct (List.rev removed) as [|bottom rest_rev] eqn:Er; [exact Hb|].
  destruct (construct (type_of p bottom)) as [top|e] eqn:E; [|exact Hb].
  cbn [bind] in *.
  set (p1 := set_nodes [List.length (h p)]
               (set_top_node (List.length (h p)) (set_h (h p ++ [top]) p)))
    in *.
  assert (Hb1 : both p1).
  { destruct Hp as [[_ Hd] Hflags].
    destruct (StackProps.construct_cls _ _ E) as [Hc Hns].
    assert (Hn0 : cls_at (h p ++ [top]) (List.length (h p)) = n_cls top).
    { unfold cls_at. rewrite nth_error_app2, Nat.sub_diag by lia.
      reflexivity. }
    split; [split; [split|]|];
      cbn [p1 h nodes span_depth set_nodes set_top_node set_h].
    - constructor; [rewrite length_app; cbn [List.length]; lia | constructor].
    - rewrite StackProps.open_spans_cons, Hn0, Hd.
      destruct (cls_eqb (n_cls top) Span) eqn:Es; [|reflexivity].
      apply StackProps.cls_eqb_eq in Es. congruence.
    - intros k Hk Hflag. exfalso.
      destruct (Hflags k Hk) as (x & [] & _).
      destruct k; exact Hflag.
    - apply RenderProps.forward_app;
        [|apply (RenderProps.construct_fresh _ _ E)].
      apply (RenderProps.forward_upto_mono (List.length (h p)));
        [lia | exact Hf]. }
  assert (Hn1 : neat_on (nodes p1) p1).
  { destruct Hn as (_ & _ & Hcol & (Hk & _ & Hu)).
    cbn [open_colors filter List.length] in Hcol.
    unfold p1. unfold neat_on.
    cbn [h nodes color set_nodes set_top_node set_h].
    split; [repeat constructor; intros []|]. split; [|split].
    - intros nd [<-|[]]. unfold closure_at.
      rewrite nth_error_app2, Nat.sub_diag by lia.
      apply (RenderProps.construct_fresh _ _ E).
    - rewrite open_colors_cons. unfold cls_at at 1.
      rewrite nth_error_app2, Nat.sub_diag by lia. cbn [nth_error].
      pose proof (construct_not_color _ _ E) as Hnc.
      destruct (cls_eqb (n_cls top) Color) eqn:Ec;
        [apply StackProps.cls_eqb_eq in Ec; contradiction|].
      cbn [open_colors filter List.length]. exact Hcol.
    - apply tree_root;
        [apply (RenderProps.construct_fresh _ _ E) | exact Hk | exact Hu]. }
  pose proof (restore_rev_neat rest_rev p1 (conj Hb1 Hn1)) as Hr.
  assert (Hold : forall old, In old rest_rev ->
            ~ In old (nodes p1) /\ old < List.length (h p1)).
  { intros old Hin.
    assert (Hlt : old < List.length (h p)).
    { apply Hrem. apply in_rev. rewrite Er. right. exact Hin. }
    unfold p1. cbn [h nodes set_nodes set_top_node set_h].
    rewrite length_app.
    cbn [List.length]. split; [intros [Heq|[]]; lia | lia]. }
  specialize (Hr Hold).
  destruct (restore_rev rest_rev p1) as [p2|e]; [|exact Hr].
  cbn [fine] in Hr |- *. apply Hr.
Qed.

Lemma apply_use_neat (a : args) (u : use) (p : parser) :
  neat p -> fine neat (apply_use a u p).
Proof.
  intros Hp. pose proof Hp as [[Hok Hf] Hn].
  destruct u as [toks| |]; cbn [apply_use].
  - unfold parse. apply parse_from_neat.
    split; [split; [apply StackProps.flags_of_tokens, Hok | exact Hf]
           | exact Hn].
  - apply add_text_neat; [exact I | exact Hp].
  - unfold remove_all_nodes.
    pose proof (StackProps.remove_all_ok (nodes p) p Hok) as H.
    destruct (remove_all (nodes p) p) as [p1|e] eqn:E; [|exact H].
    cbn [bind]. pose proof (RenderProps.remove_all_h _ _ _ E) as Hh.
    apply restore_all_nodes_neat; [exact H | rewrite Hh; exact Hf | |].
    + apply (remove_all_neat _ _ _ E Hn).
    + intros x Hx. rewrite Hh. destruct Hok as [[Hall _] _].
      rewrite Forall_forall in Hall. apply Hall, Hx.
Qed.

Lemma init_neat : neat Parser.init.
Proof.
  split; [split; [apply StackProps.init_ok|]|].
  - intros i n Hn. destruct i as [|[|i]]; cbn in Hn; try discriminate Hn.
    injection Hn as <-.
    split; intros nd Hnd; [destruct Hnd | discriminate Hnd].
  - assert (Hc : forall x y, ~ child_of (h Parser.init) x y).
    { intros x y (n & Hn & Hin).
      destruct x as [|[|x]]; cbn in Hn; try discriminate Hn.
      injection Hn as <-. destruct Hin. }
    split; [repeat constructor; intros []|]. split; [|split; [reflexivity|]].
    + intros nd [<-|[]]. reflexivity.
    + split; [|split].
      * intros x y H. destruct (Hc x y H).
      * split; [|exact I]. intros x H. destruct (Hc x _ H).
      * intros x y H. exfalso.
        inversion H as [y' H2|y' z' _ H2]; apply (Hc _ _ H2).
Qed.

Lemma used_neat (a : args) (us : list use) : fine neat (used a us).
Proof.
  unfold used.
  assert (H : forall r, fine neat r ->
            fine neat
              (fold_left (fun r u => p <- r ;; apply_use a u p) us r)).
  { induction us as [|u us IH]; intros r Hr; cbn [fold_left]; [exact Hr|].
    apply IH. apply (StackProps.fine_bind neat); [exact Hr|].
    intros p Hp. apply apply_use_neat, Hp. }
  apply H, init_neat.
Qed.

(** *** Nodes that are still open *)

Local Open Scope string_scope.

(** [closed()] of an open node says no, when it has the frames to. *)
Lemma closed_of_open (fuel : nat) (s : store) (nd : nat) (n : node) :
  nth_error s nd = Some n -> n_closure n = OPEN_NODE ->
  closed fuel s (ClosureOf nd) = Ok false
  \/ closed fuel s (ClosureOf nd) = Raise RecursionError.
Proof.
  intros Hn Ho. destruct fuel as [|[|fuel]]; cbn [closed]; rewrite ?Hn, ?Ho;
    auto.
Qed.

Lemma node_format_open (n : node) (str : child -> result string)
    (s : string) :
  node_format (Ok false) n str = Ok s ->
  match children n with
  | c :: cs =>
      if is_blank c
      then exists rest,
             join_children str cs = Ok rest /\ s = " " ++ raw_tag n ++ rest
      else exists rest,
             join_children str (c :: cs) = Ok rest /\ s = raw_tag n ++ rest
  | [] => s = raw_tag n
  end.
Proof.
  unfold node_format. destruct (children n) as [|c [|c' cs]].
  - cbn [bind]. intros H. injection H as <-. cbn [String.append].
    rewrite TableProps.append_nil_r. reflexivity.
  - destruct (is_blank c).
    + cbn [bind]. intros H. injection H as <-. exists EmptyString.
      split; reflexivity.
    + unfold join_children. cbn [strs].
      destruct (str c) as [r|e]; cbn [bind]; [|discriminate].
      intros H. injection H as <-. exists r. split; reflexivity.
  - destruct (is_blank c).
    + destruct (join_children str (c' :: cs)) as [r|e]; cbn [bind];
        [|discriminate].
      intros H. injection H as <-. exists r. split; reflexivity.
    + destruct (join_children str (c :: c' :: cs)) as [r|e]; cbn [bind];
        [|discriminate].
      intros H. injection H as <-. exists r. split; reflexivity.
Qed.

(** [closed()] of a node that was left open says no, when it has the
    frames to. *)
Lemma closed_left_open (s : store) (stack : list nat) (nd : nat) :
  stack_open s stack -> left_open s stack nd ->
  forall fuel,
  closed fuel s (ClosureOf nd) = Ok false
  \/ closed fuel s (ClosureOf nd) = Raise RecursionError.
Proof.
  intros Ho H. induction H as [nd Hin|nd nd' n Hn Hc _ IH]; intros fuel.
  - specialize (Ho nd Hin). unfold closure_at in Ho.
    destruct (nth_error s nd) as [n|] eqn:E.
    + apply (closed_of_open fuel s nd n E Ho).
    + destruct fuel as [|fuel]; cbn [closed]; rewrite ?E; auto.
  - destruct fuel as [|fuel]; cbn [closed]; [auto|].
    rewrite Hn, Hc. apply IH.
Qed.

(** C2, amended. Whatever use the blocks make of a new parser, a node
    that is still on its stack, which is a node that was opened and not
    closed, has the closure it was made with. A node that was left
    open is one on the stack, or one whose closure is the node that
    took its place between two items of a list, itself left open. When
    such a node is of a style other than span and [str] returns, what
    it returns is the raw marker of the node followed by the rendering
    of its children, a first child that is a single blank being written
    before the marker, and no tag is written for the node. The only
    exception of [str] is [RecursionError], and it is not raised when
    the frames left exceed the size of the store by two. A span node
    renders between its opening tag and [</span>] whether it was closed
    or not. *)
Theorem unclosed_node_str (rt : runtime) (a : args) (us : list use) :
  match used a us with
  | Ok p =>
      forall nd n fuel,
      nth_error (h p) nd = Some n ->
      let str := child_str rt a fuel (node_str rt a fuel (h p)) in
      (In nd (nodes p) -> n_closure n = OPEN_NODE)
      /\ (left_open (h p) (nodes p) nd ->
          plain_node (n_cls n) = true ->
          match node_str rt a (S fuel) (h p) nd with
          | Ok s =>
              match children n with
              | c :: cs =>
                  if is_blank c
                  then exists rest,
                         join_children str cs = Ok rest
                         /\ s = " " ++ raw_tag n ++ rest
                  else exists rest,
                         join_children str (c :: cs) = Ok rest
                         /\ s = raw_tag n ++ rest
              | [] => s = raw_tag n
              end
          | Raise e =>
              e = RecursionError /\ fuel <= List.length (h p)
          end)
      /\ (n_cls n = Span ->
          node_str rt a (S fuel) (h p) nd
          = (rest <- join_children str (children n) ;;
             Ok ("<" ++ open_tag n ++ ">" ++ Str.rstrip rest ++ "</span>")))
  | Raise _ => True
  end.
Proof.
  pose proof (used_neat a us) as H.
  destruct (used a us) as [p|e]; [|exact I].
  destruct H as [[_ Hf] (_ & Ho & _)].
  intros nd n fuel Hn str. split; [|split].
  - intros Hin. specialize (Ho nd Hin). unfold closure_at in Ho.
    rewrite Hn in Ho. exact Ho.
  - intros Hleft Hk.
    destruct (node_str rt a (S fuel) (h p) nd) as [s|e] eqn:E.
    + cbn [node_str] in E. rewrite Hn in E. fold str in E.
      assert (E' : node_format (closed fuel (h p) (ClosureOf nd)) n str
                   = Ok s)
        by (destruct (n_cls n); try discriminate Hk; exact E).
      destruct (closed_left_open (h p) (nodes p) nd Ho Hleft fuel) as [Hc|Hc];
        rewrite Hc in E'.
      * apply node_format_open, E'.
      * exfalso. unfold node_format in E'.
        destruct (match children n with
                  | [] => Ok (EmptyString, EmptyString)
                  | [c] => _
                  | c :: (_ :: _) as cs => _
                  end) as [[first rest]|e1]; discriminate E'.
    + split; [apply (InlineProps.node_str_error _ _ _ _ _ _ E)|].
      destruct (Nat.le_gt_cases fuel (List.length (h p))) as [Hle|Hgt];
        [exact Hle|].
      pose proof (RenderProps.node_str_enough rt a (h p) Hf (S fuel) nd) as Hok.
      rewrite E in Hok. discriminate Hok; lia.
  - intros Hk. cbn [node_str]. rewrite Hn, Hk. reflexivity.
Qed.

Lemma unclosed_node_str_witness :
  match used no_args [Parse (token_lex " **x")] with
  | Ok p =>
      nodes p = [1; 0]
      /\ exists n,
           nth_error (h p) 1 = Some n
           /\ n_cls n = Bold
           /\ n_closure n = OPEN_NODE
           /\ node_str rt0 no_args 3 (h p) 1 = Ok "**x"
           /\ node_str rt0 no_args 4 (h p) 0 = Ok " **x"
           /\ node_str rt0 no_args 3 (h p) 0 = Raise RecursionError
  | Raise _ => False
  end
  /\ match used no_args [Parse (token_lex "**a"); Renew; Parse (token_lex "b")]
     with
     | Ok p =>
         nodes p = [3; 2]
         /\ left_open (h p) (nodes p) 1
         /\ node_str rt0 no_args 4 (h p) 1 = Ok "**a"
         /\ node_str rt0 no_args 3 (h p) 1 = Raise RecursionError
     | Raise _ => False
     end.
Proof.
  split.
  - pose proof (unclosed_node_str rt0 no_args [Parse (token_lex " **x")]) as H.
    destruct (used no_args [Parse (token_lex " **x")]) as [p|e] eqn:E;
      vm_compute in E; [|discriminate E].
    injection E as <-.
    split; [reflexivity|]. eexists. split; [reflexivity|].
    split; [reflexivity|].
    destruct (H 1 _ 2 eq_refl) as [H1 _].
    split; [exact (H1 (or_introl eq_refl))|].
    repeat split; vm_compute; reflexivity.
  - pose proof (unclosed_node_str rt0 no_args
                  [Parse (token_lex "**a"); Renew; Parse (token_lex "b")])
      as H.
    destruct (used no_args
                [Parse (token_lex "**a"); Renew; Parse (token_lex "b")])
      as [p|e] eqn:E; vm_compute in E; [|discriminate E].
    injection E as <-.
    split; [reflexivity|].
    assert (Hl : forall s stack n, nth_error s 1 = Some n ->
                   n_closure n = ClosureOf 3 -> In 3 stack ->
                   left_open s stack 1).
    { intros s stack n Hn Hc Hin.
      apply (open_by_next s stack 1 3 n Hn Hc), open_on_stack, Hin. }
    split; [eapply Hl; [reflexivity | reflexivity | left; reflexivity]|].
    destruct (H 1 _ 3 eq_refl) as (_ & H2 & _).
    specialize (H2 ltac:(eapply Hl; [reflexivity | reflexivity
                                    | left; reflexivity]) eq_refl).
    split; [|vm_compute; reflexivity].
    destruct (node_str rt0 no_args 4 _ 1) as [x|e] eqn:E;
      vm_compute in E; [|discriminate E].
    injection E as <-. cbn in H2. destruct H2 as (rest & Hr & ->).
    vm_compute in Hr. injection Hr as <-. reflexivity.
Defined.

(** *** Nested colour spans *)




End OpenProps.
